(** * NestedText decoder (github.com/npillmayer/nestext): a shallow embedding

    The decoding pipeline of the package, as the Go sources have it:
    - [lineBuffer] (linebuf.go): input lines, blank/comment skipping, one
      rune of look-ahead with a synthetic end-of-line marker;
    - [scanner] (scan.go): a chain of step functions turning one line into
      one [parserToken];
    - [inline_parse] (parse.go, inline item parser): the table-driven
      automaton for bracketed inline lists and dicts;
    - the recursive-descent parser [parseDocument] and the entry point
      [Parse] (parse.go), with the shared parser stack [pstack].

    Go strings are modelled as Rocq [string]s of bytes and runes as
    [ascii] characters (the development is about ASCII input).  Go panics
    and the fuel bound of the recursive functions are the two ways a
    computation aborts ([abort]).  Go multi-value returns
    [(result, err)] stay pairs. *)

From Stdlib Require Import String Ascii List Bool Arith Lia.
From Stdlib Require Import DecimalString ZArith Setoid.
Import ListNotations.

Set Warnings "-register-all".

Open Scope list_scope.

(* ------------------------------------------------------------------------ *)
(** ** Results, panics, strings *)

Inductive abort : Type :=
  | Panic (msg : string)
  | OutOfFuel.

Inductive res (A : Type) : Type :=
  | Ret (a : A)
  | Abort (a : abort).
Arguments Ret {A} a.
Arguments Abort {A} a.

Definition res_bind {A B : Type} (r : res A) (k : A -> res B) : res B :=
  match r with
  | Ret a => k a
  | Abort x => Abort x
  end.

Notation "'let*' x ':=' r 'in' k" := (res_bind r (fun x => k))
  (at level 200, x name, r at level 100, k at level 200).
Notation "'let*' ' p ':=' r 'in' k" :=
  (res_bind r (fun x => match x with p => k end))
  (at level 200, p pattern, r at level 100, k at level 200).

Definition str1 (c : ascii) : string := String c EmptyString.

Definition eolMarker : ascii := ascii_of_nat 10.
Definition CR : ascii := ascii_of_nat 13.
Definition dq : string := str1 (ascii_of_nat 34).
Definition nl : string := str1 eolMarker.

Definition string_of_nat (n : nat) : string :=
  NilEmpty.string_of_uint (Nat.to_uint n).

(** Go's slice expression [s[lo:hi]]: panics outside [0 <= lo <= hi <= len s]. *)
Definition goSlice (s : string) (lo hi : nat) : res string :=
  if (lo <=? hi) && (hi <=? String.length s)
  then Ret (substring lo (hi - lo) s)
  else Abort (Panic "runtime error: slice bounds out of range").

(** [unicode.IsSpace] on a rune below 128 (where it is exact); the
    runes of 128 or more that Go also counts as space (U+0085, U+00A0,
    ...) are not modelled. *)
Definition isSpace (c : ascii) : bool :=
  let n := nat_of_ascii c in
  ((9 <=? n) && (n <=? 13)) || (n =? 32).

Fixpoint trimLeft (s : string) : string :=
  match s with
  | EmptyString => EmptyString
  | String c r => if isSpace c then trimLeft r else s
  end.

Definition rev_string (s : string) : string :=
  string_of_list_ascii (List.rev (list_ascii_of_string s)).

(** [strings.TrimSpace] on ASCII text (exact there; see [isSpace]). *)
Definition TrimSpace (s : string) : string :=
  rev_string (trimLeft (rev_string (trimLeft s))).

(* ------------------------------------------------------------------------ *)
(** ** Errors (nestext.go / parse.go) *)

Definition NoError : nat := 0.
Definition ErrCodeUsage : nat := 1.
Definition ErrCodeIO : nat := 10.
Definition ErrCodeSchema : nat := 100.
(** [ErrCodeFormat = 200 + iota] with [iota = 4] in its const block. *)
Definition ErrCodeFormat : nat := 204.
Definition ErrCodeFormatNoInput : nat := 205.
Definition ErrCodeFormatToplevelIndent : nat := 206.
Definition ErrCodeFormatIllegalTag : nat := 207.

Record NestedTextError : Type := mkNTError {
  Code : nat;
  ErrLine : nat;
  ErrColumn : nat;
  msg : string
}.

(** Values of Go type [error] met by the decoder: the sentinel [errAtEof]
    of the line buffer, or a [NestedTextError]. *)
Inductive goerr : Type :=
  | errAtEof
  | NTErr (e : NestedTextError).

Definition MakeNestedTextError (code : nat) (m : string) : goerr :=
  NTErr (mkNTError code 0 0 m).

(* ------------------------------------------------------------------------ *)
(** ** Decoded values *)

(** Go's [interface{}] results: [nil], [string], [[]interface{}] and
    [map[string]interface{}].  A map is kept as an association list
    with unique keys, updated as Go's [m[k] = v] does ([dict_set]); its
    order carries no meaning. *)
Inductive value : Type :=
  | VNil
  | VStr (s : string)
  | VList (vs : list value)
  | VDict (kvs : list (string * value)).

Fixpoint dict_set (k : string) (v : value) (d : list (string * value))
  : list (string * value) :=
  match d with
  | [] => [(k, v)]
  | (k', v') :: d' =>
      if String.eqb k k' then (k, v) :: d' else (k', v') :: dict_set k v d'
  end.

Definition isNil (v : value) : bool :=
  match v with VNil => true | _ => false end.

(* ------------------------------------------------------------------------ *)
(** ** Parser tokens *)

Inductive parserTokenType : Type :=
  | undefined | eof | emptyDocument | docRoot
  | listItem | listItemMultiline | stringMultiline | dictKeyMultiline
  | inlineList | inlineDict | inlineDictKeyValue | inlineDictKey.

Definition tokenTypeCode (t : parserTokenType) : nat :=
  match t with
  | undefined => 0 | eof => 1 | emptyDocument => 2 | docRoot => 3
  | listItem => 4 | listItemMultiline => 5 | stringMultiline => 6
  | dictKeyMultiline => 7 | inlineList => 8 | inlineDict => 9
  | inlineDictKeyValue => 10 | inlineDictKey => 11
  end.

Definition tokenTypeName (t : parserTokenType) : string :=
  match t with
  | undefined => "undefined" | eof => "eof" | emptyDocument => "emptyDocument"
  | docRoot => "docRoot" | listItem => "listItem"
  | listItemMultiline => "listItemMultiline"
  | stringMultiline => "stringMultiline" | dictKeyMultiline => "dictKeyMultiline"
  | inlineList => "inlineList" | inlineDict => "inlineDict"
  | inlineDictKeyValue => "inlineDictKeyValue" | inlineDictKey => "inlineDictKey"
  end.

Definition tt_eqb (a b : parserTokenType) : bool :=
  Nat.eqb (tokenTypeCode a) (tokenTypeCode b).

Record parserToken : Type := mkToken {
  LineNo : nat;
  ColNo : nat;
  TokenType : parserTokenType;
  Indent : nat;
  Content : list string;
  Error : option goerr
}.

Definition newToken (line col : nat) : parserToken :=
  mkToken line col undefined 0 [] None.

Definition set_TokenType (t : parserTokenType) (k : parserToken) : parserToken :=
  mkToken (LineNo k) (ColNo k) t (Indent k) (Content k) (Error k).
Definition set_Indent (n : nat) (k : parserToken) : parserToken :=
  mkToken (LineNo k) (ColNo k) (TokenType k) n (Content k) (Error k).
Definition set_Content (c : list string) (k : parserToken) : parserToken :=
  mkToken (LineNo k) (ColNo k) (TokenType k) (Indent k) c (Error k).
Definition set_Error (e : option goerr) (k : parserToken) : parserToken :=
  mkToken (LineNo k) (ColNo k) (TokenType k) (Indent k) (Content k) e.

(** [makeNestedTextError] / [makeParsingError]: the error carries the
    token's position. *)
Definition makeParsingError (k : parserToken) (code : nat) (m : string) : goerr :=
  NTErr (mkNTError code (LineNo k) (ColNo k) m).

(* ------------------------------------------------------------------------ *)
(** ** Input lines (linebuf.go, [newLineBuffer]'s [bufio.Scanner])

    The split function of [newLineBuffer], on data that holds a line
    feed or is the rest of the input ([atEOF]): the token and the data
    after it.  LF and CR LF end a line, so does a CR followed by
    anything else; a CR that ends the data is dropped. *)
Fixpoint splitToken (s : string) : string * string :=
  match s with
  | EmptyString => (EmptyString, EmptyString)
  | String c rest =>
      if Ascii.eqb c eolMarker then (EmptyString, rest)
      else if Ascii.eqb c CR then
        match rest with
        | String c2 rest2 =>
            if Ascii.eqb c2 eolMarker then (EmptyString, rest2) else (EmptyString, rest)
        | EmptyString => (EmptyString, EmptyString)
        end
      else let (t, r) := splitToken rest in (String c t, r)
  end.

(** [bufio.MaxScanTokenSize], the size the scanner's buffer may grow to. *)
Definition maxScanTokenSize : nat := 65536.

Fixpoint indexLF (s : string) : option nat :=
  match s with
  | EmptyString => None
  | String c rest =>
      if Ascii.eqb c eolMarker then Some 0 else option_map S (indexLF rest)
  end.

(** [Scan] on the unread data [s] returns a token when its buffer can hold
    the data up to the first line feed, or all of [s] when there is no
    line feed (the split function asks for more data until it sees a line
    feed or the end of the input).  Otherwise the buffer is full at
    [maxScanTokenSize] bytes and [Scan] fails with [ErrTooLong]. *)
Definition tokenFits (s : string) : bool :=
  match indexLF s with
  | Some j => j <? maxScanTokenSize
  | None => String.length s <? maxScanTokenSize
  end.

(** After [ErrTooLong] the scanner keeps the full buffer; each later
    [Scan] splits it as at the end of the input, and once it is used up
    fails with [ErrTooLong] again.  The tokens so obtained from [s]. *)
Fixpoint windowTokens (fuel : nat) (s : string) : list string :=
  match fuel with
  | 0 => []
  | S f =>
      match s with
      | EmptyString => []
      | _ => let (t, r) := splitToken s in t :: windowTokens f r
      end
  end.

(** The successive [Scan] calls on the unread data [s]: the tokens before
    the scanner stops, and [None] when it stops at the end of the input
    or [Some w] when it stops with [ErrTooLong], [w] being the tokens of
    its buffer.  Each token uses up at least one byte, so [S (length s)]
    calls suffice ([scanInput]). *)
Fixpoint scanTokens (fuel : nat) (s : string) : list string * option (list string) :=
  match fuel with
  | 0 => ([], None)
  | S f =>
      match s with
      | EmptyString => ([], None)
      | _ =>
          if tokenFits s then
            let (t, r) := splitToken s in
            let (ts, e) := scanTokens f r in (t :: ts, e)
          else ([], Some (windowTokens f (substring 0 maxScanTokenSize s)))
      end
  end.

Definition scanInput (doc : string) : list string * option (list string) :=
  scanTokens (S (String.length doc)) doc.

(** The lines of a document split at CR LF, CR or LF, a last line without
    terminator kept if non-empty: what [scanInput] yields for a document
    shorter than [maxScanTokenSize] bytes ([scanInput_small]). *)
Fixpoint splitLines_aux (s : string) (cur : string) : list string :=
  match s with
  | EmptyString =>
      match cur with EmptyString => [] | _ => [cur] end
  | String c rest =>
      if Ascii.eqb c eolMarker then cur :: splitLines_aux rest EmptyString
      else if Ascii.eqb c CR then
        match rest with
        | String c2 rest2 =>
            if Ascii.eqb c2 eolMarker then cur :: splitLines_aux rest2 EmptyString
            else cur :: splitLines_aux rest EmptyString
        | EmptyString => [cur]
        end
      else splitLines_aux rest (cur ++ str1 c)%string
  end.

Definition splitLines (s : string) : list string := splitLines_aux s EmptyString.

(** [\s] of Go's regexp package: [\t \n \f \r] and space. *)
Definition isReSpace (c : ascii) : bool :=
  let n := nat_of_ascii c in
  (n =? 9) || (n =? 10) || (n =? 12) || (n =? 13) || (n =? 32).

(** [IsIgnoredLine]: matches [^\s*$] or [^\s*#]. *)
Fixpoint IsIgnoredLine (s : string) : bool :=
  match s with
  | EmptyString => true
  | String c r => if isReSpace c then IsIgnoredLine r else Ascii.eqb c "#"%char
  end.

(* ------------------------------------------------------------------------ *)
(** ** The line buffer (linebuf.go)

    [Input] holds the tokens the [bufio.Scanner] will deliver before it
    stops, and [InputErr] how it stops: [None] at the end of the input,
    [Some w] with [ErrTooLong], after which it delivers the tokens [w] of
    its buffer and then keeps failing ([scanTokens]).  [Line] is the
    string under the [strings.Reader] whose read position is
    [ByteCursor], [LineNil] tells that the reader is still nil; [isEof]
    is the eof-phase 0, 1 or 2. *)
Record lineBuffer : Type := mkBuf {
  Lookahead : ascii;
  Cursor : nat;
  ByteCursor : nat;
  CurrentLine : nat;
  Input : list string;
  InputErr : option (list string);
  Text : string;
  Line : string;
  LineNil : bool;
  isEof : nat;
  LastError : option goerr
}.

Definition set_Lookahead (r : ascii) (b : lineBuffer) : lineBuffer :=
  mkBuf r (Cursor b) (ByteCursor b) (CurrentLine b) (Input b) (InputErr b) (Text b)
    (Line b) (LineNil b) (isEof b) (LastError b).
Definition set_Cursors (c bc : nat) (b : lineBuffer) : lineBuffer :=
  mkBuf (Lookahead b) c bc (CurrentLine b) (Input b) (InputErr b) (Text b)
    (Line b) (LineNil b) (isEof b) (LastError b).
(** [buf.Line = strings.NewReader(l)]: the reader is no longer nil. *)
Definition set_Line (l : string) (b : lineBuffer) : lineBuffer :=
  mkBuf (Lookahead b) (Cursor b) (ByteCursor b) (CurrentLine b) (Input b) (InputErr b)
    (Text b) l false (isEof b) (LastError b).
Definition set_isEof (n : nat) (b : lineBuffer) : lineBuffer :=
  mkBuf (Lookahead b) (Cursor b) (ByteCursor b) (CurrentLine b) (Input b) (InputErr b)
    (Text b) (Line b) (LineNil b) n (LastError b).
Definition set_LastError (e : option goerr) (b : lineBuffer) : lineBuffer :=
  mkBuf (Lookahead b) (Cursor b) (ByteCursor b) (CurrentLine b) (Input b) (InputErr b)
    (Text b) (Line b) (LineNil b) (isEof b) e.

(** [IsEof] on a non-nil [Line]; the one step that can meet a nil [Line]
    is [ScanFileStart], which checks [LineNil] first (see [runStep]). *)
Definition IsEof (b : lineBuffer) : bool :=
  (2 <=? isEof b) || (String.length (Line b) =? 0).

(** [readRune] followed by the cursor updates; the reader cannot fail
    below [Line.Size()].  [ReadRune] decodes UTF-8: a byte below 128 is
    read as one rune, which is what this model does; a longer or an
    invalid sequence is not modelled (a byte of 128 or more is read here
    as the rune of that number), so the properties below that read such
    a byte assume it is below 128. *)
Definition readRune (b : lineBuffer) : ascii * lineBuffer :=
  match String.get (ByteCursor b) (Line b) with
  | Some r => (r, set_Cursors (S (Cursor b)) (S (ByteCursor b)) b)
  | None => (Ascii.zero, b)
  end.

Definition AdvanceCursor (b : lineBuffer) : lineBuffer * option goerr :=
  if 2 <? isEof b then (b, Some errAtEof)
  else if String.length (Line b) <=? ByteCursor b
  then (set_Lookahead eolMarker b, None)
  else let (r, b') := readRune b in (set_Lookahead r b', None).

(** [WrapError(ErrCodeIO, "I/O error while reading input", err)]; the
    wrapped [bufio.ErrTooLong] is not kept. *)
Definition ioReadError : goerr := MakeNestedTextError ErrCodeIO "I/O error while reading input".

(** The [for buf.isEof == 0] loop of [AdvanceLine] over the tokens [inp]
    still to come; the error is [None] when a line that is not ignored
    was found, [errAtEof] at the end of the input, or the I/O error of a
    failed [Scan]. *)
Fixpoint advanceLoop (b : lineBuffer) (inp : list string) : lineBuffer * option goerr :=
  match inp with
  | [] =>
      match InputErr b with
      | None =>
          (mkBuf (Lookahead b) (Cursor b) (ByteCursor b) (S (CurrentLine b)) [] None
             (Text b) EmptyString false 1 (LastError b), Some errAtEof)
      | Some window =>
          (mkBuf (Lookahead b) (Cursor b) (ByteCursor b) (S (CurrentLine b)) window (Some [])
             (Text b) (Line b) (LineNil b) (isEof b) (LastError b), Some ioReadError)
      end
  | l :: rest =>
      let b1 := mkBuf (Lookahead b) (Cursor b) (ByteCursor b) (S (CurrentLine b))
                  rest (InputErr b) l (Line b) (LineNil b) (isEof b) (LastError b) in
      if IsIgnoredLine l then advanceLoop b1 rest else (set_Line l b1, None)
  end.

Definition AdvanceLine (b0 : lineBuffer) : lineBuffer * option goerr :=
  let b := set_Cursors 0 0 b0 in
  if isEof b =? 1 then (set_isEof 2 b, Some errAtEof)
  else if isEof b =? 0 then
    let (b1, stop) := advanceLoop b (Input b) in
    match stop with
    | Some e => (b1, Some e)
    | None => AdvanceCursor (set_Line (Text b1) b1)
    end
  else AdvanceCursor (set_Line (Text b) b).

Definition newLineBuffer (doc : string) : lineBuffer :=
  let (inp, inpErr) := scanInput doc in
  let b0 := mkBuf Ascii.zero 0 0 0 inp inpErr EmptyString EmptyString true 0 None in
  let (b, err) := AdvanceLine b0 in
  match err with
  | Some errAtEof => b
  | _ => set_LastError err b
  end.

Definition ReadLineRemainder (b : lineBuffer) : string * lineBuffer :=
  let size := String.length (Line b) in
  let s :=
    if IsEof b then EmptyString
    else if ByteCursor b =? size then str1 (Lookahead b)
    else if size <? ByteCursor b then EmptyString
    else String (Lookahead b) (substring (ByteCursor b) (size - ByteCursor b) (Text b)) in
  let (b', err) := AdvanceLine b in
  (s, set_LastError err b').

Definition singleRune (r : ascii) : ascii -> bool := fun a => Ascii.eqb a r.

Definition isErrAtEof (e : goerr) : bool :=
  match e with errAtEof => true | _ => false end.

(** [lineBuffer.match] *)
Definition bufMatch (predicate : ascii -> bool) (b : lineBuffer) : bool * lineBuffer :=
  if IsEof b || (match LastError b with Some _ => true | None => false end)
  then (false, b)
  else if negb (predicate (Lookahead b)) then (false, b)
  else
    let (b', err) :=
      if Ascii.eqb (Lookahead b) eolMarker then AdvanceLine b else AdvanceCursor b in
    match err with
    | Some e => if isErrAtEof e then (true, b') else (false, set_LastError (Some e) b')
    | None => (true, b')
    end.

(* ------------------------------------------------------------------------ *)
(** ** The scanner (scan.go)

    The closures [sc.ScanFileStart], [sc.ScanItem], ... stored in
    [sc.Step] become the constructors of [scannerStep]; [runStep]
    dispatches on them. *)
Inductive scannerStep : Type :=
  | ScanFileStart | ScanItem | ScanIndentation | ScanItemBody | ScanInlineKey.

Record scanner : Type := mkScanner {
  Buf : lineBuffer;
  Step : option scannerStep;
  ScLastError : option goerr
}.

(** [newScanner]: a nil reader is [None]. *)
Definition newScanner (inputReader : option string) : option scanner * option goerr :=
  match inputReader with
  | None => (None, Some (MakeNestedTextError ErrCodeFormatNoInput "no input present"))
  | Some doc => (Some (mkScanner (newLineBuffer doc) (Some ScanFileStart) None), None)
  end.

Definition hexDigit (n : nat) : ascii :=
  if n <? 10 then ascii_of_nat (48 + n) else ascii_of_nat (55 + n).

(** [fmt.Sprintf("%#U", r)] for a rune [r] below 128 (exact there). *)
Definition fmtU (r : ascii) : string :=
  let n := nat_of_ascii r in
  let hex := String "0" (String "0" (String (hexDigit (n / 16))
               (String (hexDigit (n mod 16)) EmptyString))) in
  if (32 <=? n) && (n <=? 126)
  then "U+" ++ hex ++ " '" ++ str1 r ++ "'"
  else "U+" ++ hex.

Definition illegalTagMsg (tag r : ascii) : string :=
  "item tag '" ++ str1 tag ++ "' followed by illegal character " ++ fmtU r.

Definition space : ascii := " "%char.

(** [recognizeItemTag]; the token content is the one-element slice
    holding the line remainder. *)
Definition recognizeItemTag (tag : ascii) (single multi : parserTokenType)
  (b : lineBuffer) (k : parserToken) : parserToken * lineBuffer :=
  let b1 := snd (bufMatch (singleRune tag) b) in
  if Ascii.eqb (Lookahead b1) space then
    let b2 := snd (bufMatch (singleRune space) b1) in
    let (s, b3) := ReadLineRemainder b2 in
    (set_Content [s] (set_TokenType single k), b3)
  else if negb (Ascii.eqb (Lookahead b1) eolMarker) then
    (set_Error (Some (makeParsingError k ErrCodeFormatIllegalTag
                        (illegalTagMsg tag (Lookahead b1)))) k, b1)
  else
    let b2 := snd (bufMatch (singleRune eolMarker) b1) in
    (set_TokenType multi k, b2).

(** [recognizeInlineItem]: the last byte of the line is compared with
    the look-ahead, i.e. with the opening bracket. *)
Definition recognizeInlineItem (toktype : parserTokenType) (b : lineBuffer)
  (k : parserToken) : res (parserToken * lineBuffer) :=
  let n := String.length (Text b) in
  match String.get (n - 1) (Text b) with
  | None => Abort (Panic "runtime error: index out of range [-1]")
  | Some closing =>
      let k1 := if Ascii.eqb closing (Lookahead b) then k
                else set_Error (Some (makeParsingError k ErrCodeFormatIllegalTag
                                        "inline-item does not match opening tag")) k in
      let (s, b1) := ReadLineRemainder b in
      Ret (set_Content [s] (set_TokenType toktype k1), b1)
  end.

(** One step function; the result is the token, the buffer and the next
    step. *)
Definition runStep (st : scannerStep) (b : lineBuffer) (k : parserToken)
  : res (parserToken * lineBuffer * option scannerStep) :=
  match st with
  | ScanFileStart =>
      let k1 := set_TokenType emptyDocument k in
      (* [Line] is nil until [AdvanceLine] first sets it, and the call of
         [newLineBuffer] leaves it nil only when it returns an I/O error;
         [ScanFileStart], the first step of every scanner, is then the
         first to read it, in [IsEof]. *)
      if LineNil b
      then Abort (Panic "runtime error: invalid memory address or nil pointer dereference")
      else if IsEof b then Ret (k1, b, None)
      else
        let k2 := set_Indent 0 (set_TokenType docRoot k1) in
        if Ascii.eqb (Lookahead b) space
        then Ret (set_Error (Some (makeParsingError k2 ErrCodeFormatToplevelIndent
                                     "top-level item must not be indented")) k2, b, None)
        else Ret (k2, b, None)
  | ScanItem =>
      if Ascii.eqb (Lookahead b) space then Ret (k, b, Some ScanIndentation)
      else Ret (k, b, Some ScanItemBody)
  | ScanIndentation =>
      if Ascii.eqb (Lookahead b) space then
        let b1 := snd (bufMatch (singleRune space) b) in
        Ret (set_Indent (S (Indent k)) k, b1, Some ScanIndentation)
      else Ret (k, b, Some ScanItemBody)
  | ScanItemBody =>
      let la := Lookahead b in
      if Ascii.eqb la "-"%char then
        let (k1, b1) := recognizeItemTag "-"%char listItem listItemMultiline b k in
        Ret (k1, b1, None)
      else if Ascii.eqb la ">"%char then
        let (k1, b1) := recognizeItemTag ">"%char stringMultiline stringMultiline b k in
        Ret (k1, b1, None)
      else if Ascii.eqb la ":"%char then
        let (k1, b1) := recognizeItemTag ":"%char dictKeyMultiline dictKeyMultiline b k in
        Ret (k1, b1, None)
      else if Ascii.eqb la "["%char then
        let* '(k1, b1) := recognizeInlineItem inlineList b k in Ret (k1, b1, None)
      else if Ascii.eqb la "{"%char then
        let* '(k1, b1) := recognizeInlineItem inlineDict b k in Ret (k1, b1, None)
      else Ret (k, b, Some ScanInlineKey)
  | ScanInlineKey =>
      (* the stub of scan.go: a [:] is matched, the token is left as it is *)
      let b1 := if Ascii.eqb (Lookahead b) ":"%char
                then snd (bufMatch (singleRune ":"%char) b) else b in
      Ret (k, b1, None)
  end.

(** The [for sc.Step != nil] loop of [NextToken]. *)
Fixpoint stepLoop (fuel : nat) (st : scannerStep) (b : lineBuffer) (k : parserToken)
  : res (parserToken * lineBuffer * option scannerStep) :=
  match fuel with
  | 0 => Abort OutOfFuel
  | S fuel' =>
      let* '(k1, b1, next) := runStep st b k in
      match Error k1 with
      | Some _ => Ret (k1, b1, next)
      | None =>
          match next with
          | None => Ret (k1, b1, None)
          | Some st' => stepLoop fuel' st' b1 k1
          end
      end
  end.

(** [NextToken]; the steps of one call are bounded by the length of the
    current line plus the fixed steps around the indentation loop. *)
Definition NextToken (sc : scanner) : res (parserToken * scanner) :=
  let b := Buf sc in
  let k := newToken (CurrentLine b) (Cursor b) in
  let st := match Step sc with Some s => s | None => ScanItem end in
  let* '(k1, b1, next) := stepLoop (String.length (Line b) + 5) st b k in
  Ret (k1, mkScanner b1 next
                (match Error k1 with Some e => Some e | None => ScLastError sc end)).

(* ------------------------------------------------------------------------ *)
(** ** The parser stack (parse.go, shared by both parsers)

    A [pstack] is a Go slice whose last element is the top of stack; here
    it is a list whose head is the top of stack.  [Keys = None] is a nil
    key slice (a list frame), [Some ks] a non-nil one (a dict frame). *)
Record parserStackEntry : Type := mkEntry {
  Values : list value;
  Keys : option (list string);
  Key : option string;
  EntryError : option goerr;
  NontermState : Z
}.

Definition pstack := list parserStackEntry.

Definition set_Values (vs : list value) (e : parserStackEntry) : parserStackEntry :=
  mkEntry vs (Keys e) (Key e) (EntryError e) (NontermState e).
Definition set_Keys (ks : option (list string)) (e : parserStackEntry) : parserStackEntry :=
  mkEntry (Values e) ks (Key e) (EntryError e) (NontermState e).
Definition set_Key (k : option string) (e : parserStackEntry) : parserStackEntry :=
  mkEntry (Values e) (Keys e) k (EntryError e) (NontermState e).
Definition set_NontermState (n : Z) (e : parserStackEntry) : parserStackEntry :=
  mkEntry (Values e) (Keys e) (Key e) (EntryError e) n.

Definition nilDeref {A : Type} : res A :=
  Abort (Panic "runtime error: invalid memory address or nil pointer dereference").

(** [s.tos()] dereferenced: a nil top of stack panics at the use. *)
Definition tos (s : pstack) : res parserStackEntry :=
  match s with [] => nilDeref | t :: _ => Ret t end.

(** Writing through [s.tos()]. *)
Definition updTos (f : parserStackEntry -> parserStackEntry) (s : pstack) : res pstack :=
  match s with [] => nilDeref | t :: r => Ret (f t :: r) end.

Definition pop (s : pstack) : pstack := tl s.
Definition push (e : parserStackEntry) (s : pstack) : pstack := e :: s.

(** [pushKV]; its boolean result is ignored by every caller.  The value
    is appended before the key slice is looked at. *)
Definition pushKV (str : option string) (val : value) (s : pstack) : res pstack :=
  match s with
  | [] => Abort (Panic "use of un-initialized parser stack")
  | t :: r =>
      let t1 := set_Values (Values t ++ [val]) t in
      match str with
      | None => Ret (t1 :: r)
      | Some k =>
          match Keys t with
          | None => Ret (t1 :: r)
          | Some ks => Ret (set_Keys (Some (ks ++ [k])) t1 :: r)
          end
      end
  end.

Definition mixedItemMsg (nk nv : nat) : string :=
  "mixed item: number of keys (" ++ string_of_nat nk
  ++ ") not equal to number of values (" ++ string_of_nat nv ++ ")".

Fixpoint buildDict (ks : list string) (vs : list value) (d : list (string * value))
  : list (string * value) :=
  match ks, vs with
  | k :: ks', v :: vs' => buildDict ks' vs' (dict_set k v d)
  | _, _ => d
  end.

(** [parserStackEntry.ReduceToItem]; its error result is always nil. *)
Definition ReduceToItem (entry : parserStackEntry) : res value :=
  match Keys entry with
  | None => Ret (VList (Values entry))
  | Some ks =>
      if (0 <? length ks) && negb (length (Values entry) =? length ks)
      then Abort (Panic (mixedItemMsg (length ks) (length (Values entry))))
      else Ret (VDict (buildDict ks (Values entry) []))
  end.

(* ------------------------------------------------------------------------ *)
(** ** The inline item parser (parse.go) *)

Definition e : Z := (-1)%Z.
Definition _S1 : Z := 11%Z.
Definition _S2 : Z := 12%Z.
Definition _A1 : Z := 13%Z.
Definition _A2 : Z := 14%Z.

Definition isErrorState (s : Z) : bool := (s <? 0)%Z.
Definition isNonterm (s : Z) : bool := (s =? _S1)%Z || (s =? _S2)%Z.
Definition isAccept (s : Z) : bool := (s =? _A1)%Z || (s =? _A2)%Z.
Definition isGhost (s : Z) : bool := (s =? 5)%Z || (s =? 10)%Z.

Definition chClassCnt : Z := 11%Z.

(** Columns: A, ws, \n, [,], [:], [[], []], [{], [}], _S(S1), _S(S2). *)
Definition inlineStateMachine : list (list Z) := Eval cbv in
  [ [e; e; e; e; e; 7; e; 1; e; e; e];             (* state 0, initial *)
    [2; 2; e; e; 3; e; e; e; _A1; e; e];           (* state 1 *)
    [2; 2; e; e; 3; e; e; e; e; e; e];             (* state 2 *)
    [4; 3; e; 6; e; _S2; e; _S1; _A1; 5; 5];       (* state 3 *)
    [4; 4; e; 6; e; e; e; e; _A1; e; e];           (* state 4 *)
    [e; 5; e; 6; e; e; e; e; _A1; e; e];           (* state 5 *)
    [2; 6; e; e; 3; e; e; e; e; e; e];             (* state 6 *)
    [9; 8; e; 7; 9; _S2; _A2; _S1; e; 10; 10];     (* state 7 *)
    [9; 8; e; 7; 9; _S2; _A2; _S1; e; 10; 10];     (* state 8 *)
    [9; 9; e; 7; 9; e; _A2; e; e; e; e];           (* state 9 *)
    [e; 10; e; 7; e; e; _A2; e; e; e; e];          (* state 10 *)
    [e; e; e; e; e; e; e; 1; e; e; e];             (* state S1 *)
    [e; e; e; e; e; 7; e; e; e; e; e];             (* state S2 *)
    [e; e; e; e; e; e; e; e; e; e; e];             (* state A1 *)
    [e; e; e; e; e; e; e; e; e; e; e] ]%Z.         (* state A2 *)

Definition indexPanic {A : Type} : res A :=
  Abort (Panic "runtime error: index out of range").

(** [inlineStateMachine[s][c]] *)
Definition tableAt (s c : Z) : res Z :=
  if (s <? 0)%Z || (c <? 0)%Z then indexPanic
  else match nth_error inlineStateMachine (Z.to_nat s) with
       | None => indexPanic
       | Some row => match nth_error row (Z.to_nat c) with
                     | None => indexPanic
                     | Some t => Ret t
                     end
       end.

Definition _S (s : Z) : Z := (s - _S1 + chClassCnt - 2)%Z.

(** [inlineTokenFor] with [inlineTokenMap]: character 0, whitespace 1,
    newline 2, comma 3, colon 4, listOpen 5, listClose 6, dictOpen 7,
    dictClose 8; for a rune below 128 (see [isSpace]). *)
Definition inlineTokenFor (r : ascii) : Z :=
  if Ascii.eqb r " "%char then 1%Z
  else if Ascii.eqb r eolMarker then 2%Z
  else if Ascii.eqb r ","%char then 3%Z
  else if Ascii.eqb r ":"%char then 4%Z
  else if Ascii.eqb r "["%char then 5%Z
  else if Ascii.eqb r "]"%char then 6%Z
  else if Ascii.eqb r "{"%char then 7%Z
  else if Ascii.eqb r "}"%char then 8%Z
  else if isSpace r then 1%Z
  else 0%Z.

(** The fields of [inlineItemParser] that [parse] uses; [IInput] is what
    the [strings.Reader] has not read yet.  [ireduced] is a ghost log of
    the stack entries handed to [ReduceToItem], most recent first. *)
Record inlineItemParser : Type := mkInline {
  IText : string;
  TextPosition : nat;
  Marker : nat;
  IInput : string;
  ILineNo : nat;
  istack : pstack;
  ireduced : list parserStackEntry
}.

Definition set_Marker (m : nat) (p : inlineItemParser) : inlineItemParser :=
  mkInline (IText p) (TextPosition p) m (IInput p) (ILineNo p) (istack p) (ireduced p).
Definition set_TextPosition (n : nat) (p : inlineItemParser) : inlineItemParser :=
  mkInline (IText p) n (Marker p) (IInput p) (ILineNo p) (istack p) (ireduced p).
Definition set_IInput (s : string) (p : inlineItemParser) : inlineItemParser :=
  mkInline (IText p) (TextPosition p) (Marker p) s (ILineNo p) (istack p) (ireduced p).
Definition set_istack (s : pstack) (p : inlineItemParser) : inlineItemParser :=
  mkInline (IText p) (TextPosition p) (Marker p) (IInput p) (ILineNo p) s (ireduced p).
Definition log_reduce (t : parserStackEntry) (p : inlineItemParser) : inlineItemParser :=
  mkInline (IText p) (TextPosition p) (Marker p) (IInput p) (ILineNo p) (istack p)
    (t :: ireduced p).

Definition newEntry (isDict : bool) : parserStackEntry :=
  mkEntry [] (if isDict then Some [] else None) None None 0%Z.

(** [inlineItemParser.pushNonterm] *)
Definition ipushNonterm (state : Z) (p : inlineItemParser) : inlineItemParser :=
  set_istack (push (newEntry (state =? _S1)%Z) (istack p)) p.

Definition appendStringValue (isAccept : bool) (p : inlineItemParser)
  : res inlineItemParser :=
  let* value := goSlice (IText p) (Marker p) (TextPosition p) in
  let* t := tos (istack p) in
  match Key t with
  | Some k =>
      let* s := pushKV (Some k) (VStr (TrimSpace value)) (istack p) in
      Ret (set_istack s p)
  | None =>
      if negb isAccept || (0 <? String.length value) || (0 <? length (Values t)) then
        let* s := pushKV None (VStr (TrimSpace value)) (istack p) in
        Ret (set_istack s p)
      else Ret p
  end.

(** [inlineStateMachineActions[to]](p, from, to, ch, w) *)
Definition inlineAction (p : inlineItemParser) (from to : Z) (ch : ascii) (w : nat)
  : res (bool * inlineItemParser) :=
  let tp := TextPosition p in
  match to with
  | 1%Z => Ret (true, set_Marker (tp + w) p)
  | 3%Z =>
      if negb (from =? 3)%Z then
        let* key := goSlice (IText p) (Marker p) tp in
        let* s := updTos (set_Key (Some (TrimSpace key))) (istack p) in
        Ret (true, set_Marker (tp + w) (set_istack s p))
      else Ret (true, p)
  | 6%Z =>
      if negb (from =? 6)%Z then
        let* p1 := if (0 <? Marker p) && negb (isGhost from)
                   then appendStringValue false p else Ret p in
        let* s := updTos (set_Key None) (istack p1) in
        Ret (true, set_Marker (tp + w) (set_istack s p1))
      else Ret (true, p)
  | 7%Z =>
      let* p1 := if Ascii.eqb ch ","%char && (0 <? Marker p) && negb (isGhost from)
                 then appendStringValue false p else Ret p in
      Ret (true, set_Marker (tp + w) p1)
  | 11%Z | 12%Z =>
      if (from =? 3)%Z || (from =? 8)%Z then Ret (true, set_Marker 0 p) else Ret (true, p)
  | 13%Z | 14%Z =>
      let* p1 := if (0 <? Marker p) && negb (isGhost from)
                 then appendStringValue true p else Ret p in
      Ret (true, p1)
  | 0%Z | 2%Z | 4%Z | 5%Z | 8%Z | 9%Z | 10%Z => Ret (true, p)
  | _ => indexPanic
  end.

(** The code after the loop of [parse]: the error of an error state. *)
Definition inlineFinish (state : Z) (result : value) (p : inlineItemParser)
  : res (value * option goerr * inlineItemParser) :=
  if isErrorState state then
    match istack p with
    | [] => indexPanic
    | t :: _ =>
        match EntryError t with
        | Some err => Ret (result, Some err, p)
        | None =>
            let k := mkToken (ILineNo p) (TextPosition p) undefined 0 [] None in
            Ret (result, Some (makeParsingError k ErrCodeFormat "format error"), p)
        end
    end
  else Ret (result, None, p).

(** The loop [for len(p.stack) > 0] of [parse]; it consumes one
    character of [IInput] per round, read as [ReadRune] reads a rune
    below 128 (width [w = 1]; see [readRune]). *)
Fixpoint inlineLoop (inp : string) (p : inlineItemParser) (state : Z) (result : value)
  : res (value * option goerr * inlineItemParser) :=
  match istack p with
  | [] => inlineFinish state result p
  | _ :: _ =>
      match inp with
      | EmptyString =>
          Ret (VNil, Some (MakeNestedTextError ErrCodeIO "I/O-error reading inline item"),
               set_IInput EmptyString p)
      | String ch rest =>
          let p0 := set_IInput rest p in
          let w := 1 in
          let chType := inlineTokenFor ch in
          let oldState := state in
          let* st1 := tableAt state chType in
          if isErrorState st1 then inlineFinish st1 result p0
          else
            let* '(p1, st2) :=
              if isNonterm st1 then
                let pn := ipushNonterm st1 p0 in
                let* st2 := tableAt st1 chType in
                let* ns := tableAt oldState (_S st1) in
                let* s := updTos (set_NontermState ns) (istack pn) in
                Ret (set_istack s pn, st2)
              else Ret (p0, st1) in
            let* '(ok, p2) := inlineAction p1 oldState st2 ch w in
            if negb ok then inlineFinish e result p2
            else if isAccept st2 then
              let* t := tos (istack p2) in
              let p3 := log_reduce t p2 in
              let* r := ReduceToItem t in
              let st3 := NontermState t in
              let s := pop (istack p3) in
              let* s' := match s with
                         | [] => Ret s
                         | t' :: _ => pushKV (Key t') r s
                         end in
              let p4 := set_istack s' p3 in
              inlineLoop rest (set_TextPosition (TextPosition p4 + w) p4) st3 r
            else inlineLoop rest (set_TextPosition (TextPosition p2 + w) p2) st2 result
      end
  end.

(** [inlineItemParser.parse]: result, error, and the ghost log. *)
Definition inline_parse (initial : Z) (input : string) (lineNo : nat)
  : res (value * option goerr * list parserStackEntry) :=
  let p := ipushNonterm initial (mkInline input 0 0 input lineNo [] []) in
  let* '(r, err, p') := inlineLoop input p initial VNil in
  Ret (r, err, ireduced p').

(* ------------------------------------------------------------------------ *)
(** ** The recursive-descent parser (parse.go)

    The fields of [nestedTextParser] that the grammar functions mutate
    are threaded as a state; [toplevel] is only read by [wrapResult] and
    [p.inline] is re-initialised by every [parse] call, so neither is
    part of it.  [reduced] is a ghost log of every stack entry handed to
    [ReduceToItem] (by either parser), most recent first. *)
Record pstate : Type := mkPState {
  sc : scanner;
  token : parserToken;
  stack : pstack;
  reduced : list parserStackEntry
}.

Definition PM (A : Type) : Type := pstate -> res (A * pstate).

Definition pret {A : Type} (a : A) : PM A := fun s => Ret (a, s).
Definition pbind {A B : Type} (m : PM A) (k : A -> PM B) : PM B :=
  fun s => match m s with Ret (a, s') => k a s' | Abort x => Abort x end.
Definition pabort {A : Type} (x : abort) : PM A := fun _ => Abort x.
Definition plift {A : Type} (r : res A) : PM A :=
  fun s => match r with Ret a => Ret (a, s) | Abort x => Abort x end.

Notation "x <- m ;; k" := (pbind m (fun x => k))
  (at level 61, m at next level, right associativity).
Notation "' p <- m ;; k" := (pbind m (fun x => match x with p => k end))
  (at level 61, p pattern, m at next level, right associativity).

Definition getToken : PM parserToken := fun s => Ret (token s, s).

(** [p.token = p.sc.NextToken()], returning the new token. *)
Definition nextToken : PM parserToken := fun s =>
  match NextToken (sc s) with
  | Ret (k, sc') => Ret (k, mkPState sc' k (stack s) (reduced s))
  | Abort x => Abort x
  end.

Definition modifyStack (f : pstack -> res pstack) : PM unit := fun s =>
  match f (stack s) with
  | Ret st => Ret (tt, mkPState (sc s) (token s) st (reduced s))
  | Abort x => Abort x
  end.

Definition logReduced (ts : list parserStackEntry) : PM unit := fun s =>
  Ret (tt, mkPState (sc s) (token s) (stack s) (ts ++ reduced s)).

(** [nestedTextParser.pushNonterm] *)
Definition pushNonterm (isDict : bool) : PM unit :=
  modifyStack (fun st => Ret (push (newEntry isDict) st)).

Definition stackPushKV (str : option string) (v : value) : PM unit :=
  modifyStack (pushKV str v).

(** [p.stack.tos().ReduceToItem()] *)
Definition reduceTos : PM value := fun s =>
  match tos (stack s) with
  | Abort x => Abort x
  | Ret t =>
      match ReduceToItem t with
      | Ret v => Ret (v, mkPState (sc s) (token s) (stack s) (t :: reduced s))
      | Abort x => Abort x
      end
  end.

Definition popStack : PM unit := modifyStack (fun st => Ret (pop st)).

(** [p.token.Content[i]] *)
Definition contentAt (k : parserToken) (i : nat) : res string :=
  match nth_error (Content k) i with Some c => Ret c | None => indexPanic end.

Definition allowVoid (val : list string) (i : nat) : string :=
  match nth_error val i with Some c => c | None => EmptyString end.

Definition invalidIndentMsg : string :=
  "invalid indent: may only follow an item that does not already have a value".

Definition parseListItem (indent : nat) : PM (value * option goerr) :=
  k <- getToken ;;
  if indent <? Indent k then
    pret (VNil, Some (MakeNestedTextError ErrCodeFormat invalidIndentMsg))
  else if Indent k <? indent then pret (VNil, None)
  else
    v <- plift (contentAt k 0) ;;
    k' <- nextToken ;;
    match Error k' with
    | Some err => pret (VNil, Some err)
    | None => pret (VStr v, None)
    end.

(** [keyValuePair]: a nil key pointer is [None], a nil value [VNil]. *)
Definition keyValuePair : Type := option string * value.

Definition parseDictKeyValuePair (indent : nat) : PM (keyValuePair * option goerr) :=
  k <- getToken ;;
  if negb (Indent k =? indent) then pret ((None, VNil), None)
  else
    key <- plift (contentAt k 0) ;;
    v <- plift (contentAt k 1) ;;
    k' <- nextToken ;;
    match Error k' with
    | Some err => pret ((None, VNil), Some err)
    | None => pret ((Some key, VStr v), None)
    end.

(** The [for err == nil] loop shared by [parseMultiString] and
    [parseDictKeyValuePairWithMultilineKey]: continuation lines of type
    [typ] at [indent] are appended to [acc] with a newline.  The error of
    a failing token is returned with the text gathered so far. *)
Fixpoint continuationLoop (fuel : nat) (typ : parserTokenType) (indent : nat)
  (acc : string) : PM (string * option goerr) :=
  match fuel with
  | 0 => pabort OutOfFuel
  | S f =>
      k <- nextToken ;;
      match Error k with
      | Some err => pret (acc, Some err)
      | None =>
          if negb (tt_eqb (TokenType k) typ) || negb (Indent k =? indent)
          then pret (acc, None)
          else continuationLoop f typ indent (acc ++ nl ++ allowVoid (Content k) 0)
      end
  end.

Definition parseMultiString (fuel : nat) (indent : nat) : PM (value * option goerr) :=
  k <- getToken ;;
  if negb (Indent k =? indent) then pret (VNil, None)
  else
    '(s, err) <- continuationLoop fuel stringMultiline indent (allowVoid (Content k) 0) ;;
    pret (VStr s, err).

(** [p.inline.parse(initial, p.token.Content[0])] with the inline
    parser's [LineNo] set to the token's line. *)
Definition parseInline (initial : Z) : PM (value * option goerr) :=
  k <- getToken ;;
  c <- plift (contentAt k 0) ;;
  '(r, err, log) <- plift (inline_parse initial c (LineNo k)) ;;
  _ <- logReduced log ;;
  match err with
  | Some _ => pret (r, err)
  | None =>
      k' <- nextToken ;;
      match Error k' with
      | Some err' => pret (VNil, Some err')
      | None => pret (r, None)
      end
  end.

Definition unknownItemMsg (t : parserTokenType) : string :=
  "unknown item type: " ++ string_of_nat (tokenTypeCode t) ++ "/" ++ tokenTypeName t.

Definition isListToken (t : parserTokenType) : bool :=
  tt_eqb t listItem || tt_eqb t listItemMultiline.
Definition isDictToken (t : parserTokenType) : bool :=
  tt_eqb t inlineDictKeyValue || tt_eqb t inlineDictKey || tt_eqb t dictKeyMultiline.

(** The mutually recursive grammar functions; every call spends one unit
    of [fuel], and so does every round of a loop. *)
Fixpoint parseAny (fuel : nat) (indent : nat) : PM (value * option goerr) :=
  match fuel with
  | 0 => pabort OutOfFuel
  | S f =>
      k <- getToken ;;
      if Indent k <? indent then pret (VNil, None)
      else match TokenType k with
      | stringMultiline => parseMultiString f (Indent k)
      | inlineList => parseInline _S2
      | inlineDict => parseInline _S1
      | listItem | listItemMultiline => parseList f indent
      | inlineDictKeyValue | inlineDictKey | dictKeyMultiline => parseDict f indent
      | t => pabort (Panic (unknownItemMsg t))
      end
  end

with parseList (fuel : nat) (indent : nat) : PM (value * option goerr) :=
  match fuel with
  | 0 => pabort OutOfFuel
  | S f =>
      _ <- pushNonterm false ;;
      k <- getToken ;;
      err <- parseListItems f (Indent k) ;;
      match err with
      | Some _ => pret (VNil, err)
      | None =>
          r <- reduceTos ;;
          _ <- popStack ;;
          pret (r, None)
      end
  end

(** The loop of [parseListItems]; only its error is used by the caller. *)
with parseListItems (fuel : nat) (indent : nat) : PM (option goerr) :=
  match fuel with
  | 0 => pabort OutOfFuel
  | S f =>
      k <- getToken ;;
      if negb (isListToken (TokenType k)) then pret None
      else
        '(v, err) <- (if tt_eqb (TokenType k) listItem then parseListItem indent
                      else parseListItemMultiline f indent) ;;
        match err with
        | Some _ => pret err
        | None =>
            if isNil v then pret None
            else _ <- stackPushKV None v ;; parseListItems f indent
        end
  end

with parseListItemMultiline (fuel : nat) (indent : nat) : PM (value * option goerr) :=
  match fuel with
  | 0 => pabort OutOfFuel
  | S f =>
      k <- getToken ;;
      if negb (Indent k =? indent) then pret (VNil, None)
      else
        k1 <- nextToken ;;
        match Error k1 with
        | Some err => pret (VNil, Some err)
        | None =>
            if Indent k1 <=? indent then pret (VStr EmptyString, None)
            else
              '(r, err) <- parseAny f (Indent k1) ;;
              k2 <- getToken ;;
              if indent <? Indent k2
              then pret (VNil, Some (MakeNestedTextError ErrCodeFormat invalidIndentMsg))
              else pret (r, err)
        end
  end

with parseDict (fuel : nat) (indent : nat) : PM (value * option goerr) :=
  match fuel with
  | 0 => pabort OutOfFuel
  | S f =>
      _ <- pushNonterm true ;;
      k <- getToken ;;
      err <- parseDictKeyValuePairs f (Indent k) ;;
      match err with
      | Some _ => pret (VNil, err)
      | None =>
          r <- reduceTos ;;
          _ <- popStack ;;
          k' <- getToken ;;
          if indent <? Indent k'
          then pret (r, Some (MakeNestedTextError ErrCodeFormat "partial dedent"))
          else pret (r, None)
      end
  end

(** The loop of [parseDictKeyValuePairs]; only its error is used. *)
with parseDictKeyValuePairs (fuel : nat) (indent : nat) : PM (option goerr) :=
  match fuel with
  | 0 => pabort OutOfFuel
  | S f =>
      k <- getToken ;;
      if negb (isDictToken (TokenType k)) then pret None
      else
        '((key, v), err) <-
          (match TokenType k with
           | inlineDictKeyValue => parseDictKeyValuePair indent
           | inlineDictKey => parseDictKeyAnyValuePair f indent
           | _ => parseDictKeyValuePairWithMultilineKey f indent
           end) ;;
        if isNil v then pret err
        else match err with
             | Some _ => pret err
             | None => _ <- stackPushKV key v ;; parseDictKeyValuePairs f indent
             end
  end

with parseDictKeyAnyValuePair (fuel : nat) (indent : nat)
  : PM (keyValuePair * option goerr) :=
  match fuel with
  | 0 => pabort OutOfFuel
  | S f =>
      k <- getToken ;;
      if negb (Indent k =? indent) then pret ((None, VNil), None)
      else
        key <- plift (contentAt k 0) ;;
        k1 <- nextToken ;;
        match Error k1 with
        | Some err => pret ((Some key, VNil), Some err)
        | None =>
            if Indent k1 <=? indent then pret ((Some key, VStr EmptyString), None)
            else
              '(v, err) <- parseAny f (Indent k1) ;;
              pret ((Some key, v), err)
        end
  end

with parseDictKeyValuePairWithMultilineKey (fuel : nat) (indent : nat)
  : PM (keyValuePair * option goerr) :=
  match fuel with
  | 0 => pabort OutOfFuel
  | S f =>
      k <- getToken ;;
      if negb (Indent k =? indent) then pret ((None, VNil), None)
      else
        '(key, err) <- continuationLoop f dictKeyMultiline indent (allowVoid (Content k) 0) ;;
        match err with
        | Some _ => pret ((None, VNil), err)
        | None =>
            k1 <- getToken ;;
            if Indent k1 <=? indent then pret ((Some key, VStr EmptyString), None)
            else
              '(v, err') <- parseAny f (Indent k1) ;;
              pret ((Some key, v), err')
        end
  end.

Definition unusedContentMsg : string := "unused content following valid input".

Definition parseDocument (fuel : nat) : PM (value * option goerr) :=
  k <- nextToken ;;
  match Error k with
  | Some err => pret (VNil, Some err)
  | None =>
      if tt_eqb (TokenType k) eof || tt_eqb (TokenType k) emptyDocument
      then pret (VNil, None)
      else
        k1 <- nextToken ;;
        match Error k1 with
        | Some err => pret (VNil, Some err)
        | None =>
            '(r, err) <- parseAny fuel 0 ;;
            k2 <- getToken ;;
            match err with
            | None =>
                if negb (tt_eqb (TokenType k2) eof)
                then pret (r, Some (makeParsingError k2 ErrCodeFormat unusedContentMsg))
                else pret (r, None)
            | Some _ => pret (r, err)
            end
        end
  end.

(* ------------------------------------------------------------------------ *)
(** ** Options and the entry point [Parse] *)

Inductive Option : Type :=
  | TopLevel (top : string)
  | KeepLegacyBidi (keep : bool).

Definition topLevelUsageMsg : string :=
  "option TopLevel( " ++ dq ++ "list" ++ dq ++ " | " ++ dq ++ "dict" ++ dq
  ++ "(" ++ dq ++ ".<suffix>" ++ dq ++ ")? )".

(** Applying an option to the parser's [toplevel] field. *)
Definition applyOption (opt : Option) (toplevel : string) : string * option goerr :=
  match opt with
  | TopLevel top =>
      if String.eqb top "dict" then ("dict"%string, None)
      else if String.eqb top "list" then ("list"%string, None)
      else if String.prefix "dict." top
      then (substring 5 (String.length top - 5) top, None)
      else (toplevel, Some (MakeNestedTextError ErrCodeUsage topLevelUsageMsg))
  | KeepLegacyBidi _ => (toplevel, None)
  end.

(** The [for _, opt := range opts] loop of [Parse]. *)
Fixpoint applyOptions (opts : list Option) (toplevel : string) : string * option goerr :=
  match opts with
  | [] => (toplevel, None)
  | o :: rest =>
      let (t, err) := applyOption o toplevel in
      match err with
      | Some _ => (t, err)
      | None => applyOptions rest t
      end
  end.

Definition isSlice (v : value) : bool := match v with VList _ => true | _ => false end.
Definition isMap (v : value) : bool := match v with VDict _ => true | _ => false end.

Definition wrapResult (toplevel : string) (result : value) : value :=
  if String.eqb toplevel "" then result
  else if String.eqb toplevel "list" then
    (if isSlice result then result else VList [result])
  else if String.eqb toplevel "dict" then
    (if isMap result then result else VDict [("nestedtext"%string, result)])
  else VDict [(toplevel, result)].

Definition initState (s : scanner) : pstate :=
  mkPState s (newToken 0 0) [] [].

(** [nestedTextParser.Parse] after the options: result, error and the
    ghost log of reduced stack entries. *)
Definition parserParse (fuel : nat) (toplevel : string) (r : option string)
  : res (value * option goerr * list parserStackEntry) :=
  match newScanner r with
  | (_, Some err) => Ret (VNil, Some err, [])
  | (None, None) => nilDeref
  | (Some s, None) =>
      match parseDocument fuel (initState s) with
      | Abort x => Abort x
      | Ret ((v, err), st) =>
          match err with
          | None => Ret (wrapResult toplevel v, None, reduced st)
          | Some _ => Ret (v, err, reduced st)
          end
      end
  end.

(** [Parse(r, opts...)] with the ghost log. *)
Definition ParseRun (fuel : nat) (opts : list Option) (r : option string)
  : res (value * option goerr * list parserStackEntry) :=
  let (toplevel, err) := applyOptions opts EmptyString in
  match err with
  | Some _ => Ret (VNil, err, [])
  | None => parserParse fuel toplevel r
  end.

(** [Parse(r, opts...)]: the decoded value and the error. *)
Definition Parse (fuel : nat) (opts : list Option) (r : option string)
  : res (value * option goerr) :=
  let* '(v, err, _) := ParseRun fuel opts r in Ret (v, err).

(* ======================================================================== *)
(** * Properties *)

(** ** Decoding examples *)

Definition C1_doc : string := "a: Hello" ++ nl ++ "b: World" ++ nl.
Definition C7_doc : string := ("> hi" ++ nl)%string.
Definition C8_doc : string := ("- a" ++ nl ++ "> b" ++ nl)%string.
Definition C4_doc : string := ("->text" ++ nl)%string.

(** The states of [parseDocument] on [C8_doc]: after its two token
    reads and after the top-level [parseAny]. *)
Definition C8_s0 : pstate :=
  match newScanner (Some C8_doc) with
  | (Some s, _) => initState s
  | (None, _) => initState (mkScanner (newLineBuffer EmptyString) None None)
  end.
Definition stepToken (s : pstate) : parserToken * pstate :=
  match nextToken s with Ret x => x | Abort _ => (token s, s) end.
Definition C8_s1 : pstate := snd (stepToken C8_s0).
Definition C8_s2 : pstate := snd (stepToken C8_s1).
Definition C8_top : (value * option goerr) * pstate :=
  match parseAny 10 0 C8_s2 with Ret x => x | Abort _ => ((VNil, None), C8_s2) end.

Definition C5_doc : string := "- Hello" ++ nl ++ "-" ++ nl ++ "  > World" ++ nl ++ "  > !" ++ nl.



(** ** Scanner positions and lines with an illegal item tag *)

(** The line buffer holds line [l] of the document, [R] are the lines
    still unread, and no error or end of input has been met. *)
Definition lineState (b : lineBuffer) (l : string) (R : list string) : Prop :=
  Line b = l /\ Text b = l /\ Input b = R /\ isEof b = 0 /\ LastError b = None.

(** As [lineState], with the lookahead at byte [i] of the line. *)
Definition at_pos (b : lineBuffer) (l : string) (R : list string) (i : nat) : Prop :=
  lineState b l R /\ ByteCursor b = S i /\ String.get i l = Some (Lookahead b).

(** The buffer is at the first byte of a line that is not ignored. *)
Definition lineStart (b : lineBuffer) (l : string) (R : list string) : Prop :=
  at_pos b l R 0 /\ IsIgnoredLine l = false.

Fixpoint spaces (n : nat) : string :=
  match n with 0 => EmptyString | S m => String space (spaces m) end.

(** The three item tags of the line grammar. *)
Definition isTagChar (c : ascii) : bool :=
  Ascii.eqb c "-"%char || Ascii.eqb c ">"%char || Ascii.eqb c ":"%char.


(** [b'] is what [AdvanceLine] yields from a buffer whose unread lines are [R]. *)
Definition advancedFrom (b' : lineBuffer) (R : list string) : Prop :=
  exists b0, isEof b0 = 0 /\ Input b0 = R /\ LastError b0 = None /\
    (b' = fst (AdvanceLine b0) \/ b' = set_LastError (snd (AdvanceLine b0)) (fst (AdvanceLine b0))).

(** The current token of the parser is not [eof]: the scanner never
    emits one ([NextToken_not_eof]). *)
Definition Inv (s : pstate) : Prop := TokenType (token s) <> eof.

(** [m] leaves the scanner and the current token alone. *)
Definition Frame {A : Type} (m : PM A) : Prop :=
  forall s x s1, m s = Ret (x, s1) -> sc s1 = sc s /\ token s1 = token s.

(** A successful run of [m] without an error keeps [Inv]. *)
Definition Keeps {A : Type} (err : A -> option goerr) (m : PM A) : Prop :=
  forall s a s', Inv s -> m s = Ret (a, s') -> err a = None -> Inv s'.

Definition errId (e : option goerr) : option goerr := e.


(** A scanner at the first line of [C4_doc], ready to scan an item. *)
Definition C4_sc : scanner := mkScanner (newLineBuffer C4_doc) None None.

(** ** Consistency of reduced stack entries

    [frame_ok t]: an entry that carries a key list has as many keys as
    values, the condition under which [ReduceToItem] does not panic. *)
Definition frame_ok (t : parserStackEntry) : Prop :=
  match Keys t with None => True | Some ks => length ks = length (Values t) end.

(** An abort other than the mixed-item panic of [ReduceToItem]. *)
Definition notMixed (x : abort) : Prop := forall nk nv, x <> Panic (mixedItemMsg nk nv).

(** [P] holds of a result, and an abort is not the mixed-item panic. *)
Definition resOK {A : Type} (P : A -> Prop) (r : res A) : Prop :=
  match r with Ret a => P a | Abort x => notMixed x end.

(** The links between consecutive entries of the inline parser's stack:
    an entry opened inside a dictionary value (return state 5) sits on a
    dictionary entry with a pending key, one opened inside a list (return
    state 10) sits on a list entry. *)
Fixpoint chain (s : pstack) : Prop :=
  match s with
  | c :: ((p :: _) as r) =>
      ((NontermState c = 5%Z /\ Keys p <> None /\ Key p <> None) \/
       (NontermState c = 10%Z /\ Keys p = None)) /\ chain r
  | _ => True
  end.

(** What the inline automaton's state says about the top entry. *)
Definition topInv (state : Z) (t : parserStackEntry) (m tp : nat) : Prop :=
  ((state = 11%Z \/ state = 1%Z /\ m = tp) /\ Keys t <> None /\ Values t = [] /\ Key t = None) \/
  ((state = 2%Z \/ state = 6%Z) /\ Keys t <> None) \/
  ((state = 3%Z \/ state = 4%Z \/ state = 5%Z) /\ Keys t <> None /\ Key t <> None) \/
  ((state = 12%Z \/ state = 7%Z \/ state = 8%Z \/ state = 9%Z \/ state = 10%Z) /\ Keys t = None).

(** The invariant of the inline parser's loop. *)
Definition IInv (p : inlineItemParser) (state : Z) : Prop :=
  Forall frame_ok (istack p) /\ Forall frame_ok (ireduced p) /\
  match istack p with
  | [] => True
  | t :: _ => topInv state t (Marker p) (TextPosition p) /\ chain (istack p)
  end.

(** The top entry after [pushKV]. *)
Definition pushedEntry (str : option string) (v : value) (t : parserStackEntry) : parserStackEntry :=
  let t1 := set_Values (Values t ++ [v]) t in
  match str, Keys t with
  | Some k, Some ks => set_Keys (Some (ks ++ [k])) t1
  | _, _ => t1
  end.

(** Two entries of the same kind, with the same pending key and return
    state. *)
Definition sameShape (t t' : parserStackEntry) : Prop :=
  (Keys t' = None <-> Keys t = None) /\ Key t' = Key t /\ NontermState t' = NontermState t.

(** [P] holds of a result of the line parser's monad, and an abort is not
    the mixed-item panic. *)
Definition pOK {A : Type} (P : A -> pstate -> Prop) (r : res (A * pstate)) : Prop :=
  match r with Ret (a, s1) => P a s1 | Abort x => notMixed x end.

(** Every entry on the line parser's stack and in its log is consistent. *)
Definition Good (s : pstate) : Prop :=
  Forall frame_ok (stack s) /\ Forall frame_ok (reduced s).

(** The outcomes of the value, key-value and loop functions of the line
    parser: the state stays consistent and, without error, the stack is
    back to where it was (for a loop: the entry it fills keeps its kind). *)
Definition VS (s : pstate) (ve : value * option goerr) (s1 : pstate) : Prop :=
  Good s1 /\ (snd ve = None -> stack s1 = stack s).

Definition PS (s : pstate) (kve : keyValuePair * option goerr) (s1 : pstate) : Prop :=
  Good s1 /\ (snd kve = None -> stack s1 = stack s)
  /\ (isNil (snd (fst kve)) = false -> fst (fst kve) <> None).

Definition LS (b : bool) (r : pstack) (err : option goerr) (s1 : pstate) : Prop :=
  Good s1 /\ (err = None -> exists t', stack s1 = t' :: r /\ (Keys t' = None <-> b = false)).


(* ------------------------------------------------------------------------ *)
(** ** Further properties: auxiliary definitions and example inputs *)

(* Options *)

(** [TopLevel top] is accepted by its option function. *)
Definition validTopLevel (top : string) : bool :=
  String.eqb top "dict" || String.eqb top "list" || String.prefix "dict." top.

(** The argument of the last [TopLevel] option of a list. *)
Fixpoint lastTopLevel (opts : list Option) : option string :=
  match opts with
  | [] => None
  | TopLevel t :: rest =>
      match lastTopLevel rest with Some t' => Some t' | None => Some t end
  | KeepLegacyBidi _ :: rest => lastTopLevel rest
  end.

(* Top-level wrapping (example documents) *)

Definition err_doc : string := ("  - a" ++ nl)%string.

(* Dictionaries built by [ReduceToItem] *)

(** Reading [m[k]] from a Go map held as an association list. *)
Definition dict_lookup (k : string) (d : list (string * value)) : option value :=
  option_map snd (find (fun p => String.eqb k (fst p)) d).

(** The value paired with the last occurrence of [k] in the parallel
    lists [ks] and [vs]. *)
Fixpoint lastValueFor (k : string) (ks : list string) (vs : list value) : option value :=
  match ks, vs with
  | k' :: ks', v :: vs' =>
      match lastValueFor k ks' vs' with
      | Some x => Some x
      | None => if String.eqb k k' then Some v else None
      end
  | _, _ => None
  end.

Definition reduce_entry : parserStackEntry :=
  mkEntry [VStr "1"; VStr "2"; VStr "3"] (Some ["a"; "b"; "a"]%string) None None 0%Z.

(* Documents as terminated lines *)

(** The three line terminators [newLineBuffer] splits at. *)
Inductive lineEnd : Type := EndLF | EndCRLF | EndCR.

Definition endStr (t : lineEnd) : string :=
  match t with
  | EndLF => str1 eolMarker
  | EndCRLF => (str1 CR ++ str1 eolMarker)%string
  | EndCR => str1 CR
  end.

(** A document made of terminated lines. *)
Fixpoint joinLines (ls : list (string * lineEnd)) : string :=
  match ls with
  | [] => EmptyString
  | (l, t) :: r => (l ++ endStr t ++ joinLines r)%string
  end.

(** The line contains no line-break character. *)
Definition noBreak (l : string) : bool :=
  forallb (fun c => negb (Ascii.eqb c eolMarker || Ascii.eqb c CR)) (list_ascii_of_string l).

(** No CR-terminated line is followed by an empty LF-terminated line
    (the two would read as one CR LF). *)
Fixpoint crSafe (ls : list (string * lineEnd)) : bool :=
  match ls with
  | [] => true
  | (_, EndCR) :: (((l', EndLF) :: _) as r) => negb (String.eqb l' EmptyString) && crSafe r
  | _ :: r => crSafe r
  end.

(** What [splitLines] of the remainder gives at a line start. *)
Definition expectedLines (ls : list (string * lineEnd)) (last : string) : list string :=
  map fst ls ++ (if String.eqb last EmptyString then [] else [last]).

(* Ignored-only documents (example) *)

Definition empty_doc : string := ("# comment" ++ nl ++ "   " ++ nl)%string.

(* Item lines *)

(** The token types [ScanItemBody] assigns to an item tag, as single-line
    and as multi-line item. *)
Definition itemTagTypes (c : ascii) : option (parserTokenType * parserTokenType) :=
  if Ascii.eqb c "-"%char then Some (listItem, listItemMultiline)
  else if Ascii.eqb c ">"%char then Some (stringMultiline, stringMultiline)
  else if Ascii.eqb c ":"%char then Some (dictKeyMultiline, dictKeyMultiline)
  else None.

Definition item_sc : scanner :=
  mkScanner (newLineBuffer ("  - " ++ nl ++ "> b" ++ nl)%string) None None.

Definition tag_sc : scanner :=
  mkScanner (newLineBuffer (" :" ++ nl ++ "  > b" ++ nl)%string) None None.

(* Inline lines *)

(** The token type [ScanItemBody] assigns to an opening bracket. *)
Definition inlineTagType (c : ascii) : option parserTokenType :=
  if Ascii.eqb c "["%char then Some inlineList
  else if Ascii.eqb c "{"%char then Some inlineDict
  else None.

Definition inlineMismatchMsg : string := "inline-item does not match opening tag".

Definition inline_doc : string := ("# list" ++ nl ++ "[a, b]" ++ nl)%string.

Definition inline_sc : scanner :=
  mkScanner (newLineBuffer (" [a, b" ++ nl ++ "- c" ++ nl)%string) None None.

(* Flat inline lists *)

(** A character that may appear in a flat inline-list item: an ASCII
    character (where [isSpace], [TrimSpace] and [inlineTokenFor] are
    exact) other than the delimiters. *)
Definition plainInlineChar (c : ascii) : bool :=
  (nat_of_ascii c <? 128) && negb (existsb (Ascii.eqb c) [","%char; "["%char; "]"%char; "{"%char; "}"%char; eolMarker]).

Definition plainInlineText (s : string) : bool :=
  forallb plainInlineChar (list_ascii_of_string s).

(** The stack entry of an inline list holding [vals]. *)
Definition listEntry (vals : list value) : parserStackEntry :=
  mkEntry vals None None None 0%Z.

(* Flat inline dicts *)

(** A character that may appear in a key or a value of a flat inline
    dict: an ASCII character other than the delimiters. *)
Definition plainDictChar (c : ascii) : bool :=
  (nat_of_ascii c <? 128) && negb (existsb (Ascii.eqb c)
          [","%char; ":"%char; "["%char; "]"%char; "{"%char; "}"%char; eolMarker]).

Definition plainDictText (s : string) : bool :=
  forallb plainDictChar (list_ascii_of_string s).

(** The stack entry of an inline dict. *)
Definition dictEntry (vals : list value) (ks : list string) (key : option string)
  : parserStackEntry :=
  mkEntry vals (Some ks) key None 0%Z.

(** The text of one pair "k:v". *)
Definition pairText (kv : string * string) : string := (fst kv ++ ":" ++ snd kv)%string.


(** ** Proof infrastructure *)

(** [refines m1 m2]: every outcome of [m1] other than running out of fuel
    is an outcome of [m2] too. *)
Definition refines {A : Type} (m1 m2 : PM A) : Prop :=
  forall s x, m1 s = x -> x <> Abort OutOfFuel -> m2 s = x.

Lemma refines_refl {A : Type} (m : PM A) : refines m m.
Proof. intros s x H _; exact H. Qed.

Lemma refines_bind {A B : Type} (m1 m2 : PM A) (k1 k2 : A -> PM B) :
  refines m1 m2 -> (forall a, refines (k1 a) (k2 a)) ->
  refines (pbind m1 k1) (pbind m2 k2).
Proof.
  intros Hm Hk s x. unfold pbind.
  destruct (m1 s) as [[a s']|ab] eqn:E; intros H Hx.
  - rewrite (Hm _ _ E ltac:(discriminate)). exact (Hk a s' x H Hx).
  - subst x. rewrite (Hm _ _ E); [reflexivity|].
    intro Hab. injection Hab as ->. exact (Hx eq_refl).
Qed.

Lemma refines_abort {A : Type} (m : PM A) : refines (pabort OutOfFuel) m.
Proof. intros s y H Hy. subst y. exfalso. exact (Hy eq_refl). Qed.

Ltac mono_step :=
  match goal with
  | |- refines ?m ?m => apply refines_refl
  | |- refines (pabort OutOfFuel) _ => apply refines_abort
  | |- refines (pbind _ _) (pbind _ _) => apply refines_bind; [ | intros ?]
  | |- refines (match ?x with _ => _ end) _ => destruct x
  | |- refines (if ?x then _ else _) _ => destruct x
  | H : forall (i : nat), refines (?F _ i) (?F _ i) |- refines (?F _ _) (?F _ _) => apply H
  end.

Lemma continuationLoop_mono f f' typ indent acc :
  f <= f' -> refines (continuationLoop f typ indent acc) (continuationLoop f' typ indent acc).
Proof.
  revert f' acc. induction f as [|f IH]; intros f' acc Hle; [apply refines_abort|].
  destruct f' as [|f']; [lia|]. cbn [continuationLoop].
  apply refines_bind; [apply refines_refl|intros k].
  destruct (Error k); [apply refines_refl|].
  destruct (_ || _); [apply refines_refl|]. apply IH; lia.
Qed.

Lemma parseMultiString_mono f f' indent :
  f <= f' -> refines (parseMultiString f indent) (parseMultiString f' indent).
Proof.
  intros Hle. unfold parseMultiString.
  apply refines_bind; [apply refines_refl|intros k].
  destruct (negb _); [apply refines_refl|].
  apply refines_bind; [apply continuationLoop_mono; exact Hle|intros; apply refines_refl].
Qed.

Lemma parser_fuel_mono : forall f f', f <= f' ->
  (forall i, refines (parseAny f i) (parseAny f' i)) /\
  (forall i, refines (parseList f i) (parseList f' i)) /\
  (forall i, refines (parseListItems f i) (parseListItems f' i)) /\
  (forall i, refines (parseListItemMultiline f i) (parseListItemMultiline f' i)) /\
  (forall i, refines (parseDict f i) (parseDict f' i)) /\
  (forall i, refines (parseDictKeyValuePairs f i) (parseDictKeyValuePairs f' i)) /\
  (forall i, refines (parseDictKeyAnyValuePair f i) (parseDictKeyAnyValuePair f' i)) /\
  (forall i, refines (parseDictKeyValuePairWithMultilineKey f i)
                     (parseDictKeyValuePairWithMultilineKey f' i)).
Proof.
  induction f as [|f IH]; intros f' Hle.
  { repeat split; intros; apply refines_abort. }
  destruct f' as [|f']; [lia|].
  destruct (IH f' ltac:(lia)) as (HA & HL & HLI & HLM & HD & HDP & HDA & HDM).
  repeat split; intro i;
    cbn [parseAny parseList parseListItems parseListItemMultiline parseDict
         parseDictKeyValuePairs parseDictKeyAnyValuePair
         parseDictKeyValuePairWithMultilineKey];
    repeat (first [ mono_step
                  | apply parseMultiString_mono; lia
                  | apply continuationLoop_mono; lia ]).
Qed.

Lemma parseDocument_mono f f' :
  f <= f' -> refines (parseDocument f) (parseDocument f').
Proof.
  intros Hle. destruct (parser_fuel_mono f f' Hle) as (HA & _).
  unfold parseDocument. repeat mono_step.
Qed.

Lemma Parse_mono f f' opts r x :
  f <= f' -> Parse f opts r = x -> x <> Abort OutOfFuel -> Parse f' opts r = x.
Proof.
  intros Hle. unfold Parse, ParseRun.
  destruct (applyOptions opts EmptyString) as [t [err|]]; [tauto|].
  unfold parserParse. destruct (newScanner r) as [[s|] [err|]]; try tauto.
  destruct (parseDocument f (initState s)) as [[[v err] st]|ab] eqn:E; intros H Hx.
  - rewrite (parseDocument_mono f f' Hle _ _ E ltac:(discriminate)). exact H.
  - subst x. rewrite (parseDocument_mono f f' Hle _ _ E); [reflexivity|].
    intro Hab. injection Hab as ->. exact (Hx eq_refl).
Qed.

(** ** Claims *)

(** C1 (the code differs): for the input [a: Hello\nb: World\n] and no
    options, [Parse] does not return a dictionary: it panics with
    "unknown item type: 0/undefined", for every fuel from 5 on.  The
    line "a: Hello" is not an item tag or an inline item, so
    [ScanItemBody] passes it to [ScanInlineKey], a stub that leaves the
    token of type [undefined]; [parseAny] panics on that type. *)
Theorem C1_simple_dict_panics : forall fuel, 5 <= fuel ->
  Parse fuel [] (Some C1_doc) = Abort (Panic (unknownItemMsg undefined)).
Proof.
  intros fuel Hf.
  apply (Parse_mono 5 fuel); [exact Hf | vm_compute; reflexivity | discriminate].
Qed.

Lemma C1_simple_dict_panics_witness : 5 <= 7 /\
  Parse 7 [] (Some C1_doc) = Abort (Panic (unknownItemMsg undefined)).
Proof. split; [lia | apply (C1_simple_dict_panics 7); lia]. Defined.

(** C2: the inline automaton started on [[]] gives the empty list, on
    [{}] the empty dict, on [[ ]] the list holding one empty string and
    on [[,]] the list of two empty strings, all without error (on any
    line number). *)
Theorem C2_inline_empty_rules : forall lineNo,
  (exists log, inline_parse _S2 "[]" lineNo = Ret (VList [], None, log)) /\
  (exists log, inline_parse _S1 "{}" lineNo = Ret (VDict [], None, log)) /\
  (exists log, inline_parse _S2 "[ ]" lineNo = Ret (VList [VStr ""], None, log)) /\
  (exists log, inline_parse _S2 "[,]" lineNo = Ret (VList [VStr ""; VStr ""], None, log)).
Proof.
  intros lineNo. repeat split; eexists; vm_compute; reflexivity.
Qed.

(** C5 (the code differs): for [- Hello\n-\n  > World\n  > !\n],
    [Parse] returns the list [["Hello"; "World\n!"]] but not with a nil
    error: with the format error "unused content following valid input"
    at line 5, column 0, for every fuel from 8 on.  The scanner has no
    rule that yields an [eof] token at the end of the input, so the
    token after the list is not [eof] and [parseDocument] reports it. *)
Theorem C5_nested_multiline_trailing_error : forall fuel, 8 <= fuel ->
  Parse fuel [] (Some C5_doc)
  = Ret (VList [VStr "Hello"; VStr ("World" ++ nl ++ "!")],
         Some (NTErr (mkNTError ErrCodeFormat 5 0 unusedContentMsg))).
Proof.
  intros fuel Hf.
  apply (Parse_mono 8 fuel); [exact Hf | vm_compute; reflexivity | discriminate].
Qed.

Lemma C5_nested_multiline_trailing_error_witness : 8 <= 8 /\
  Parse 8 [] (Some C5_doc)
  = Ret (VList [VStr "Hello"; VStr ("World" ++ nl ++ "!")],
         Some (NTErr (mkNTError ErrCodeFormat 5 0 unusedContentMsg))).
Proof. split; [lia | apply (C5_nested_multiline_trailing_error 8); lia]. Defined.

Lemma parserParse_wrap fuel t r :
  parserParse fuel t r =
  match parserParse fuel EmptyString r with
  | Ret (v, None, log) => Ret (wrapResult t v, None, log)
  | x => x
  end.
Proof.
  unfold parserParse. destruct (newScanner r) as [[s|] [err|]]; try reflexivity.
  destruct (parseDocument fuel (initState s)) as [[[v [err|]] st]|ab]; reflexivity.
Qed.

(** A counterexample to C10: with a rejected option and a nil reader,
    [Parse] returns the usage error, not the no-input error. *)
Lemma C10_counterexample :
  Parse 3 [TopLevel "dict-config"] None
  = Ret (VNil, Some (MakeNestedTextError ErrCodeUsage topLevelUsageMsg)) /\
  ErrCodeUsage <> ErrCodeFormatNoInput.
Proof. split; [vm_compute; reflexivity | discriminate]. Qed.

(** C10 (amended): with a nil reader, [Parse] never panics.  If all its
    options are accepted it returns a nil result and the error
    [ErrCodeFormatNoInput] "no input present"; if an option is rejected
    it returns a nil result and that option's usage error. *)
Theorem C10_nil_reader : forall fuel opts,
  match applyOptions opts EmptyString with
  | (_, None) =>
      Parse fuel opts None
      = Ret (VNil, Some (MakeNestedTextError ErrCodeFormatNoInput "no input present"))
  | (_, Some err) => Parse fuel opts None = Ret (VNil, Some err)
  end.
Proof.
  intros fuel opts. unfold Parse, ParseRun.
  destruct (applyOptions opts EmptyString) as [t [err|]]; reflexivity.
Qed.

(** A counterexample to C8: for [- a\n> b\n] the string item left after
    the top-level list makes [Parse] fail with "unused content following
    valid input", but the decoded list is returned along with the error,
    where the other error returns of [parseDocument] give a nil result. *)
Lemma C8_counterexample :
  Parse 10 [] (Some C8_doc)
  = Ret (VList [VStr "a"], Some (NTErr (mkNTError ErrCodeFormat 2 1 unusedContentMsg))).
Proof. vm_compute. reflexivity. Qed.

Lemma tt_eqb_true a b : tt_eqb a b = true <-> a = b.
Proof.
  split; [|intros ->; destruct b; reflexivity].
  destruct a, b; cbn; intro H; try discriminate H; reflexivity.
Qed.

Lemma tt_eqb_false a b : tt_eqb a b = false <-> a <> b.
Proof.
  rewrite <- tt_eqb_true. destruct (tt_eqb a b); split; congruence.
Qed.

Lemma nextToken_token s k s' : nextToken s = Ret (k, s') -> token s' = k.
Proof.
  unfold nextToken. destruct (NextToken (sc s)) as [[k1 sc']|ab]; intros H;
    [injection H as <- <-; reflexivity | discriminate].
Qed.

(** C8 (amended): (1) a nil error from [parseDocument] means the current
    token is [eof], unless the document had no content at all (first
    token [emptyDocument], nil result); (2) when the top-level
    [parseAny] returns without error and the current token is not
    [eof], [parseDocument] returns the format error "unused content
    following valid input" at that token, together with the decoded
    item; (3) [Parse] hands such an error on with the unwrapped item. *)
Theorem C8_trailing_content :
  (forall fuel s0 r s',
     parseDocument fuel s0 = Ret ((r, None), s') ->
     TokenType (token s') = eof \/ (r = VNil /\ TokenType (token s') = emptyDocument)) /\
  (forall fuel s0 k0 s1 k1 s2 r s3,
     nextToken s0 = Ret (k0, s1) -> Error k0 = None ->
     tt_eqb (TokenType k0) eof || tt_eqb (TokenType k0) emptyDocument = false ->
     nextToken s1 = Ret (k1, s2) -> Error k1 = None ->
     parseAny fuel 0 s2 = Ret ((r, None), s3) ->
     tt_eqb (TokenType (token s3)) eof = false ->
     parseDocument fuel s0
     = Ret ((r, Some (makeParsingError (token s3) ErrCodeFormat unusedContentMsg)), s3)) /\
  (forall fuel opts t doc s r err st,
     applyOptions opts EmptyString = (t, None) ->
     newScanner (Some doc) = (Some s, None) ->
     parseDocument fuel (initState s) = Ret ((r, Some err), st) ->
     Parse fuel opts (Some doc) = Ret (r, Some err)).
Proof.
  split; [|split].
  - intros fuel s0 r s' H. unfold parseDocument, pbind in H.
    destruct (nextToken s0) as [[k0 s1]|ab] eqn:N0; [|discriminate].
    apply nextToken_token in N0.
    destruct (Error k0); [discriminate|].
    destruct (tt_eqb (TokenType k0) eof) eqn:E0; cbn in H.
    { injection H as <- <-. left. rewrite N0. apply tt_eqb_true. exact E0. }
    destruct (tt_eqb (TokenType k0) emptyDocument) eqn:E1; cbn in H.
    { injection H as <- <-. right. split; [reflexivity|]. rewrite N0. apply tt_eqb_true. exact E1. }
    destruct (nextToken s1) as [[k1 s2]|ab] eqn:N1; [|discriminate].
    destruct (Error k1); [discriminate|].
    destruct (parseAny fuel 0 s2) as [[[r' [err|]] s3]|ab]; [discriminate| |discriminate].
    cbn in H. destruct (tt_eqb (TokenType (token s3)) eof) eqn:E2; cbn in H; [|discriminate].
    injection H as <- <-. left. apply tt_eqb_true. exact E2.
  - intros fuel s0 k0 s1 k1 s2 r s3 H0 E0 T0 H1 E1 HA T3.
    unfold parseDocument, pbind. rewrite H0, E0. cbn.
    apply orb_false_elim in T0 as [-> ->]. cbn.
    unfold pbind. rewrite H1, E1. cbn. unfold pbind. rewrite HA. cbn.
    rewrite T3. reflexivity.
  - intros fuel opts t doc s r err st Ho Hs Hd.
    unfold Parse, ParseRun. rewrite Ho. unfold parserParse. rewrite Hs, Hd.
    reflexivity.
Qed.

Lemma C8_trailing_content_witness :
  parseDocument 10 C8_s0
  = Ret ((fst (fst C8_top),
          Some (makeParsingError (token (snd C8_top)) ErrCodeFormat unusedContentMsg)),
         snd C8_top) /\
  Parse 10 [] (Some C8_doc)
  = Ret (fst (fst C8_top),
         Some (makeParsingError (token (snd C8_top)) ErrCodeFormat unusedContentMsg)).
Proof.
  assert (H : parseDocument 10 C8_s0
    = Ret ((fst (fst C8_top),
            Some (makeParsingError (token (snd C8_top)) ErrCodeFormat unusedContentMsg)),
           snd C8_top)).
  { apply (proj1 (proj2 C8_trailing_content) 10 C8_s0 (fst (stepToken C8_s0)) C8_s1
             (fst (stepToken C8_s1)) C8_s2); vm_compute; reflexivity. }
  split; [exact H|].
  apply (proj2 (proj2 C8_trailing_content) 10 [] EmptyString C8_doc
           (match fst (newScanner (Some C8_doc)) with
            | Some s => s | None => mkScanner (newLineBuffer EmptyString) None None end)
           _ _ (snd C8_top)); [reflexivity | reflexivity | exact H].
Defined.

(** Ignored lines before the first content line are skipped by the
    line buffer; only the line counter moves. *)
Lemma advanceLoop_skip : forall ign b rest,
  forallb IsIgnoredLine ign = true ->
  exists b', advanceLoop b (ign ++ rest) = advanceLoop b' rest /\
    Lookahead b' = Lookahead b /\ Cursor b' = Cursor b /\
    ByteCursor b' = ByteCursor b /\ CurrentLine b' = length ign + CurrentLine b /\
    isEof b' = isEof b /\ LastError b' = LastError b /\
    InputErr b' = InputErr b /\ Line b' = Line b /\ LineNil b' = LineNil b.
Proof.
  induction ign as [|l ign IH]; intros b rest H.
  - exists b. repeat split.
  - cbn in H. apply andb_prop in H as [Hl H].
    cbn [app advanceLoop]. rewrite Hl.
    destruct (IH (mkBuf (Lookahead b) (Cursor b) (ByteCursor b) (S (CurrentLine b))
                    (ign ++ rest) (InputErr b) l (Line b) (LineNil b) (isEof b) (LastError b)) rest H)
      as [b' [E [H1 [H2 [H3 [H4 [H5 [H6 [H7 [H8 H9]]]]]]]]]].
    exists b'. rewrite E. cbn in *. repeat split; try assumption. rewrite H4. lia.
Qed.

Lemma newLineBuffer_first_line doc ign l rest :
  forallb IsIgnoredLine ign = true -> IsIgnoredLine l = false ->
  fst (scanInput doc) = ign ++ l :: rest ->
  exists c, String.get 0 l = Some c /\
  newLineBuffer doc = mkBuf c 1 1 (S (length ign)) rest (snd (scanInput doc)) l l false 0 None.
Proof.
  intros Hi Hl Hs. unfold newLineBuffer, AdvanceLine, set_Cursors.
  destruct (scanInput doc) as [inp ierr]. cbn in Hs. subst inp. cbn [snd].
  cbn [isEof Input InputErr Nat.eqb Lookahead Cursor ByteCursor CurrentLine Text Line LineNil LastError].
  destruct (advanceLoop_skip ign (mkBuf Ascii.zero 0 0 0 (ign ++ l :: rest) ierr EmptyString EmptyString true 0 None) (l :: rest) Hi)
    as [b' [E [H1 [H2 [H3 [H4 [H5 [H6 [H7 [H8 H9]]]]]]]]]].
  rewrite E. cbn [advanceLoop]. rewrite Hl.
  destruct l as [|c l']; [discriminate|].
  exists c. split; [reflexivity|].
  unfold AdvanceCursor. cbn in *. rewrite H4, H5, H6, H2, H3, H7. cbn. rewrite Nat.add_0_r. reflexivity.
Qed.




(** ** Lines with an illegal item tag: scanner and parser lemmas *)



Lemma get_lt : forall s n c, String.get n s = Some c -> n < String.length s.
Proof.
  induction s as [|a s IH]; intros [|n] c H; cbn in *; try discriminate; try lia.
  apply IH in H. lia.
Qed.

Lemma get_some : forall s n, n < String.length s -> exists c, String.get n s = Some c.
Proof.
  induction s as [|a s IH]; intros [|n] H; cbn in *; try lia.
  - exists a. reflexivity.
  - apply IH. lia.
Qed.

Lemma AdvanceCursor_at b l R i :
  at_pos b l R i ->
  snd (AdvanceCursor b) = None /\ lineState (fst (AdvanceCursor b)) l R /\
  ((S i < String.length l /\ at_pos (fst (AdvanceCursor b)) l R (S i)) \/
   (S i = String.length l /\ Lookahead (fst (AdvanceCursor b)) = eolMarker)).
Proof.
  intros [[HL [HT [HI [HE HX]]]] [HB HG]].
  pose proof (get_lt _ _ _ HG) as Hlt.
  unfold AdvanceCursor. rewrite HE, HL, HB. cbn [Nat.ltb Nat.leb].
  destruct (String.length l <=? S i) eqn:C.
  - apply Nat.leb_le in C. cbn.
    split; [reflexivity|]. split.
    + unfold lineState. cbn. repeat split; congruence.
    + right. split; [lia|reflexivity].
  - apply Nat.leb_gt in C. unfold readRune. rewrite HL, HB.
    destruct (get_some l (S i) C) as [c Hc]. rewrite Hc. cbn.
    split; [reflexivity|]. split.
    + unfold lineState. cbn. repeat split; congruence.
    + left. split; [exact C|]. unfold at_pos, lineState. cbn.
      repeat split; congruence.
Qed.

Lemma bufMatch_at pred b l R i :
  at_pos b l R i -> pred (Lookahead b) = true -> Lookahead b <> eolMarker ->
  bufMatch pred b = (true, fst (AdvanceCursor b)).
Proof.
  intros Hp Hpr Hne. pose proof (AdvanceCursor_at b l R i Hp) as [Hn _].
  destruct Hp as [[HL [HT [HI [HE HX]]]] [HB HG]].
  pose proof (get_lt _ _ _ HG) as Hlt.
  assert (Hl : (String.length (Line b) =? 0) = false) by (apply Nat.eqb_neq; rewrite HL; lia).
  assert (Q : Ascii.eqb (Lookahead b) eolMarker = false) by (apply Ascii.eqb_neq; exact Hne).
  unfold bufMatch, IsEof. rewrite HE, HX, Hl. cbn [Nat.leb orb negb].
  rewrite Hpr, Q. cbn [negb].
  destruct (AdvanceCursor b) as [b' err]. cbn in Hn. subst err. reflexivity.
Qed.

Lemma get_spaces_lt : forall n s j, j < n -> String.get j (spaces n ++ s) = Some space.
Proof. induction n as [|n IH]; intros s [|j] H; cbn; try lia; try reflexivity. apply IH. lia. Qed.

Lemma get_spaces_ge : forall n s j, String.get (n + j) (spaces n ++ s) = String.get j s.
Proof. induction n as [|n IH]; intros s j; cbn; [reflexivity | apply IH]. Qed.

Lemma length_spaces_app n s : String.length (spaces n ++ s) = n + String.length s.
Proof. induction n as [|n IH]; cbn; [reflexivity | rewrite IH; reflexivity]. Qed.


Lemma AdvanceLine_first_line b ign l rest :
  isEof b = 0 -> Input b = ign ++ l :: rest ->
  forallb IsIgnoredLine ign = true -> IsIgnoredLine l = false ->
  exists c, String.get 0 l = Some c /\
  AdvanceLine b = (mkBuf c 1 1 (S (length ign + CurrentLine b)) rest (InputErr b) l l false 0 (LastError b), None).
Proof.
  intros He Hs Hi Hl. unfold AdvanceLine, set_Cursors.
  cbn [isEof Input InputErr Lookahead Cursor ByteCursor CurrentLine Text Line LineNil LastError].
  rewrite He, Hs. cbn [Nat.eqb].
  destruct (advanceLoop_skip ign (mkBuf (Lookahead b) 0 0 (CurrentLine b) (ign ++ l :: rest)
              (InputErr b) (Text b) (Line b) (LineNil b) 0 (LastError b)) (l :: rest) Hi)
    as [b' [E [H1 [H2 [H3 [H4 [H5 [H6 [H7 [H8 H9]]]]]]]]]].
  rewrite E. cbn [advanceLoop]. rewrite Hl.
  destruct l as [|c l']; [discriminate|].
  exists c. split; [reflexivity|].
  unfold AdvanceCursor. cbn in *. rewrite H4, H5, H6, H2, H3, H7. cbn. reflexivity.
Qed.

Lemma AdvanceLine_err b : snd (AdvanceLine b) = None \/ snd (AdvanceLine b) = Some errAtEof \/
  snd (AdvanceLine b) = Some ioReadError.
Proof.
  unfold AdvanceLine.
  destruct (isEof (set_Cursors 0 0 b) =? 1); [right; left; reflexivity|].
  assert (HC : forall b1, snd (AdvanceCursor b1) = None \/ snd (AdvanceCursor b1) = Some errAtEof \/
    snd (AdvanceCursor b1) = Some ioReadError).
  { intros b1. unfold AdvanceCursor. destruct (2 <? isEof b1); [right; left; reflexivity|].
    destruct (String.length (Line b1) <=? ByteCursor b1); [left; reflexivity|].
    destruct (readRune b1). left. reflexivity. }
  destruct (isEof (set_Cursors 0 0 b) =? 0); [|apply HC].
  assert (HL : forall b0 inp, snd (advanceLoop b0 inp) = None \/ snd (advanceLoop b0 inp) = Some errAtEof \/
    snd (advanceLoop b0 inp) = Some ioReadError).
  { intros b0 inp. revert b0. induction inp as [|l inp IH]; intros b0; cbn.
    - destruct (InputErr b0); [right; right | right; left]; reflexivity.
    - destruct (IsIgnoredLine l); [apply IH | left; reflexivity]. }
  destruct (advanceLoop _ _) as [b1 stop] eqn:E.
  destruct stop as [e|]; [|apply HC].
  pose proof (HL (set_Cursors 0 0 b) (Input (set_Cursors 0 0 b))) as H. rewrite E in H. exact H.
Qed.

Lemma set_Indent_same k : set_Indent (Indent k) k = k.
Proof. destruct k; reflexivity. Qed.

Lemma set_Indent_twice n m k : set_Indent n (set_Indent m k) = set_Indent n k.
Proof. destruct k; reflexivity. Qed.

Lemma scanIndent_loop : forall n f b l R i k,
  at_pos b l R i -> (forall j, j < n -> String.get (i + j) l = Some space) ->
  (exists c, String.get (i + n) l = Some c /\ c <> space) -> Error k = None -> n < f ->
  exists b', at_pos b' l R (i + n) /\
    stepLoop f ScanIndentation b k
    = stepLoop (f - S n) ScanItemBody b' (set_Indent (n + Indent k) k).
Proof.
  induction n as [|n IH]; intros f b l R i k Hp Hsp [c [Hc Hcs]] Hk Hf;
    destruct f as [|f]; try lia.
  - exists b. rewrite Nat.add_0_r in *. split; [exact Hp|].
    destruct Hp as [_ [_ HG]]. rewrite HG in Hc. injection Hc as Hc. subst c.
    cbn [stepLoop runStep]. apply Ascii.eqb_neq in Hcs. rewrite Hcs.
    cbn [res_bind]. rewrite Hk. cbn [Nat.add]. rewrite set_Indent_same. f_equal. lia.
  - assert (Hla : Lookahead b = space).
    { destruct Hp as [_ [_ HG]]. specialize (Hsp 0 ltac:(lia)). rewrite Nat.add_0_r in Hsp.
      congruence. }
    assert (Hlt : S i < String.length l).
    { apply get_lt in Hc. lia. }
    pose proof (AdvanceCursor_at b l R i Hp) as [_ [_ [[_ Hp1] | [Habs _]]]]; [|lia].
    cbn [stepLoop runStep]. rewrite Hla, Ascii.eqb_refl.
    rewrite (bufMatch_at (singleRune space) b l R i Hp) by
      (rewrite Hla; first [reflexivity | intro Hx; cbv in Hx; discriminate Hx]).
    cbn [res_bind snd Error set_Indent]. destruct k as [ln cn tt ind ct er]. cbn in Hk. subst er.
    cbn [Error].
    destruct (IH f _ l R (S i) (mkToken ln cn tt (S ind) ct None) Hp1)
      as [b' [Hp' E]].
    + intros j Hj. replace (S i + j) with (i + S j) by lia. apply Hsp. lia.
    + exists c. split; [replace (S i + n) with (i + S n) by lia; exact Hc | exact Hcs].
    + reflexivity.
    + lia.
    + exists b'. split; [replace (i + S n) with (S i + n) by lia; exact Hp'|].
      unfold set_Indent in *; cbn in E |- *. rewrite E. f_equal. f_equal. lia.
Qed.

Lemma at_pos_IsEof b l R i : at_pos b l R i -> IsEof b = false.
Proof.
  intros [[HL [_ [_ [HE _]]]] [_ HG]]. apply get_lt in HG.
  unfold IsEof. rewrite HE, HL. destruct (String.length l) eqn:E; [lia|reflexivity].
Qed.

Lemma ReadLineRemainder_adv b l R :
  lineState b l R -> advancedFrom (snd (ReadLineRemainder b)) R.
Proof.
  intros [_ [_ [HI [HE HX]]]]. exists b. repeat split; try assumption. right.
  unfold ReadLineRemainder. destruct (AdvanceLine b). reflexivity.
Qed.

Lemma bufMatch_eol b l R :
  lineState b l R -> Lookahead b = eolMarker -> 0 < String.length l ->
  advancedFrom (snd (bufMatch (singleRune eolMarker) b)) R.
Proof.
  intros Hs Hla Hl. pose proof Hs as [HL [_ [HI [HE HX]]]].
  exists b. repeat split; try assumption.
  unfold bufMatch, IsEof. rewrite HE, HX, HL.
  destruct (String.length l) eqn:E; [lia|]. cbn [Nat.leb orb Nat.eqb].
  unfold singleRune. rewrite Hla, Ascii.eqb_refl. cbn [negb].
  destruct (AdvanceLine b) as [b' [e|]]; cbn [fst snd];
    [destruct (isErrAtEof e); [left | right] | left]; reflexivity.
Qed.

Lemma recognizeItemTag_bad tag single multi b l R i k d :
  at_pos b l R i -> Lookahead b = tag -> tag <> eolMarker ->
  String.get (S i) l = Some d -> d <> space -> d <> eolMarker ->
  fst (recognizeItemTag tag single multi b k)
  = set_Error (Some (makeParsingError k ErrCodeFormatIllegalTag (illegalTagMsg tag d))) k.
Proof.
  intros Hp Hla Hne Hd Hds Hde.
  unfold recognizeItemTag.
  rewrite (bufMatch_at (singleRune tag) b l R i Hp)
    by (try rewrite Hla; first [apply Ascii.eqb_refl | exact Hne]).
  cbn [snd].
  pose proof (AdvanceCursor_at b l R i Hp) as [_ [_ Hcase]].
  assert (Hlt : S i < String.length l) by (apply get_lt in Hd; exact Hd).
  destruct Hcase as [[_ [_ [_ Hp1]]] | [Habs _]]; [|lia].
  rewrite Hd in Hp1. injection Hp1 as <-.
  apply Ascii.eqb_neq in Hds, Hde. rewrite Hds, Hde. reflexivity.
Qed.

Lemma scanItem_prefix f b l R n c rest k :
  at_pos b l R 0 -> l = (spaces n ++ String c rest)%string -> c <> space ->
  Error k = None -> n + 4 <= f ->
  exists f' b', 2 <= f' /\ at_pos b' l R n /\ Lookahead b' = c /\
    stepLoop f ScanItem b k = stepLoop f' ScanItemBody b' (set_Indent (n + Indent k) k).
Proof.
  intros Hp Hl Hc Hk Hf. destruct f as [|f0]; [lia|].
  cbn [stepLoop runStep].
  pose proof Hp as [_ [_ HG]].
  destruct n as [|m].
  - cbn in Hl. subst l. cbn in HG. injection HG as HG.
    rewrite <- HG. apply Ascii.eqb_neq in Hc. rewrite Hc. cbn [res_bind]. rewrite Hk.
    exists f0, b. split; [lia|]. split; [exact Hp|]. split; [exact (eq_sym HG)|].
    cbn [Nat.add]. rewrite set_Indent_same. reflexivity.
  - assert (Hsp : Lookahead b = space).
    { rewrite Hl in HG. rewrite get_spaces_lt in HG by lia. injection HG as <-. reflexivity. }
    rewrite Hsp, Ascii.eqb_refl. cbn [res_bind]. rewrite Hk.
    destruct (scanIndent_loop (S m) f0 b l R 0 k Hp) as [b' [Hp' E]].
    + intros j Hj. rewrite Hl. apply get_spaces_lt. exact Hj.
    + exists c. split; [|exact Hc]. rewrite Hl. cbn [Nat.add].
      rewrite <- (Nat.add_0_r (S m)) at 1. rewrite get_spaces_ge. reflexivity.
    + exact Hk.
    + lia.
    + exists (f0 - S (S m)), b'. split; [lia|]. split; [exact Hp'|].
      split; [|exact E].
      destruct Hp' as [_ [_ HG']]. rewrite Hl in HG'. cbn [Nat.add] in HG'.
      rewrite <- (Nat.add_0_r (S m)) in HG' at 1. rewrite get_spaces_ge in HG'.
      injection HG' as <-. reflexivity.
Qed.

Lemma isTagChar_cases c : isTagChar c = true -> c = "-"%char \/ c = ">"%char \/ c = ":"%char.
Proof.
  unfold isTagChar. intros H.
  destruct (Ascii.eqb c "-"%char) eqn:E1; [left; apply Ascii.eqb_eq, E1|].
  destruct (Ascii.eqb c ">"%char) eqn:E2; [right; left; apply Ascii.eqb_eq, E2|].
  destruct (Ascii.eqb c ":"%char) eqn:E3; [right; right; apply Ascii.eqb_eq, E3 | discriminate].
Qed.

Lemma ItemBody_bad f b l R i k tag d :
  at_pos b l R i -> Lookahead b = tag -> isTagChar tag = true ->
  String.get (S i) l = Some d -> d <> space -> d <> eolMarker ->
  stepLoop (S f) ScanItemBody b k
  = Ret (set_Error (Some (makeParsingError k ErrCodeFormatIllegalTag (illegalTagMsg tag d))) k,
         fst (AdvanceCursor b), None).
Proof.
  intros Hp Hla Ht Hd Hds Hde.
  assert (HR : forall single multi,
    recognizeItemTag tag single multi b k
    = (set_Error (Some (makeParsingError k ErrCodeFormatIllegalTag (illegalTagMsg tag d))) k,
       fst (AdvanceCursor b))).
  { intros single multi.
    assert (Hne : tag <> eolMarker).
    { apply isTagChar_cases in Ht. intros ->. cbv in Ht.
      destruct Ht as [Hx|[Hx|Hx]]; discriminate Hx. }
    rewrite <- (recognizeItemTag_bad tag single multi b l R i k d Hp Hla Hne Hd Hds Hde).
    unfold recognizeItemTag.
    rewrite (bufMatch_at (singleRune tag) b l R i Hp)
      by (try rewrite Hla; first [apply Ascii.eqb_refl | exact Hne]).
    cbn [snd].
    pose proof (AdvanceCursor_at b l R i Hp) as [_ [_ Hcase]].
    assert (Hlt : S i < String.length l) by (apply get_lt in Hd; exact Hd).
    destruct Hcase as [[_ [_ [_ Hp1]]] | [Habs _]]; [|lia].
    rewrite Hd in Hp1. injection Hp1 as <-.
    apply Ascii.eqb_neq in Hds, Hde. rewrite Hds, Hde. reflexivity. }
  cbn [stepLoop runStep]. rewrite Hla.
  apply isTagChar_cases in Ht as [-> | [-> | ->]]; cbn [Ascii.eqb Bool.eqb andb];
    rewrite HR; reflexivity.
Qed.

Lemma NextToken_illegal_tag sc l R n tag d rest :
  at_pos (Buf sc) l R 0 -> (Step sc = None \/ Step sc = Some ScanItem) ->
  l = (spaces n ++ String tag (String d rest))%string ->
  isTagChar tag = true -> d <> space -> d <> eolMarker ->
  exists k sc', NextToken sc = Ret (k, sc') /\ TokenType k = undefined /\
    Error k = Some (NTErr (mkNTError ErrCodeFormatIllegalTag (CurrentLine (Buf sc))
                             (Cursor (Buf sc)) (illegalTagMsg tag d))).
Proof.
  intros Hp Hst Hl Ht Hds Hde.
  assert (Hts : tag <> space).
  { apply isTagChar_cases in Ht. intros ->. cbv in Ht.
    destruct Ht as [Hx|[Hx|Hx]]; discriminate Hx. }
  unfold NextToken.
  assert (Hs : match Step sc with Some s => s | None => ScanItem end = ScanItem)
    by (destruct Hst as [-> | ->]; reflexivity).
  rewrite Hs.
  pose proof Hp as [[HL _] _].
  destruct (scanItem_prefix (String.length (Line (Buf sc)) + 5) (Buf sc) l R n tag
              (String d rest) (newToken (CurrentLine (Buf sc)) (Cursor (Buf sc))) Hp Hl Hts
              eq_refl) as [f' [b' [Hf' [Hp' [Hla E]]]]].
  { rewrite HL, Hl, length_spaces_app. cbn. lia. }
  rewrite E. destruct f' as [|f'']; [lia|].
  rewrite (ItemBody_bad f'' b' l R n _ tag d Hp' Hla Ht); try assumption.
  - cbn. eexists _, _. split; [reflexivity|]. split; reflexivity.
  - rewrite Hl. replace (S n) with (n + 1) by lia. rewrite get_spaces_ge. reflexivity.
Qed.

Lemma pbind_inv {A B : Type} (m : PM A) (k : A -> PM B) s r :
  pbind m k s = Ret r -> exists x s1, m s = Ret (x, s1) /\ k x s1 = Ret r.
Proof.
  unfold pbind. destruct (m s) as [[x s1]|ab]; [|discriminate].
  intros H. exists x, s1. split; [reflexivity | exact H].
Qed.

Lemma Frame_pret {A : Type} (a : A) : Frame (pret a).
Proof. intros s x s1 H. injection H as _ <-. split; reflexivity. Qed.

Lemma Frame_getToken : Frame getToken.
Proof. intros s x s1 H. injection H as _ <-. split; reflexivity. Qed.

Lemma Frame_plift {A : Type} (r : res A) : Frame (plift r).
Proof.
  intros s x s1 H. unfold plift in H. destruct r; [injection H as _ <-|discriminate].
  split; reflexivity.
Qed.

Lemma Frame_modifyStack f : Frame (modifyStack f).
Proof.
  intros s x s1 H. unfold modifyStack in H. destruct (f (stack s)); [|discriminate].
  injection H as _ <-. split; reflexivity.
Qed.

Lemma Frame_logReduced ts : Frame (logReduced ts).
Proof. intros s x s1 H. injection H as _ <-. split; reflexivity. Qed.

Lemma Frame_reduceTos : Frame reduceTos.
Proof.
  intros s x s1 H. unfold reduceTos in H. destruct (tos (stack s)); [|discriminate].
  destruct (ReduceToItem _); [|discriminate]. injection H as _ <-. split; reflexivity.
Qed.

Lemma Inv_frame {A : Type} (m : PM A) s x s1 :
  Frame m -> m s = Ret (x, s1) -> Inv s -> Inv s1.
Proof. intros Hf E H. unfold Inv. destruct (Hf _ _ _ E) as [_ ->]. exact H. Qed.

Lemma getToken_eq s x s1 : getToken s = Ret (x, s1) -> x = token s /\ s1 = s.
Proof. intros H. injection H as <- <-. split; reflexivity. Qed.

Lemma pret_eq {A : Type} (a : A) s x s1 : pret a s = Ret (x, s1) -> x = a /\ s1 = s.
Proof. intros H. injection H as <- <-. split; reflexivity. Qed.

Lemma recognizeItemTag_type tag single multi b k :
  single <> eof -> multi <> eof -> TokenType k <> eof ->
  TokenType (fst (recognizeItemTag tag single multi b k)) <> eof.
Proof.
  intros Hs Hm Hk. unfold recognizeItemTag.
  destruct (Ascii.eqb _ space); [destruct (ReadLineRemainder _); exact Hs|].
  destruct (negb _); [exact Hk | exact Hm].
Qed.

Lemma runStep_not_eof st b k k1 b1 n :
  TokenType k <> eof -> runStep st b k = Ret (k1, b1, n) -> TokenType k1 <> eof.
Proof.
  intros Hk H. destruct st; cbn [runStep] in H.
  - destruct (LineNil b); [discriminate H|].
    destruct (IsEof b); [injection H as <- _ _; discriminate|].
    destruct (Ascii.eqb _ space); injection H as <- _ _; discriminate.
  - destruct (Ascii.eqb _ space); injection H as <- _ _; exact Hk.
  - destruct (Ascii.eqb _ space); injection H as <- _ _; exact Hk.
  - repeat match type of H with
    | context [if ?c then _ else _] => destruct c
    end;
    try (injection H as <- _ _; exact Hk);
    try (match type of H with
         | context [recognizeItemTag ?t ?s ?m b k] =>
             pose proof (recognizeItemTag_type t s m b k ltac:(discriminate) ltac:(discriminate) Hk) as Ht;
             destruct (recognizeItemTag t s m b k); injection H as <- _ _; exact Ht
         end);
    unfold recognizeInlineItem in H; destruct (String.get _ _); try discriminate H;
    destruct (ReadLineRemainder _); injection H as <- _ _; discriminate.
  - injection H as <- _ _. exact Hk.
Qed.

Lemma stepLoop_not_eof : forall fuel st b k k1 b1 n,
  TokenType k <> eof -> stepLoop fuel st b k = Ret (k1, b1, n) -> TokenType k1 <> eof.
Proof.
  induction fuel as [|f IH]; intros st b k k1 b1 n Hk H; cbn [stepLoop] in H; [discriminate H|].
  destruct (runStep st b k) as [[[k2 b2] n2]|ab] eqn:E; [|discriminate H]. cbn [res_bind] in H.
  pose proof (runStep_not_eof _ _ _ _ _ _ Hk E) as H2.
  destruct (Error k2); [injection H as <- _ _; exact H2|].
  destruct n2 as [st'|]; [exact (IH _ _ _ _ _ _ H2 H) | injection H as <- _ _; exact H2].
Qed.

(** The scanner never emits an [eof] token: no step sets that type, and
    [newToken] starts as [undefined]. *)
Lemma NextToken_not_eof sc k sc' : NextToken sc = Ret (k, sc') -> TokenType k <> eof.
Proof.
  unfold NextToken. intros H.
  destruct (stepLoop _ _ _ _) as [[[k1 b1] n]|ab] eqn:E; [|discriminate H].
  cbn [res_bind] in H. injection H as <- _.
  refine (stepLoop_not_eof _ _ _ _ _ _ _ _ E). discriminate.
Qed.

Lemma nextToken_Inv s k s1 : Inv s -> nextToken s = Ret (k, s1) ->
  token s1 = k /\ (Error k = None -> Inv s1).
Proof.
  intros _ H. unfold nextToken in H.
  destruct (NextToken (sc s)) as [[k1 sc1]|ab] eqn:E; [|discriminate].
  injection H as <- <-. split; [reflexivity|].
  intros _. exact (NextToken_not_eof _ _ _ E).
Qed.

Lemma Frame_pushNonterm d : Frame (pushNonterm d).
Proof. apply Frame_modifyStack. Qed.

Lemma Frame_stackPushKV k v : Frame (stackPushKV k v).
Proof. apply Frame_modifyStack. Qed.

Lemma Frame_popStack : Frame popStack.
Proof. apply Frame_modifyStack. Qed.

Ltac bst H x s1 E := apply pbind_inv in H as [x [s1 [E H]]]; cbv beta in H.

Ltac bstep H :=
  let x := fresh "x" in let s1 := fresh "s" in let E := fresh "E" in
  apply pbind_inv in H as [x [s1 [E H]]]; cbv beta in H.

Ltac frame_lemma :=
  first [ exact Frame_getToken | exact (Frame_plift _) | exact (Frame_pushNonterm _)
        | exact (Frame_stackPushKV _ _) | exact Frame_popStack | exact Frame_reduceTos
        | exact (Frame_logReduced _) | exact (Frame_pret _) ].

Ltac fin H :=
  apply pret_eq in H as [-> ->]; cbn in *; first [assumption | discriminate | congruence].

Ltac next HI E :=
  let Ht := fresh "Ht" in let HN := fresh "HN" in
  destruct (nextToken_Inv _ _ _ HI E) as [Ht HN].

Ltac frm HI E :=
  match type of E with
  | ?m _ = _ => let Hf := fresh "Hf" in
                assert (Hf : Frame m) by frame_lemma;
                apply (Inv_frame m _ _ _ Hf E) in HI; clear Hf
  end.

Lemma Keeps_parseListItem indent : Keeps snd (parseListItem indent).
Proof.
  intros s a s' HI H Herr. unfold parseListItem in H.
  bstep H. apply getToken_eq in E as [-> ->].
  destruct (indent <? Indent (token s)); [fin H|].
  destruct (Indent (token s) <? indent); [fin H|].
  bstep H. frm HI E. bstep H. next HI E0.
  destruct (Error x0) eqn:Ex; [fin H|]. specialize (HN eq_refl). fin H.
Qed.

Lemma Keeps_parseDictKeyValuePair indent : Keeps snd (parseDictKeyValuePair indent).
Proof.
  intros s a s' HI H Herr. unfold parseDictKeyValuePair in H.
  bstep H. apply getToken_eq in E as [-> ->].
  destruct (negb (Indent (token s) =? indent)); [fin H|].
  bstep H. frm HI E. bstep H. frm HI E0. bstep H. next HI E1.
  destruct (Error x1) eqn:Ex; [fin H|]. specialize (HN eq_refl). fin H.
Qed.

Lemma Keeps_continuationLoop : forall fuel typ indent acc,
  Keeps snd (continuationLoop fuel typ indent acc).
Proof.
  induction fuel as [|f IH]; intros typ indent acc s a s' HI H Herr;
    cbn [continuationLoop] in H; [discriminate H|].
  bstep H. next HI E.
  destruct (Error x) eqn:Ex; [fin H|]. specialize (HN eq_refl).
  destruct (negb (tt_eqb (TokenType x) typ) || negb (Indent x =? indent)); [fin H|].
  exact (IH _ _ _ _ _ _ HN H Herr).
Qed.

Lemma Keeps_parseMultiString fuel indent : Keeps snd (parseMultiString fuel indent).
Proof.
  intros s a s' HI H Herr. unfold parseMultiString in H.
  bstep H. apply getToken_eq in E as [-> ->].
  destruct (negb (Indent (token s) =? indent)); [fin H|].
  bstep H. destruct x as [str err].
  apply pret_eq in H as [-> ->]. cbn in Herr. subst err.
  exact (Keeps_continuationLoop _ _ _ _ _ _ _ HI E eq_refl).
Qed.

Lemma Keeps_parseInline initial : Keeps snd (parseInline initial).
Proof.
  intros s a s' HI H Herr. unfold parseInline in H.
  bstep H. apply getToken_eq in E as [-> ->].
  bstep H. frm HI E. bstep H. frm HI E0. destruct x0 as [[r err] log].
  bstep H. frm HI E1.
  destruct err; [fin H|].
  bstep H. next HI E2.
  destruct (Error x1) eqn:Ex; [fin H|]. specialize (HN eq_refl). fin H.
Qed.

Lemma Keeps_parser : forall f,
  (forall i, Keeps snd (parseAny f i)) /\
  (forall i, Keeps snd (parseList f i)) /\
  (forall i, Keeps errId (parseListItems f i)) /\
  (forall i, Keeps snd (parseListItemMultiline f i)) /\
  (forall i, Keeps snd (parseDict f i)) /\
  (forall i, Keeps errId (parseDictKeyValuePairs f i)) /\
  (forall i, Keeps snd (parseDictKeyAnyValuePair f i)) /\
  (forall i, Keeps snd (parseDictKeyValuePairWithMultilineKey f i)).
Proof.
  induction f as [|f IH].
  { repeat match goal with |- _ /\ _ => split end;
      intros i s a s' _ H; discriminate H. }
  destruct IH as [IAny [IList [IItems [IMul [IDict [IPairs [IAnyPair IMulKey]]]]]]].
  repeat match goal with |- _ /\ _ => split end.
  - (* parseAny *)
    intros i s a s' HI H Herr. cbn [parseAny] in H.
    bstep H. apply getToken_eq in E as [-> ->].
    destruct (Indent (token s) <? i); [fin H|].
    destruct (TokenType (token s)); try discriminate H;
      first [ exact (Keeps_parseMultiString _ _ _ _ _ HI H Herr)
            | exact (Keeps_parseInline _ _ _ _ HI H Herr)
            | exact (IList _ _ _ _ HI H Herr)
            | exact (IDict _ _ _ _ HI H Herr) ].
  - (* parseList *)
    intros i s a s' HI H Herr. cbn [parseList] in H.
    bst H u s1 E1. frm HI E1. bst H k s2 E2. apply getToken_eq in E2 as [-> ->].
    bst H err s3 E3. destruct err as [g|]; [fin H|].
    apply (IItems _ _ _ _ HI) in E3; [|reflexivity].
    bst H r s4 E4. frm E3 E4. bst H u' s5 E5. frm E3 E5. fin H.
  - (* parseListItems *)
    intros i s a s' HI H Herr. cbn [parseListItems] in H.
    bst H k s1 E1. apply getToken_eq in E1 as [-> ->].
    destruct (negb (isListToken (TokenType (token s)))); [fin H|].
    bst H ve s2 E2. destruct ve as [v err].
    destruct err as [g|]; [fin H|].
    assert (HI1 : Inv s2).
    { destruct (tt_eqb (TokenType (token s)) listItem).
      - exact (Keeps_parseListItem _ _ _ _ HI E2 eq_refl).
      - exact (IMul _ _ _ _ HI E2 eq_refl). }
    destruct (isNil v); [fin H|].
    bst H u s3 E3. frm HI1 E3. exact (IItems _ _ _ _ HI1 H Herr).
  - (* parseListItemMultiline *)
    intros i s a s' HI H Herr. cbn [parseListItemMultiline] in H.
    bst H k s1 E1. apply getToken_eq in E1 as [-> ->].
    destruct (negb (Indent (token s) =? i)); [fin H|].
    bst H k1 s2 E2. next HI E2.
    destruct (Error k1) eqn:Ex; [fin H|]. specialize (HN eq_refl).
    destruct (Indent k1 <=? i); [fin H|].
    bst H re s3 E3. destruct re as [r err].
    bst H k2 s4 E4. apply getToken_eq in E4 as [-> ->].
    destruct (i <? Indent (token s3)); [fin H|].
    apply pret_eq in H as [-> ->]. cbn in Herr. subst err.
    exact (IAny _ _ _ _ HN E3 eq_refl).
  - (* parseDict *)
    intros i s a s' HI H Herr. cbn [parseDict] in H.
    bst H u s1 E1. frm HI E1. bst H k s2 E2. apply getToken_eq in E2 as [-> ->].
    bst H err s3 E3. destruct err as [g|]; [fin H|].
    apply (IPairs _ _ _ _ HI) in E3; [|reflexivity].
    bst H r s4 E4. frm E3 E4. bst H u' s5 E5. frm E3 E5.
    bst H k' s6 E6. apply getToken_eq in E6 as [-> ->].
    destruct (i <? Indent (token s5)); fin H.
  - (* parseDictKeyValuePairs *)
    intros i s a s' HI H Herr. cbn [parseDictKeyValuePairs] in H.
    bst H k s1 E1. apply getToken_eq in E1 as [-> ->].
    destruct (negb (isDictToken (TokenType (token s)))); [fin H|].
    bst H kve s2 E2. destruct kve as [[key v] err].
    assert (HI1 : err = None -> Inv s2).
    { intros He. subst err.
      destruct (TokenType (token s)).
      all: first [ exact (Keeps_parseDictKeyValuePair _ _ _ _ HI E2 eq_refl)
                 | exact (IAnyPair _ _ _ _ HI E2 eq_refl)
                 | exact (IMulKey _ _ _ _ HI E2 eq_refl) ]. }
    destruct (isNil v).
    + apply pret_eq in H as [-> ->]. exact (HI1 Herr).
    + destruct err as [g|]; [fin H|].
      bst H u s3 E3. specialize (HI1 eq_refl). frm HI1 E3.
      exact (IPairs _ _ _ _ HI1 H Herr).
  - (* parseDictKeyAnyValuePair *)
    intros i s a s' HI H Herr. cbn [parseDictKeyAnyValuePair] in H.
    bst H k s1 E1. apply getToken_eq in E1 as [-> ->].
    destruct (negb (Indent (token s) =? i)); [fin H|].
    bst H key s2 E2. frm HI E2. bst H k1 s3 E3. next HI E3.
    destruct (Error k1) eqn:Ex; [fin H|]. specialize (HN eq_refl).
    destruct (Indent k1 <=? i); [fin H|].
    bst H ve s4 E4. destruct ve as [v err].
    apply pret_eq in H as [-> ->]. cbn in Herr. subst err.
    exact (IAny _ _ _ _ HN E4 eq_refl).
  - (* parseDictKeyValuePairWithMultilineKey *)
    intros i s a s' HI H Herr. cbn [parseDictKeyValuePairWithMultilineKey] in H.
    bst H k s1 E1. apply getToken_eq in E1 as [-> ->].
    destruct (negb (Indent (token s) =? i)); [fin H|].
    bst H ke s2 E2. destruct ke as [key err].
    destruct err as [g|]; [fin H|].
    apply (Keeps_continuationLoop _ _ _ _ _ _ _ HI) in E2; [|reflexivity].
    bst H k1 s3 E3. apply getToken_eq in E3 as [-> ->].
    destruct (Indent (token s2) <=? i); [fin H|].
    bst H ve s4 E4. destruct ve as [v err'].
    apply pret_eq in H as [-> ->]. cbn in Herr. subst err'.
    exact (IAny _ _ _ _ E2 E4 eq_refl).
Qed.


(** ** Documents parsed without error *)

(** [parseDocument] returns a nil error only when the first token is
    [emptyDocument]: after a top-level item the current token is never
    [eof], so the check for unused content always fires. *)
Lemma parseDocument_nil fuel s r s' :
  parseDocument fuel s = Ret ((r, None), s') ->
  r = VNil /\ exists k sc1, NextToken (sc s) = Ret (k, sc1) /\ Error k = None /\
    TokenType k = emptyDocument.
Proof.
  intros H. unfold parseDocument in H.
  apply pbind_inv in H as [k0 [s1 [E1 H]]]. cbv beta in H.
  unfold nextToken in E1.
  destruct (NextToken (sc s)) as [[k0' sc1]|ab] eqn:N1; [|discriminate E1].
  injection E1 as <- <-.
  destruct (Error k0') eqn:Ek0; [apply pret_eq in H as [H _]; discriminate H|].
  pose proof (NextToken_not_eof _ _ _ N1) as Hne0.
  destruct (tt_eqb (TokenType k0') eof || tt_eqb (TokenType k0') emptyDocument) eqn:Ht.
  - apply pret_eq in H as [H _]. injection H as ->. split; [reflexivity|].
    exists k0', sc1. split; [reflexivity|]. split; [exact Ek0|].
    apply orb_true_iff in Ht as [Ht|Ht]; apply tt_eqb_true in Ht; [contradiction|exact Ht].
  - exfalso.
    apply pbind_inv in H as [k1 [s2 [E2 H]]]. cbv beta in H.
    destruct (nextToken_Inv (mkPState sc1 k0' (stack s) (reduced s)) _ _ Hne0 E2) as [Ht1 HN].
    destruct (Error k1) eqn:Ek1; [apply pret_eq in H as [H _]; discriminate H|].
    specialize (HN eq_refl).
    apply pbind_inv in H as [re [s3 [E3 H]]]. cbv beta in H. destruct re as [r' err'].
    apply pbind_inv in H as [k2 [s4 [E4 H]]]. cbv beta in H.
    apply getToken_eq in E4 as [-> ->].
    destruct err' as [g|]; [apply pret_eq in H as [H _]; discriminate H|].
    pose proof (proj1 (Keeps_parser fuel) 0 _ _ _ HN E3 eq_refl) as Hne.
    apply tt_eqb_false in Hne. rewrite Hne in H. cbn [negb] in H.
    apply pret_eq in H as [H _]. discriminate H.
Qed.

(** [ScanFileStart] yields [emptyDocument] only on a non-nil [Line] at
    the end of the input. *)
Lemma NextToken_fileStart_empty b k sc1 :
  NextToken (mkScanner b (Some ScanFileStart) None) = Ret (k, sc1) ->
  TokenType k = emptyDocument -> LineNil b = false /\ IsEof b = true.
Proof.
  unfold NextToken. cbn [Buf Step].
  replace (String.length (Line b) + 5) with (S (String.length (Line b) + 4)) by lia.
  cbn [stepLoop runStep].
  destruct (LineNil b); [discriminate|].
  destruct (IsEof b); [intros _ _; split; reflexivity|].
  destruct (Ascii.eqb _ space); cbn; intros H Ht; injection H as Hk _; subst k; discriminate Ht.
Qed.

Lemma advanceLoop_eof : forall inp b b1 e,
  advanceLoop b inp = (b1, Some e) -> LineNil b1 = false -> LineNil b = true ->
  forallb IsIgnoredLine inp = true /\ InputErr b = None.
Proof.
  induction inp as [|l inp IH]; intros b b1 e H Hn1 Hn; cbn [advanceLoop] in H.
  - destruct (InputErr b) as [w|]; [|split; reflexivity].
    injection H as <- _. cbn in Hn1. congruence.
  - destruct (IsIgnoredLine l) eqn:Hl; [|discriminate H].
    destruct (IH _ _ _ H Hn1 Hn) as [H1 H2]. cbn. rewrite Hl. split; assumption.
Qed.

Lemma advanceLoop_found : forall inp b b1,
  advanceLoop b inp = (b1, None) -> IsIgnoredLine (Text b1) = false /\ isEof b1 = isEof b.
Proof.
  induction inp as [|l inp IH]; intros b b1 H; cbn [advanceLoop] in H.
  - destruct (InputErr b); discriminate H.
  - destruct (IsIgnoredLine l) eqn:Hl; [exact (IH _ _ H)|].
    injection H as <-. split; [exact Hl | reflexivity].
Qed.

Lemma AdvanceCursor_keeps b :
  Line (fst (AdvanceCursor b)) = Line b /\ isEof (fst (AdvanceCursor b)) = isEof b /\
  LineNil (fst (AdvanceCursor b)) = LineNil b.
Proof.
  unfold AdvanceCursor. destruct (2 <? isEof b); [auto|].
  destruct (_ <=? _); [cbn; auto|]. unfold readRune. destruct (String.get _ _); cbn; auto.
Qed.

Lemma ignored_nonempty l : IsIgnoredLine l = false -> 0 < String.length l.
Proof. destruct l; cbn; [discriminate | lia]. Qed.

(** A line buffer that starts at the end of the input, with [Line] set:
    every line the scanner delivered was blank or a comment, and the
    scanner stopped at the end of the input, not with an error. *)
Lemma newLineBuffer_eof doc :
  LineNil (newLineBuffer doc) = false -> IsEof (newLineBuffer doc) = true ->
  forallb IsIgnoredLine (fst (scanInput doc)) = true /\ snd (scanInput doc) = None.
Proof.
  unfold newLineBuffer. destruct (scanInput doc) as [inp ierr]. cbn [fst snd].
  unfold AdvanceLine, set_Cursors.
  cbn [isEof Nat.eqb Input Lookahead CurrentLine InputErr Text Line LineNil LastError].
  match goal with |- context [advanceLoop ?b0 inp] => set (b := b0) end.
  destruct (advanceLoop b inp) as [b1 [e|]] eqn:E.
  - intros Hn _. apply (advanceLoop_eof inp b b1 e E); [|reflexivity].
    destruct e; exact Hn.
  - destruct (advanceLoop_found inp b b1 E) as [Hi He].
    destruct (AdvanceCursor (set_Line (Text b1) b1)) as [b2 err] eqn:E2.
    pose proof (AdvanceCursor_keeps (set_Line (Text b1) b1)) as [HL [HE _]].
    rewrite E2 in HL, HE. cbn in HL, HE, He.
    intros _ Hx. apply ignored_nonempty in Hi. exfalso.
    assert (HI : IsEof b2 = false).
    { unfold IsEof. rewrite HL, HE, He. subst b. cbn [isEof].
      destruct (String.length (Text b1)); [lia | reflexivity]. }
    destruct err as [[|g]|]; change (IsEof b2 = true) in Hx; congruence.
Qed.

(** Parsing a document ends with a nil error only if the scanner reads
    the whole document and every line of it is blank or a comment; the
    result is then the wrapped nil value. *)
Lemma Parse_nil_error fuel opts doc v :
  Parse fuel opts (Some doc) = Ret (v, None) ->
  forallb IsIgnoredLine (fst (scanInput doc)) = true /\ snd (scanInput doc) = None /\
  v = wrapResult (fst (applyOptions opts EmptyString)) VNil.
Proof.
  unfold Parse, ParseRun. destruct (applyOptions opts EmptyString) as [t [g|]]; cbn [fst].
  { cbn [res_bind]. intros H. injection H as _ H. discriminate H. }
  unfold parserParse, newScanner.
  destruct (parseDocument fuel (initState (mkScanner (newLineBuffer doc) (Some ScanFileStart) None)))
    as [[[r err] st]|ab] eqn:Ed; [|discriminate].
  destruct err as [g|]; cbn [res_bind]; intros H; [discriminate H|]. injection H as Hv.
  destruct (parseDocument_nil _ _ _ _ Ed) as [-> [k [sc1 [Hk [_ Ht]]]]].
  destruct (NextToken_fileStart_empty _ _ _ Hk Ht) as [Hn Hi].
  destruct (newLineBuffer_eof doc Hn Hi) as [H1 H2].
  split; [exact H1|]. split; [exact H2 | symmetry; exact Hv].
Qed.

(** ** Line splitting by the scanner *)

Lemma string_app_assoc (a b c : string) : ((a ++ b) ++ c = a ++ (b ++ c))%string.
Proof. induction a; cbn; [reflexivity | now rewrite IHa]. Qed.

Lemma string_app_nil_r (a : string) : (a ++ EmptyString)%string = a.
Proof. induction a; cbn; [reflexivity | now rewrite IHa]. Qed.

Lemma splitToken_lines : forall s cur, s <> EmptyString ->
  splitLines_aux s cur = (cur ++ fst (splitToken s))%string :: splitLines_aux (snd (splitToken s)) EmptyString.
Proof.
  induction s as [|c rest IH]; intros cur Hs; [congruence|].
  cbn [splitLines_aux splitToken].
  destruct (Ascii.eqb c eolMarker); [cbn; rewrite string_app_nil_r; reflexivity|].
  destruct (Ascii.eqb c CR).
  - destruct rest as [|c2 rest2]; [cbn; rewrite string_app_nil_r; reflexivity|].
    destruct (Ascii.eqb c2 eolMarker); cbn; rewrite string_app_nil_r; reflexivity.
  - destruct rest as [|c2 rest2].
    + cbn. destruct (cur ++ str1 c)%string eqn:E.
      * destruct cur; discriminate E.
      * rewrite <- E. reflexivity.
    + rewrite (IH (cur ++ str1 c)%string ltac:(discriminate)).
      destruct (splitToken (String c2 rest2)) as [t r]. cbn [fst snd].
      rewrite string_app_assoc. reflexivity.
Qed.

Lemma splitToken_length : forall s, s <> EmptyString ->
  String.length (snd (splitToken s)) < String.length s.
Proof.
  induction s as [|c rest IH]; intros Hs; [congruence|].
  cbn [splitToken].
  destruct (Ascii.eqb c eolMarker); [cbn; lia|].
  destruct (Ascii.eqb c CR).
  - destruct rest as [|c2 rest2]; [cbn; lia|].
    destruct (Ascii.eqb c2 eolMarker); cbn; lia.
  - destruct rest as [|c2 rest2]; [cbn; lia|].
    specialize (IH ltac:(discriminate)).
    destruct (splitToken (String c2 rest2)) as [t r]. cbn in IH |- *. lia.
Qed.

(** When the scanner stops at the end of the input, its tokens are the
    lines of [splitLines]. *)
Lemma scanTokens_lines : forall fuel s, String.length s < fuel ->
  snd (scanTokens fuel s) = None -> fst (scanTokens fuel s) = splitLines s.
Proof.
  induction fuel as [|f IH]; intros s Hf Hn; [lia|].
  destruct s as [|c rest]; [reflexivity|].
  cbn [scanTokens]. cbn [scanTokens] in Hn.
  destruct (tokenFits (String c rest)); [|discriminate Hn].
  unfold splitLines. rewrite (splitToken_lines (String c rest) EmptyString ltac:(discriminate)).
  pose proof (splitToken_length (String c rest) ltac:(discriminate)) as Hl.
  destruct (splitToken (String c rest)) as [t r]. cbn [fst snd] in *.
  destruct (scanTokens f r) as [ts e] eqn:E. cbn in Hn |- *.
  subst e. pose proof (IH r ltac:(cbn in Hf, Hl; lia)) as H. rewrite E in H.
  cbn in H. rewrite (H eq_refl). reflexivity.
Qed.

Lemma scanInput_lines doc :
  snd (scanInput doc) = None -> fst (scanInput doc) = splitLines doc.
Proof. apply scanTokens_lines. lia. Qed.

Lemma indexLF_lt : forall s j, indexLF s = Some j -> j < String.length s.
Proof.
  induction s as [|c rest IH]; intros j H; cbn [indexLF] in H; [discriminate|].
  destruct (Ascii.eqb c eolMarker); [injection H as <-; cbn; lia|].
  destruct (indexLF rest) as [j'|] eqn:E; cbn in H; [|discriminate].
  injection H as <-. specialize (IH j' eq_refl). cbn. lia.
Qed.

Lemma scanTokens_small : forall fuel s, String.length s < maxScanTokenSize ->
  snd (scanTokens fuel s) = None.
Proof.
  induction fuel as [|f IH]; intros s Hs; [reflexivity|].
  destruct s as [|c rest]; [reflexivity|].
  cbn [scanTokens].
  assert (Ht : tokenFits (String c rest) = true).
  { unfold tokenFits. destruct (indexLF (String c rest)) as [j|] eqn:E;
      [apply indexLF_lt in E|]; apply Nat.ltb_lt; lia. }
  rewrite Ht.
  pose proof (splitToken_length (String c rest) ltac:(discriminate)) as Hl.
  destruct (splitToken (String c rest)) as [t r]. cbn [snd] in Hl.
  specialize (IH r ltac:(lia)). destruct (scanTokens f r) as [ts e]. cbn in IH |- *. exact IH.
Qed.

(** A document shorter than [maxScanTokenSize] bytes is scanned to its
    end: the scanner delivers the lines of [splitLines] and no error. *)
Lemma scanInput_small doc : String.length doc < maxScanTokenSize ->
  scanInput doc = (splitLines doc, None).
Proof.
  intros H. pose proof (scanTokens_small (S (String.length doc)) doc H) as Hn.
  pose proof (scanInput_lines doc Hn) as Hl. unfold scanInput in *.
  destruct (scanTokens _ doc) as [ts e]. cbn in Hn, Hl. subst. reflexivity.
Qed.

(** ** Top-level wrapping of a bare string *)

(** C7 (the code differs): decoding the bare string "> hi" gives neither
    the list [["hi"]] under [TopLevel("list")] nor the dict
    [{config: "hi"}] under [TopLevel("dict.config")].  [parseDocument]
    returns the string with the format error "unused content following
    valid input" at line 2, because the scanner never produces an [eof]
    token, and [parserParse] wraps a result only when the error is nil.
    Indeed no option list and no fuel give a nil error on this document. *)
Theorem C7_toplevel_no_wrap :
  (forall fuel opts v, Parse fuel opts (Some C7_doc) <> Ret (v, None)) /\
  (forall fuel, 2 <= fuel ->
     Parse fuel [TopLevel "list"] (Some C7_doc)
     = Ret (VStr "hi", Some (NTErr (mkNTError ErrCodeFormat 2 0 unusedContentMsg))) /\
     Parse fuel [TopLevel "dict.config"] (Some C7_doc)
     = Ret (VStr "hi", Some (NTErr (mkNTError ErrCodeFormat 2 0 unusedContentMsg)))).
Proof.
  split.
  - intros fuel opts v H.
    destruct (Parse_nil_error fuel opts C7_doc v H) as [Hi _].
    vm_compute in Hi. discriminate Hi.
  - intros fuel Hf. split;
      (apply (Parse_mono 2 fuel); [exact Hf | vm_compute; reflexivity | discriminate]).
Qed.

Lemma C7_toplevel_no_wrap_witness :
  Parse 2 [TopLevel "list"] (Some C7_doc)
  = Ret (VStr "hi", Some (NTErr (mkNTError ErrCodeFormat 2 0 unusedContentMsg))) /\
  Parse 2 [TopLevel "dict.config"] (Some C7_doc)
  = Ret (VStr "hi", Some (NTErr (mkNTError ErrCodeFormat 2 0 unusedContentMsg))).
Proof. apply (proj2 C7_toplevel_no_wrap 2). lia. Defined.

(** ** Lines with an illegal item tag *)




(** C4 counterexample: the line "->text" is not scanned as a plain key
    line; the scanner rejects it with [ErrCodeFormatIllegalTag], and the
    parse of [C4_doc] fails with that error. *)
Lemma C4_counterexample :
  (exists k sc', NextToken C4_sc = Ret (k, sc') /\ TokenType k = undefined /\
     Error k = Some (NTErr (mkNTError ErrCodeFormatIllegalTag 1 1
                     "item tag '-' followed by illegal character U+003E '>'"))) /\
  Parse 20 [] (Some C4_doc)
  = Ret (VNil, Some (NTErr (mkNTError ErrCodeFormatIllegalTag 1 1
                     "item tag '-' followed by illegal character U+003E '>'"))).
Proof.
  split; [|vm_compute; reflexivity].
  eexists; eexists. split; [vm_compute; reflexivity|]. split; vm_compute; reflexivity.
Qed.

(** C4 (amended): when the scanner is at the start of a line (ready to
    scan an item) whose first non-space character is a tag character
    ('-', '>' or ':') followed by an ASCII character other than a space
    or the end of the line, the next token is not a key token: it has
    type [undefined] and carries the error [ErrCodeFormatIllegalTag] at
    the line and column of the scanner, with the message of
    [illegalTagMsg].  (For a character of 128 or more the message names
    the decoded rune, which [fmtU] does not model.) *)
Theorem C4_illegal_tag_rejected : forall sc l R n tag d rest,
  at_pos (Buf sc) l R 0 ->
  Step sc = None \/ Step sc = Some ScanItem ->
  l = (spaces n ++ String tag (String d rest))%string ->
  isTagChar tag = true -> d <> space -> d <> eolMarker -> nat_of_ascii d < 128 ->
  exists k sc', NextToken sc = Ret (k, sc') /\ TokenType k = undefined /\
    Error k = Some (NTErr (mkNTError ErrCodeFormatIllegalTag
                             (CurrentLine (Buf sc)) (Cursor (Buf sc)) (illegalTagMsg tag d))).
Proof.
  intros sc l R n tag d rest Hp Hst Hl Ht Hd Hd' _.
  exact (NextToken_illegal_tag sc l R n tag d rest Hp Hst Hl Ht Hd Hd').
Qed.

Lemma C4_illegal_tag_rejected_witness :
  exists k sc', NextToken C4_sc = Ret (k, sc') /\ TokenType k = undefined /\
    Error k = Some (NTErr (mkNTError ErrCodeFormatIllegalTag 1 1 (illegalTagMsg "-" ">"))).
Proof.
  apply (C4_illegal_tag_rejected C4_sc "->text" [] 0 "-"%char ">"%char "text");
    [vm_compute; repeat split | left; reflexivity | reflexivity | reflexivity
    | vm_compute; discriminate | vm_compute; discriminate | apply Nat.ltb_lt; reflexivity].
Defined.

(* ------------------------------------------------------------------------ *)
(** ** Consistency of reduced stack entries: the inline parser *)

Lemma notMixed_OutOfFuel : notMixed OutOfFuel.
Proof. intros nk nv H. discriminate H. Qed.

Lemma notMixed_first c m : c <> "m"%char -> notMixed (Panic (String c m)).
Proof. intros Hc nk nv H. injection H as H1 _. exact (Hc H1). Qed.

Lemma resOK_bind {A B : Type} (P : A -> Prop) (Q : B -> Prop) r k :
  resOK P r -> (forall a, P a -> resOK Q (k a)) -> resOK Q (res_bind r k).
Proof. destruct r; cbn; auto. Qed.

Lemma resOK_abort {A : Type} (r : res A) x :
  r = Abort x -> resOK (fun _ => True) r -> notMixed x.
Proof. intros ->. exact (fun h => h). Qed.

Ltac nomix := first [ exact notMixed_OutOfFuel
                    | apply notMixed_first; discriminate ].

Lemma goSlice_ok s lo hi : resOK (fun _ => True) (goSlice s lo hi).
Proof. unfold goSlice. destruct (_ && _); cbn; [exact I | nomix]. Qed.

Lemma substring_zero : forall m s, substring m 0 s = EmptyString.
Proof. induction m; destruct s; cbn; auto. Qed.

Lemma goSlice_same s m v : goSlice s m m = Ret v -> v = EmptyString.
Proof.
  unfold goSlice. destruct (_ && _); [|discriminate].
  intros H. injection H as <-. rewrite Nat.sub_diag. apply substring_zero.
Qed.

Lemma tableAt_ok s c : resOK (fun _ => True) (tableAt s c).
Proof.
  unfold tableAt, indexPanic. destruct (_ || _); cbn; [nomix|].
  destruct (nth_error _ _) as [row|]; cbn; [|nomix].
  destruct (nth_error row _); cbn; [exact I | nomix].
Qed.

Lemma tos_ok st : resOK (fun t => exists r, st = t :: r) (tos st).
Proof. destruct st as [|t r]; cbn; [nomix | exists r; reflexivity]. Qed.

Lemma updTos_ok f st :
  resOK (fun s' => exists t r, st = t :: r /\ s' = f t :: r) (updTos f st).
Proof. destruct st as [|t r]; cbn; [nomix | exists t, r; split; reflexivity]. Qed.


Lemma pushKV_ok str v st :
  resOK (fun s' => exists t r, st = t :: r /\ s' = pushedEntry str v t :: r) (pushKV str v st).
Proof.
  destruct st as [|t r]; cbn; [nomix|].
  destruct str as [k|]; [destruct (Keys t) eqn:E|]; cbn;
    exists t, r; unfold pushedEntry; rewrite ?E; split; reflexivity.
Qed.

Lemma pushedEntry_shape str v t :
  (Keys (pushedEntry str v t) = None <-> Keys t = None) /\
  Key (pushedEntry str v t) = Key t /\ NontermState (pushedEntry str v t) = NontermState t.
Proof.
  unfold pushedEntry. destruct str, (Keys t) eqn:E; cbn; rewrite ?E;
    (split; [split; intro H; first [reflexivity | discriminate H | exact H] | split; reflexivity]).
Qed.

Lemma pushedEntry_ok str v t :
  frame_ok t -> (Keys t = None \/ str <> None) -> frame_ok (pushedEntry str v t).
Proof.
  unfold frame_ok, pushedEntry. intros Hf Hk.
  destruct str as [k|], (Keys t) as [ks|] eqn:E; cbn; rewrite ?E; auto.
  - rewrite !length_app. cbn. lia.
  - destruct Hk as [Hk|Hk]; [discriminate Hk | congruence].
Qed.

(** Run a step [m] whose outcome is described by the lemma [L]. *)
Ltac rstep m L E HL :=
  destruct m as [?|?] eqn:E; cbn [res_bind];
  [ pose proof L as HL; rewrite E in HL; cbn [resOK] in HL
  | pose proof L as HL; rewrite E in HL; exact HL ].

Lemma appendStringValue_ok a p t rest :
  istack p = t :: rest -> frame_ok t ->
  (Keys t = None \/ Key t <> None \/ (Values t = [] /\ Marker p = TextPosition p /\ a = true)) ->
  resOK (fun p' => exists t', istack p' = t' :: rest /\ frame_ok t' /\ sameShape t t' /\
           ireduced p' = ireduced p /\ Marker p' = Marker p /\ TextPosition p' = TextPosition p)
        (appendStringValue a p).
Proof.
  intros Hs Hf Hc. unfold appendStringValue.
  rstep (goSlice (IText p) (Marker p) (TextPosition p)) (goSlice_ok (IText p) (Marker p) (TextPosition p)) E HG.
  clear HG.
  rewrite Hs. cbn [tos res_bind].
  destruct (Key t) as [k|] eqn:Ek.
  - rstep (pushKV (Some k) (VStr (TrimSpace a0)) (t :: rest))
          (pushKV_ok (Some k) (VStr (TrimSpace a0)) (t :: rest)) Ep HL.
    destruct HL as [t1 [r1 [Heq ->]]]. injection Heq as <- <-.
    exists (pushedEntry (Some k) (VStr (TrimSpace a0)) t). cbn [resOK set_istack istack ireduced Marker TextPosition].
    split; [reflexivity|]. split; [apply pushedEntry_ok; [exact Hf | right; discriminate]|].
    split; [|repeat split; reflexivity].
    destruct (pushedEntry_shape (Some k) (VStr (TrimSpace a0)) t) as [H1 [H2 H3]].
    repeat split; try tauto; congruence.
  - destruct (negb a || _ || _) eqn:Eb.
    + rstep (pushKV None (VStr (TrimSpace a0)) (t :: rest))
            (pushKV_ok None (VStr (TrimSpace a0)) (t :: rest)) Ep HL.
      destruct HL as [t1 [r1 [Heq ->]]]. injection Heq as <- <-.
      assert (Hn : Keys t = None).
      { destruct Hc as [Hc|[Hc|[Hv [Hm ->]]]]; [exact Hc | congruence |].
        rewrite Hm in E. apply goSlice_same in E. subst a0.
        rewrite Hv in Eb. discriminate Eb. }
      exists (pushedEntry None (VStr (TrimSpace a0)) t). cbn [resOK set_istack istack ireduced Marker TextPosition].
      split; [reflexivity|]. split; [apply pushedEntry_ok; [exact Hf | left; exact Hn]|].
      split; [|repeat split; reflexivity].
      destruct (pushedEntry_shape None (VStr (TrimSpace a0)) t) as [H1 [H2 H3]].
      repeat split; try tauto; congruence.
    + exists t. repeat split; auto.
Qed.

Lemma inlineTokenFor_range ch :
  let c := inlineTokenFor ch in
  c = 0%Z \/ c = 1%Z \/ c = 2%Z \/ c = 3%Z \/ c = 4%Z \/ c = 5%Z \/ c = 6%Z \/ c = 7%Z \/ c = 8%Z.
Proof.
  unfold inlineTokenFor.
  repeat match goal with |- context [if ?b then _ else _] => destruct b end; cbn; tauto.
Qed.

Lemma ReduceToItem_ok t : frame_ok t -> exists v, ReduceToItem t = Ret v.
Proof.
  unfold frame_ok, ReduceToItem. destruct (Keys t) as [ks|]; intros H; [|eexists; reflexivity].
  rewrite H, Nat.eqb_refl, andb_false_r. eexists; reflexivity.
Qed.

Lemma inlineFinish_ok st r p :
  Forall frame_ok (ireduced p) ->
  resOK (fun '(_, _, p') => Forall frame_ok (ireduced p')) (inlineFinish st r p).
Proof.
  intros H. unfold inlineFinish.
  destruct (isErrorState st); [|exact H].
  destruct (istack p) as [|t _]; [cbn; nomix|].
  destruct (EntryError t); exact H.
Qed.

Lemma appendStringValue_ok2 a q t rest :
  istack q = t :: rest -> frame_ok t ->
  (Keys t = None \/ Key t <> None \/ (Values t = [] /\ Marker q = TextPosition q /\ a = true)) ->
  resOK (fun p' => exists t', p' = set_istack (t' :: rest) q /\ frame_ok t' /\ sameShape t t')
        (appendStringValue a q).
Proof.
  intros Hs Hf Hc. unfold appendStringValue.
  rstep (goSlice (IText q) (Marker q) (TextPosition q)) (goSlice_ok (IText q) (Marker q) (TextPosition q)) E HG.
  clear HG. rewrite Hs. cbn [tos res_bind].
  destruct (Key t) as [k|] eqn:Ek.
  - rstep (pushKV (Some k) (VStr (TrimSpace a0)) (t :: rest))
          (pushKV_ok (Some k) (VStr (TrimSpace a0)) (t :: rest)) Ep HL.
    destruct HL as [t1 [r1 [Heq ->]]]. injection Heq as <- <-.
    exists (pushedEntry (Some k) (VStr (TrimSpace a0)) t).
    split; [reflexivity|]. split; [apply pushedEntry_ok; [exact Hf | right; discriminate]|].
    destruct (pushedEntry_shape (Some k) (VStr (TrimSpace a0)) t) as [H1 [H2 H3]].
    repeat split; try tauto; congruence.
  - destruct (negb a || _ || _) eqn:Eb.
    + rstep (pushKV None (VStr (TrimSpace a0)) (t :: rest))
            (pushKV_ok None (VStr (TrimSpace a0)) (t :: rest)) Ep HL.
      destruct HL as [t1 [r1 [Heq ->]]]. injection Heq as <- <-.
      assert (Hn : Keys t = None).
      { destruct Hc as [Hc|[Hc|[Hv [Hm ->]]]]; [exact Hc | congruence |].
        rewrite Hm in E. apply goSlice_same in E. subst a0.
        rewrite Hv in Eb. discriminate Eb. }
      exists (pushedEntry None (VStr (TrimSpace a0)) t).
      split; [reflexivity|]. split; [apply pushedEntry_ok; [exact Hf | left; exact Hn]|].
      destruct (pushedEntry_shape None (VStr (TrimSpace a0)) t) as [H1 [H2 H3]].
      repeat split; try tauto; congruence.
    + exists t. split; [destruct q; cbn in *; subst; reflexivity|]. repeat split; auto.
Qed.

Lemma ti_fresh st t m tp : (st = 11%Z \/ st = 1%Z /\ m = tp) -> Keys t <> None ->
  Values t = [] -> Key t = None -> topInv st t m tp.
Proof. intros; left; auto. Qed.
Lemma ti_dict st t m tp : (st = 2%Z \/ st = 6%Z) -> Keys t <> None -> topInv st t m tp.
Proof. intros; right; left; auto. Qed.
Lemma ti_key st t m tp : (st = 3%Z \/ st = 4%Z \/ st = 5%Z) -> Keys t <> None -> Key t <> None ->
  topInv st t m tp.
Proof. intros; right; right; left; auto. Qed.
Lemma ti_list st t m tp : (st = 12%Z \/ st = 7%Z \/ st = 8%Z \/ st = 9%Z \/ st = 10%Z) ->
  Keys t = None -> topInv st t m tp.
Proof. intros; right; right; right; auto. Qed.

Ltac evz := repeat match goal with
  | |- context [tableAt ?a ?b] =>
      let v := eval vm_compute in (tableAt a b) in progress change (tableAt a b) with v
  | |- context [isNonterm ?a] =>
      let v := eval vm_compute in (isNonterm a) in progress change (isNonterm a) with v
  | |- context [isAccept ?a] =>
      let v := eval vm_compute in (isAccept a) in progress change (isAccept a) with v
  | |- context [isErrorState ?a] =>
      let v := eval vm_compute in (isErrorState a) in progress change (isErrorState a) with v
  | |- context [isGhost ?a] =>
      let v := eval vm_compute in (isGhost a) in progress change (isGhost a) with v
  | |- context [Z.eqb ?a ?b] =>
      let v := eval vm_compute in (Z.eqb a b) in progress change (Z.eqb a b) with v
  | |- context [_S ?a] =>
      let v := eval vm_compute in (_S a) in progress change (_S a) with v
  end.

Ltac zd := first [reflexivity | left; zd | right; zd].

(** Facts about the entries in the context, in the forms the steps use. *)
Ltac keys_facts :=
  repeat match goal with
  | H : sameShape ?t ?t' |- _ =>
      let H1 := fresh "Hsk" in let H2 := fresh "Hsy" in let H3 := fresh "Hsn" in
      destruct H as [H1 [H2 H3]]
  end.

Ltac solve_keys :=
  keys_facts;
  try match goal with |- context [pushedEntry ?k ?v ?t] =>
        destruct (pushedEntry_shape k v t) as [? [? ?]] end;
  repeat match goal with
         | H : (?x = None <-> _) |- context [?x] => rewrite H
         | H : Key ?a = Key ?b |- context [Key ?a] => rewrite H
         | H : NontermState ?a = NontermState ?b |- context [NontermState ?a] => rewrite H
         end;
  cbn [Keys Key Values NontermState set_Key set_NontermState newEntry pushedEntry] in *;
  first [ assumption | reflexivity | discriminate | congruence | tauto ].

Ltac solve_top := first
  [ apply ti_list; [zd | solve_keys]
  | apply ti_key; [zd | solve_keys | solve_keys]
  | apply ti_dict; [zd | solve_keys]
  | apply ti_fresh; [right; split; [reflexivity | lia] | solve_keys | solve_keys | solve_keys]
  | apply ti_fresh; [left; reflexivity | solve_keys | solve_keys | solve_keys] ].

Ltac fo := first [ assumption | exact I | reflexivity
  | apply pushedEntry_ok; [assumption | first [left; solve_keys | right; solve_keys]]
  | unfold frame_ok; cbn; first [exact I | reflexivity] ].

Ltac headof e := lazymatch e with res_bind ?m _ => headof m | _ => e end.

Ltac appcond := first [ left; solve_keys | right; left; solve_keys
                      | right; right; split; [solve_keys | split; [cbn; lia | reflexivity]] ].

Ltac simp := unfold set_TextPosition, set_IInput, set_Marker, set_istack, log_reduce,
                ipushNonterm, push, pop in *;
  cbn [res_bind negb andb orb istack ireduced Marker TextPosition IText IInput ILineNo
                  set_TextPosition set_IInput set_Marker set_istack log_reduce ipushNonterm push pop tl
                  tos updTos] in *.

Ltac sx1 :=
  match goal with |- resOK _ ?e =>
  let h := headof e in
  lazymatch h with
  | (if ?b then _ else _) => destruct b
  | goSlice ?a ?b ?c =>
      let E := fresh "E" in let H := fresh "H" in rstep h (goSlice_ok a b c) E H; clear H E
  | appendStringValue ?a (mkInline ?x1 ?x2 ?x3 ?x4 ?x5 (?t :: ?rest) ?x7) =>
      let E := fresh "E" in let H := fresh "H" in
      let t' := fresh "t" in let Hf' := fresh "Hf" in let Hsh := fresh "Hsh" in
      rstep h (appendStringValue_ok2 a (mkInline x1 x2 x3 x4 x5 (t :: rest) x7) t rest
                 eq_refl ltac:(fo) ltac:(appcond)) E H;
      destruct H as [t' [-> [Hf' Hsh]]]; clear E
  | ReduceToItem ?t =>
      let v := fresh "v" in let E := fresh "E" in
      destruct (ReduceToItem_ok t ltac:(fo)) as [v E]; rewrite E
  | pushKV ?k ?v (?t :: ?r) =>
      let E := fresh "E" in let H := fresh "H" in let Heq := fresh "Heq" in
      rstep h (pushKV_ok k v (t :: r)) E H;
      destruct H as [? [? [Heq ->]]]; injection Heq as <- <-; clear E
  | match ?x with [] => _ | _ :: _ => _ end => destruct x
  end end.

Lemma chain_top t t' rest : chain (t :: rest) -> NontermState t' = NontermState t -> chain (t' :: rest).
Proof. destruct rest; cbn; [trivial|]. intros [H1 H2] E. rewrite E. split; assumption. Qed.

Ltac fos := repeat (first [apply Forall_nil | apply Forall_cons; [fo|] | assumption]).
Ltac solve_chain := first
  [ assumption
  | eapply chain_top; [eassumption | solve_keys]
  | cbn [chain]; split;
      [ first [ left; split; [solve_keys | split; solve_keys]
              | right; split; [solve_keys | solve_keys] ]
      | first [assumption | eapply chain_top; [eassumption | solve_keys]] ] ].
Ltac fin_accept IH :=
  keys_facts;
  repeat match goal with H : Forall frame_ok (_ :: _) |- _ => apply Forall_cons_iff in H as [? ?] end;
  try match goal with H : NontermState ?a = NontermState ?b |- context [NontermState ?a] =>
        rewrite H end;
  match goal with H : chain (_ :: _ :: _) |- _ =>
    cbn [chain] in H;
    let Hn := fresh "Hn" in let H2 := fresh "Hch" in
    destruct H as [[[Hn [? ?]]|[Hn ?]] H2]; rewrite Hn
  end.

Ltac fin_loop IH :=
  apply IH; unfold IInv; simp; keys_facts;
  split; [fos | split; [fos | ]];
  cbn [istack]; first [exact I | split; [solve_top | solve_chain]].

Lemma inlineLoop_ok : forall inp p state result, IInv p state ->
  resOK (fun '(_, _, p') => Forall frame_ok (ireduced p')) (inlineLoop inp p state result).
Proof.
  induction inp as [|ch inp IH]; intros p state result [Hst [Hred Htop]].
  - cbn [inlineLoop]. destruct (istack p); [apply inlineFinish_ok; exact Hred | exact Hred].
  - cbn [inlineLoop]. destruct (istack p) as [|t rest] eqn:Hs; [apply inlineFinish_ok; exact Hred|].
    destruct Htop as [Htop Hch].
    destruct p as [txt tp mk inp0 ln st red]; cbn in Hs, Hred, Htop; subst st.
    apply Forall_cons_iff in Hst as [Hft Hfr].
    destruct (inlineTokenFor_range ch) as [Hc|[Hc|[Hc|[Hc|[Hc|[Hc|[Hc|[Hc|Hc]]]]]]]];
    rewrite Hc;
    destruct Htop as [[[->|[-> Hm]] [Hk [Hv Hkey]]]|[[[->| ->] Hk]|[[[->|[->| ->]] [Hk Hkey]]|[[->|[->|[->|[->| ->]]]] Hk]]]];
    evz; cbn [res_bind negb orb andb]; unfold inlineAction;
    do 3 (evz; cbn [res_bind negb orb andb]).
    all: try (apply inlineFinish_ok; exact Hred).
    all: repeat (simp; evz; sx1); simp; evz; simp.
    all: try solve [fin_loop IH].
    all: try solve [fin_accept IH; fin_loop IH].
Qed.

Lemma inline_parse_ok initial input ln : (initial = _S1 \/ initial = _S2) ->
  resOK (fun '(_, _, log) => Forall frame_ok log) (inline_parse initial input ln).
Proof.
  intros Hi. unfold inline_parse.
  apply (resOK_bind (fun '(_, _, p') => Forall frame_ok (ireduced p'))).
  - apply inlineLoop_ok. unfold IInv, ipushNonterm, set_istack, push. cbn [istack ireduced Marker TextPosition].
    destruct Hi as [-> | ->].
    + split; [repeat constructor|]. split; [constructor|].
      split; [apply ti_fresh; [left; reflexivity | discriminate | reflexivity | reflexivity] | exact I].
    + split; [repeat constructor|]. split; [constructor|].
      split; [apply ti_list; [left; reflexivity | reflexivity] | exact I].
  - intros [[r err] p'] H. exact H.
Qed.

(* ------------------------------------------------------------------------ *)
(** ** Abort messages of the scanner *)

Lemma recognizeInlineItem_ok tt b k : resOK (fun _ => True) (recognizeInlineItem tt b k).
Proof.
  unfold recognizeInlineItem. destruct (String.get _ _); [|cbn; nomix].
  destruct (ReadLineRemainder b). exact I.
Qed.

Lemma runStep_ok st b k : resOK (fun _ => True) (runStep st b k).
Proof.
  destruct st; cbn [runStep];
    repeat match goal with
           | |- resOK _ (if ?c then _ else _) => destruct c
           | |- resOK _ (match ?x with _ => _ end) => destruct x
           end; try exact I; try (cbn [resOK]; nomix).
  all: apply (resOK_bind (fun _ => True)); [apply recognizeInlineItem_ok | intros [k1 b1] _; exact I].
Qed.

Lemma stepLoop_ok : forall fuel st b k, resOK (fun _ => True) (stepLoop fuel st b k).
Proof.
  induction fuel as [|f IH]; intros st b k; cbn [stepLoop]; [nomix|].
  apply (resOK_bind (fun _ => True)); [apply runStep_ok|].
  intros [[k1 b1] next] _. destruct (Error k1); [exact I|].
  destruct next; [apply IH | exact I].
Qed.

Lemma NextToken_ok sc : resOK (fun _ => True) (NextToken sc).
Proof.
  unfold NextToken. apply (resOK_bind (fun _ => True)); [apply stepLoop_ok|].
  intros [[k1 b1] next] _. exact I.
Qed.

(* ------------------------------------------------------------------------ *)
(** ** Consistency of reduced stack entries: the line parser *)

Lemma pbind_ok {A B : Type} (P : A -> pstate -> Prop) (Q : B -> pstate -> Prop)
  (m : PM A) (k : A -> PM B) s :
  pOK P (m s) -> (forall a s1, P a s1 -> pOK Q (k a s1)) -> pOK Q (pbind m k s).
Proof.
  unfold pbind, pOK. destruct (m s) as [[a s1]|x]; [|tauto]. intros H Hk. exact (Hk a s1 H).
Qed.

Lemma pret_ok {A : Type} (Q : A -> pstate -> Prop) a s : Q a s -> pOK Q (pret a s).
Proof. intros H; exact H. Qed.

Lemma pabort_ok {A : Type} (Q : A -> pstate -> Prop) x s : notMixed x -> pOK Q (pabort x s).
Proof. intros H; exact H. Qed.

Lemma getToken_ok s : pOK (fun k s1 => k = token s /\ s1 = s) (getToken s).
Proof. split; reflexivity. Qed.

Lemma nextToken_ok s :
  pOK (fun _ s1 => stack s1 = stack s /\ reduced s1 = reduced s) (nextToken s).
Proof.
  unfold nextToken. pose proof (NextToken_ok (sc s)) as H.
  destruct (NextToken (sc s)) as [[k sc']|x]; cbn; [split; reflexivity | exact H].
Qed.

Lemma plift_ok {A : Type} (P : A -> Prop) (r : res A) s :
  resOK P r -> pOK (fun a s1 => P a /\ s1 = s) (plift r s).
Proof. unfold plift. destruct r; cbn; [intros H; split; auto | auto]. Qed.

Lemma contentAt_ok k i : resOK (fun _ => True) (contentAt k i).
Proof. unfold contentAt. destruct (nth_error _ _); [exact I | cbn; nomix]. Qed.

Lemma pushNonterm_ok b s :
  pOK (fun _ s1 => stack s1 = newEntry b :: stack s /\ reduced s1 = reduced s) (pushNonterm b s).
Proof. split; reflexivity. Qed.

Lemma stackPushKV_ok str v s :
  pOK (fun _ s1 => exists t r, stack s = t :: r /\ stack s1 = pushedEntry str v t :: r
                               /\ reduced s1 = reduced s) (stackPushKV str v s).
Proof.
  unfold stackPushKV, modifyStack. pose proof (pushKV_ok str v (stack s)) as H.
  destruct (pushKV str v (stack s)) as [st|x]; cbn in *; [|exact H].
  destruct H as [t [r [E1 E2]]]. exists t, r. auto.
Qed.

Lemma reduceTos_ok s : Forall frame_ok (stack s) ->
  pOK (fun _ s1 => exists t r, stack s = t :: r /\ stack s1 = stack s
                               /\ reduced s1 = t :: reduced s) (reduceTos s).
Proof.
  unfold reduceTos. intros H. destruct (stack s) as [|t r] eqn:E; cbn; [nomix|].
  apply Forall_cons_iff in H as [Ht _].
  destruct (ReduceToItem_ok t Ht) as [v ->]. cbn. exists t, r. auto.
Qed.

Lemma popStack_ok s :
  pOK (fun _ s1 => stack s1 = pop (stack s) /\ reduced s1 = reduced s) (popStack s).
Proof. split; reflexivity. Qed.

Lemma logReduced_ok ts s :
  pOK (fun _ s1 => stack s1 = stack s /\ reduced s1 = ts ++ reduced s) (logReduced ts s).
Proof. split; reflexivity. Qed.

Lemma continuationLoop_ok : forall fuel typ indent acc s,
  pOK (fun _ s1 => stack s1 = stack s /\ reduced s1 = reduced s)
      (continuationLoop fuel typ indent acc s).
Proof.
  induction fuel as [|f IH]; intros typ indent acc s; cbn [continuationLoop]; [nomix|].
  apply (pbind_ok _ _ _ _ _ (nextToken_ok s)). intros k s1 [E1 E2].
  destruct (Error k); [apply pret_ok; auto|].
  destruct (_ || _); [apply pret_ok; auto|].
  generalize (IH typ indent (acc ++ nl ++ allowVoid (Content k) 0)%string s1).
  destruct (continuationLoop _ _ _ _ _) as [[a s2]|x]; cbn; [intros [-> ->]; auto | auto].
Qed.

Lemma Good_same s s1 : stack s1 = stack s -> reduced s1 = reduced s -> Good s -> Good s1.
Proof. unfold Good. intros -> ->. auto. Qed.

Ltac pb L := apply (pbind_ok _ _ _ _ _ L); cbv beta iota.

Lemma notMixed_unknown t : notMixed (Panic (unknownItemMsg t)).
Proof. unfold unknownItemMsg. cbn [append]. apply notMixed_first. discriminate. Qed.

Lemma parseListItem_ok i s : Good s -> pOK (VS s) (parseListItem i s).
Proof.
  intros HG. unfold parseListItem.
  pb (getToken_ok s). intros k s1 [-> ->].
  destruct (i <? Indent (token s)); [apply pret_ok; split; [exact HG | discriminate]|].
  destruct (Indent (token s) <? i); [apply pret_ok; split; [exact HG | reflexivity]|].
  pb (plift_ok _ _ s (contentAt_ok (token s) 0)). intros v s2 [_ ->].
  pb (nextToken_ok s). intros k' s3 [E1 E2].
  destruct (Error k'); apply pret_ok; (split; [exact (Good_same s s3 E1 E2 HG) | auto]).
Qed.

Lemma parseDictKeyValuePair_ok i s : Good s -> pOK (PS s) (parseDictKeyValuePair i s).
Proof.
  intros HG. unfold parseDictKeyValuePair.
  pb (getToken_ok s). intros k s1 [-> ->].
  destruct (negb _); [apply pret_ok; split; [exact HG | split; [auto | discriminate]]|].
  pb (plift_ok _ _ s (contentAt_ok (token s) 0)). intros key s2 [_ ->].
  pb (plift_ok _ _ s (contentAt_ok (token s) 1)). intros v s2 [_ ->].
  pb (nextToken_ok s). intros k' s3 [E1 E2].
  destruct (Error k'); apply pret_ok;
    (split; [exact (Good_same s s3 E1 E2 HG) | split; [auto | cbn; first [discriminate | auto]]]).
Qed.

Lemma parseMultiString_ok f i s : Good s -> pOK (VS s) (parseMultiString f i s).
Proof.
  intros HG. unfold parseMultiString.
  pb (getToken_ok s). intros k s1 [-> ->].
  destruct (negb _); [apply pret_ok; split; [exact HG | auto]|].
  pb (continuationLoop_ok f stringMultiline i (allowVoid (Content (token s)) 0) s).
  intros [str err] s2 [E1 E2]. apply pret_ok. split; [exact (Good_same s s2 E1 E2 HG) | auto].
Qed.

Lemma parseInline_ok initial s : (initial = _S1 \/ initial = _S2) -> Good s ->
  pOK (VS s) (parseInline initial s).
Proof.
  intros Hi HG. unfold parseInline.
  pb (getToken_ok s). intros k s1 [-> ->].
  pb (plift_ok _ _ s (contentAt_ok (token s) 0)). intros c s2 [_ ->].
  pb (plift_ok _ _ s (inline_parse_ok initial c (LineNo (token s)) Hi)).
  intros [[r err] log] s2 [Hlog ->].
  pb (logReduced_ok log s). intros u s3 [E1 E2].
  assert (HG3 : Good s3).
  { destruct HG as [Hs Hr]. split; [rewrite E1; exact Hs | rewrite E2; apply Forall_app; auto]. }
  destruct err; [apply pret_ok; split; [exact HG3 | discriminate]|].
  pb (nextToken_ok s3). intros k' s4 [E3 E4].
  destruct (Error k'); apply pret_ok;
    (split; [exact (Good_same s3 s4 E3 E4 HG3) | intros _; congruence]).
Qed.

Lemma Good_reduce_pop s3 t r s5 : Good s3 -> stack s3 = t :: r -> stack s5 = r ->
  reduced s5 = t :: reduced s3 -> Good s5.
Proof.
  intros [Hs Hr] E1 E2 E3. rewrite E1 in Hs. apply Forall_cons_iff in Hs as [Ht Hr'].
  split; [rewrite E2; exact Hr' | rewrite E3; constructor; assumption].
Qed.

Lemma Good_push s2 s3 str v t r : Good s2 -> stack s2 = t :: r ->
  stack s3 = pushedEntry str v t :: r -> reduced s3 = reduced s2 ->
  (Keys t = None \/ str <> None) -> Good s3.
Proof.
  intros [Hs Hr] E1 E2 E3 Hk. rewrite E1 in Hs. apply Forall_cons_iff in Hs as [Ht Hr'].
  split; [rewrite E2; constructor; [apply pushedEntry_ok; assumption | exact Hr'] | rewrite E3; exact Hr].
Qed.

Lemma Good_newEntry s s1 b : Good s -> stack s1 = newEntry b :: stack s ->
  reduced s1 = reduced s -> Good s1.
Proof.
  intros [Hs Hr] E1 E2. split; [rewrite E1; constructor; [|exact Hs] | rewrite E2; exact Hr].
  unfold frame_ok. destruct b; cbn; [reflexivity | exact I].
Qed.

Ltac vfin := apply pret_ok; unfold VS, PS, LS; cbn [fst snd];
  split; [assumption | repeat split; try discriminate; try (intros; discriminate); auto].

Lemma Good_parser : forall f,
  (forall i s, Good s -> pOK (VS s) (parseAny f i s)) /\
  (forall i s, Good s -> pOK (VS s) (parseList f i s)) /\
  (forall i s t r, Good s -> stack s = t :: r -> (Keys t = None <-> false = false) ->
     pOK (LS false r) (parseListItems f i s)) /\
  (forall i s, Good s -> pOK (VS s) (parseListItemMultiline f i s)) /\
  (forall i s, Good s -> pOK (VS s) (parseDict f i s)) /\
  (forall i s t r, Good s -> stack s = t :: r -> (Keys t = None <-> true = false) ->
     pOK (LS true r) (parseDictKeyValuePairs f i s)) /\
  (forall i s, Good s -> pOK (PS s) (parseDictKeyAnyValuePair f i s)) /\
  (forall i s, Good s -> pOK (PS s) (parseDictKeyValuePairWithMultilineKey f i s)).
Proof.
  induction f as [|f IH].
  { repeat match goal with |- _ /\ _ => split end; intros; cbn; nomix. }
  destruct IH as [IAny [IList [IItems [IMul [IDict [IPairs [IAnyPair IMulKey]]]]]]].
  repeat match goal with |- _ /\ _ => split end.
  - (* parseAny *)
    intros i s HG. cbn [parseAny].
    pb (getToken_ok s). intros k s1 [-> ->].
    destruct (Indent (token s) <? i); [vfin|].
    destruct (TokenType (token s));
      first [ apply parseMultiString_ok; exact HG
            | apply parseInline_ok; [auto | exact HG]
            | apply IList; exact HG
            | apply IDict; exact HG
            | apply pabort_ok; apply notMixed_unknown ].
  - (* parseList *)
    intros i s HG. cbn [parseList].
    pb (pushNonterm_ok false s). intros u s1 [E1 E2].
    pose proof (Good_newEntry s s1 false HG E1 E2) as HG1.
    pb (getToken_ok s1). intros k s2 [-> ->].
    pb (IItems (Indent (token s1)) s1 (newEntry false) (stack s) HG1 E1 ltac:(cbn; tauto)).
    intros err s3 [HG3 Hs3].
    destruct err; [vfin|].
    destruct (Hs3 eq_refl) as [t' [E3 _]].
    pb (reduceTos_ok s3 (proj1 HG3)). intros v s4 [t [rr [E4 [E5 E6]]]].
    rewrite E3 in E4. injection E4 as Et Er. subst t rr.
    pb (popStack_ok s4). intros u' s5 [E7 E8].
    rewrite E5, E3 in E7. cbn in E7. rewrite E6 in E8.
    pose proof (Good_reduce_pop s3 t' (stack s) s5 HG3 E3 E7 E8). vfin.
  - (* parseListItems *)
    intros i s t r HG Hs Hk. cbn [parseListItems].
    pb (getToken_ok s). intros k s1 [-> ->].
    destruct (negb _); [apply pret_ok; split; [exact HG | intros _; exists t; auto]|].
    match goal with |- pOK _ (pbind ?m _ _) => assert (Hitem : pOK (VS s) (m s)) end.
    { destruct (tt_eqb _ _); [apply parseListItem_ok | apply IMul]; exact HG. }
    pb Hitem. intros [v err] s2 [HG2 Hs2]. cbn [snd] in Hs2.
    destruct err; [vfin|]. specialize (Hs2 eq_refl).
    destruct (isNil v); [apply pret_ok; split; [exact HG2 | intros _; exists t; rewrite Hs2; auto]|].
    pb (stackPushKV_ok None v s2). intros u s3 [t0 [r0 [E1 [E2 E3]]]].
    rewrite Hs2, Hs in E1. injection E1 as Et Er. subst t0 r0.
    apply (IItems i s3 (pushedEntry None v t) r); [| exact E2 |].
    + apply (Good_push s2 s3 None v t r); [exact HG2 | congruence | exact E2 | exact E3 | left; tauto].
    + destruct (pushedEntry_shape None v t) as [H1 _]. rewrite H1. exact Hk.
  - (* parseListItemMultiline *)
    intros i s HG. cbn [parseListItemMultiline].
    pb (getToken_ok s). intros k s1 [-> ->].
    destruct (negb _); [vfin|].
    pb (nextToken_ok s). intros k1 s2 [E1 E2].
    pose proof (Good_same s s2 E1 E2 HG) as HG2.
    destruct (Error k1); [vfin|].
    destruct (Indent k1 <=? i); [vfin|].
    pb (IAny (Indent k1) s2 HG2). intros [r err] s3 [HG3 Hs3].
    pb (getToken_ok s3). intros k2 s4 [-> ->].
    destruct (i <? _); [vfin|].
    apply pret_ok. split; [exact HG3 | intros He; rewrite (Hs3 He); exact E1].
  - (* parseDict *)
    intros i s HG. cbn [parseDict].
    pb (pushNonterm_ok true s). intros u s1 [E1 E2].
    pose proof (Good_newEntry s s1 true HG E1 E2) as HG1.
    pb (getToken_ok s1). intros k s2 [-> ->].
    pb (IPairs (Indent (token s1)) s1 (newEntry true) (stack s) HG1 E1
          ltac:(cbn; split; discriminate)).
    intros err s3 [HG3 Hs3].
    destruct err; [vfin|].
    destruct (Hs3 eq_refl) as [t' [E3 _]].
    pb (reduceTos_ok s3 (proj1 HG3)). intros v s4 [t [rr [E4 [E5 E6]]]].
    rewrite E3 in E4. injection E4 as Et Er. subst t rr.
    pb (popStack_ok s4). intros u' s5 [E7 E8].
    rewrite E5, E3 in E7. cbn in E7. rewrite E6 in E8.
    pose proof (Good_reduce_pop s3 t' (stack s) s5 HG3 E3 E7 E8).
    pb (getToken_ok s5). intros k' s6 [-> ->].
    destruct (i <? _); vfin.
  - (* parseDictKeyValuePairs *)
    intros i s t r HG Hs Hk. cbn [parseDictKeyValuePairs].
    pb (getToken_ok s). intros k s1 [-> ->].
    destruct (negb _); [apply pret_ok; split; [exact HG | intros _; exists t; auto]|].
    match goal with |- pOK _ (pbind ?m _ _) => assert (Hpair : pOK (PS s) (m s)) end.
    { destruct (TokenType (token s));
        first [apply parseDictKeyValuePair_ok | apply IAnyPair | apply IMulKey]; exact HG. }
    pb Hpair. intros [[key v] err] s2 [HG2 [Hs2 Hkey]]. cbn [fst snd] in Hs2, Hkey.
    destruct (isNil v) eqn:Hn.
    + apply pret_ok. split; [exact HG2 | intros He; exists t; rewrite (Hs2 He); auto].
    + destruct err; [vfin|]. specialize (Hs2 eq_refl). specialize (Hkey eq_refl).
      pb (stackPushKV_ok key v s2). intros u s3 [t0 [r0 [E1 [E2 E3]]]].
      rewrite Hs2, Hs in E1. injection E1 as Et Er. subst t0 r0.
      apply (IPairs i s3 (pushedEntry key v t) r); [| exact E2 |].
      * apply (Good_push s2 s3 key v t r); [exact HG2 | congruence | exact E2 | exact E3 | right; exact Hkey].
      * destruct (pushedEntry_shape key v t) as [H1 _]. rewrite H1. exact Hk.
  - (* parseDictKeyAnyValuePair *)
    intros i s HG. cbn [parseDictKeyAnyValuePair].
    pb (getToken_ok s). intros k s1 [-> ->].
    destruct (negb _); [vfin|].
    pb (plift_ok _ _ s (contentAt_ok (token s) 0)). intros key s2 [_ ->].
    pb (nextToken_ok s). intros k1 s2 [E1 E2].
    pose proof (Good_same s s2 E1 E2 HG) as HG2.
    destruct (Error k1); [vfin|].
    destruct (Indent k1 <=? i); [vfin|].
    pb (IAny (Indent k1) s2 HG2). intros [v err] s3 [HG3 Hs3].
    apply pret_ok. split; [exact HG3|]. cbn [fst snd].
    split; [intros He; rewrite (Hs3 He); exact E1 | intros _; discriminate].
  - (* parseDictKeyValuePairWithMultilineKey *)
    intros i s HG. cbn [parseDictKeyValuePairWithMultilineKey].
    pb (getToken_ok s). intros k s1 [-> ->].
    destruct (negb _); [vfin|].
    pb (continuationLoop_ok f dictKeyMultiline i (allowVoid (Content (token s)) 0) s).
    intros [key err] s2 [E1 E2].
    pose proof (Good_same s s2 E1 E2 HG) as HG2.
    destruct err; [vfin|].
    pb (getToken_ok s2). intros k1 s3 [-> ->].
    destruct (Indent (token s2) <=? i); [vfin|].
    pb (IAny (Indent (token s2)) s2 HG2). intros [v err'] s3 [HG3 Hs3].
    apply pret_ok. split; [exact HG3|]. cbn [fst snd].
    split; [intros He; rewrite (Hs3 He); exact E1 | intros _; discriminate].
Qed.

Lemma parseDocument_ok fuel s : Good s ->
  pOK (fun _ s1 => Good s1) (parseDocument fuel s).
Proof.
  intros HG. unfold parseDocument.
  pb (nextToken_ok s). intros k s1 [E1 E2].
  pose proof (Good_same s s1 E1 E2 HG) as HG1.
  destruct (Error k); [apply pret_ok; exact HG1|].
  destruct (_ || _); [apply pret_ok; exact HG1|].
  pb (nextToken_ok s1). intros k1 s2 [E3 E4].
  pose proof (Good_same s1 s2 E3 E4 HG1) as HG2.
  destruct (Error k1); [apply pret_ok; exact HG2|].
  pb (proj1 (Good_parser fuel) 0 s2 HG2). intros [r err] s3 [HG3 _].
  pb (getToken_ok s3). intros k2 s4 [-> ->].
  destruct err; [apply pret_ok; exact HG3|].
  destruct (negb _); apply pret_ok; exact HG3.
Qed.

Lemma ParseRun_ok fuel opts r :
  resOK (fun '(_, _, log) => Forall frame_ok log) (ParseRun fuel opts r).
Proof.
  unfold ParseRun. destruct (applyOptions opts EmptyString) as [top err].
  destruct err; [constructor|].
  unfold parserParse. destruct (newScanner r) as [[s|] [e0|]]; try constructor; [|cbn; nomix].
  generalize (parseDocument_ok fuel (initState s) (conj (Forall_nil _) (Forall_nil _))).
  destruct (parseDocument fuel (initState s)) as [[[v e1] st]|x]; cbn; [|auto].
  intros [_ Hr]. destruct e1; exact Hr.
Qed.

(** C9: in every run of [Parse] on any document and options, every stack
    entry reduced by the line parser or by the inline automaton (the
    ghost log returned by [ParseRun]) has as many keys as values whenever
    it carries a key list, and the run never aborts with the mixed-item
    panic of [ReduceToItem]. *)
Theorem C9_reduced_frames_consistent : forall fuel opts r,
  (forall v err log, ParseRun fuel opts r = Ret (v, err, log) ->
     Forall (fun t => match Keys t with
                      | Some ks => length ks = length (Values t)
                      | None => True end) log) /\
  (forall nk nv, ParseRun fuel opts r <> Abort (Panic (mixedItemMsg nk nv))).
Proof.
  intros fuel opts r. pose proof (ParseRun_ok fuel opts r) as H.
  split.
  - intros v err log E. rewrite E in H. exact H.
  - intros nk nv E. rewrite E in H. exact (H nk nv eq_refl).
Qed.

(* ------------------------------------------------------------------------ *)
(** ** Options: invalid and repeated [TopLevel] options *)

Lemma Parse_options fuel opts r :
  Parse fuel opts r =
  match applyOptions opts EmptyString with
  | (_, Some err) => Ret (VNil, Some err)
  | (t, None) =>
      match Parse fuel [] r with
      | Ret (v, None) => Ret (wrapResult t v, None)
      | x => x
      end
  end.
Proof.
  unfold Parse, ParseRun. destruct (applyOptions opts EmptyString) as [t [err|]]; [reflexivity|].
  cbn [applyOptions]. rewrite (parserParse_wrap fuel t r).
  destruct (parserParse fuel EmptyString r) as [[[v [err|]] log]|ab]; reflexivity.
Qed.

Lemma applyOption_top top t0 :
  applyOption (TopLevel top) t0 =
  if validTopLevel top then (fst (applyOption (TopLevel top) EmptyString), None)
  else (t0, Some (MakeNestedTextError ErrCodeUsage topLevelUsageMsg)).
Proof.
  unfold validTopLevel. cbn [applyOption].
  destruct (String.eqb top "dict"); [reflexivity|].
  destruct (String.eqb top "list"); [reflexivity|].
  destruct (String.prefix "dict." top); reflexivity.
Qed.

Lemma applyOptions_invalid : forall opts t0,
  (exists top, In (TopLevel top) opts /\ validTopLevel top = false) ->
  snd (applyOptions opts t0) = Some (MakeNestedTextError ErrCodeUsage topLevelUsageMsg).
Proof.
  induction opts as [|o rest IH]; intros t0 [top [Hin Hv]]; [destruct Hin|].
  cbn [applyOptions].
  destruct o as [top'|keep].
  - rewrite applyOption_top. destruct (validTopLevel top') eqn:V; [|reflexivity].
    apply IH. exists top. split; [|exact Hv].
    destruct Hin as [Hin|Hin]; [injection Hin as ->; congruence | exact Hin].
  - cbn [applyOption]. apply IH. exists top. split; [|exact Hv].
    destruct Hin as [Hin|Hin]; [discriminate | exact Hin].
Qed.

Lemma applyOptions_valid : forall opts t0,
  (forall top, In (TopLevel top) opts -> validTopLevel top = true) ->
  applyOptions opts t0 =
  (match lastTopLevel opts with
   | Some top => fst (applyOption (TopLevel top) EmptyString)
   | None => t0 end, None).
Proof.
  induction opts as [|o rest IH]; intros t0 Hv; [reflexivity|].
  cbn [applyOptions lastTopLevel].
  destruct o as [top|keep].
  - rewrite applyOption_top. rewrite (Hv top (or_introl eq_refl)).
    rewrite IH by (intros t Ht; apply Hv; right; exact Ht).
    destruct (lastTopLevel rest); reflexivity.
  - cbn [applyOption]. apply IH. intros t Ht. apply Hv. right. exact Ht.
Qed.

(** Options: a rejected [TopLevel] option anywhere in the list makes
    [Parse] fail with the usage error, whatever the input. *)
Theorem Parse_invalid_option : forall fuel opts r top,
  In (TopLevel top) opts -> validTopLevel top = false ->
  Parse fuel opts r = Ret (VNil, Some (MakeNestedTextError ErrCodeUsage topLevelUsageMsg)).
Proof.
  intros fuel opts r top Hin Hv. rewrite Parse_options.
  pose proof (applyOptions_invalid opts EmptyString (ex_intro _ top (conj Hin Hv))) as H.
  destruct (applyOptions opts EmptyString) as [t err]. cbn in H. subst err. reflexivity.
Qed.

Lemma Parse_invalid_option_witness :
  In (TopLevel "lst") [KeepLegacyBidi true; TopLevel "list"; TopLevel "lst"] /\
  validTopLevel "lst" = false /\
  Parse 0 [KeepLegacyBidi true; TopLevel "list"; TopLevel "lst"] None
  = Ret (VNil, Some (MakeNestedTextError ErrCodeUsage topLevelUsageMsg)).
Proof.
  split; [right; right; left; reflexivity|]. split; [reflexivity|].
  apply (Parse_invalid_option 0 _ None "lst"); [right; right; left; reflexivity | reflexivity].
Defined.

(** Options: when every option is accepted, only the last [TopLevel]
    option has an effect; [KeepLegacyBidi] has none. *)
Theorem Parse_last_toplevel : forall fuel opts r,
  (forall top, In (TopLevel top) opts -> validTopLevel top = true) ->
  Parse fuel opts r
  = Parse fuel (match lastTopLevel opts with Some top => [TopLevel top] | None => [] end) r.
Proof.
  intros fuel opts r Hv. rewrite (Parse_options fuel opts r).
  rewrite (Parse_options fuel (match lastTopLevel opts with Some top => [TopLevel top] | None => [] end) r).
  rewrite (applyOptions_valid opts EmptyString Hv).
  destruct (lastTopLevel opts) as [top|] eqn:E.
  - assert (Hvt : validTopLevel top = true).
    { clear -Hv E. revert E. induction opts as [|o rest IH]; intros E; [discriminate|].
      cbn in E. destruct o as [t|k].
      + destruct (lastTopLevel rest) eqn:E'.
        * injection E as <-. apply IH; [intros x Hx; apply Hv; right; exact Hx | reflexivity].
        * injection E as <-. apply Hv. left. reflexivity.
      + apply IH; [intros x Hx; apply Hv; right; exact Hx | exact E]. }
    rewrite (applyOptions_valid [TopLevel top] EmptyString)
      by (intros t [Ht|[]]; injection Ht as <-; exact Hvt).
    reflexivity.
  - reflexivity.
Qed.

Lemma Parse_last_toplevel_witness :
  Parse 10 [TopLevel "dict"; KeepLegacyBidi true; TopLevel "list"] (Some ("> hi" ++ nl)%string)
  = Parse 10 [TopLevel "list"] (Some ("> hi" ++ nl)%string).
Proof.
  apply (Parse_last_toplevel 10 [TopLevel "dict"; KeepLegacyBidi true; TopLevel "list"]).
  intros top H. destruct H as [H | [H | [H | []]]]; inversion H; reflexivity.
Defined.

(* ------------------------------------------------------------------------ *)
(** ** Top-level wrapping of the decoded value *)

Lemma substring_0_length s : substring 0 (String.length s) s = s.
Proof. induction s; cbn; [reflexivity | now rewrite IHs]. Qed.

Lemma applyOption_dict_key k :
  fst (applyOption (TopLevel ("dict." ++ k)) EmptyString) = k.
Proof.
  cbn [applyOption]. cbn. rewrite Nat.sub_0_r. destruct k; cbn; [reflexivity|].
  rewrite substring_0_length. reflexivity.
Qed.

Lemma Parse_single_top fuel r top :
  validTopLevel top = true ->
  Parse fuel [TopLevel top] r =
  match Parse fuel [] r with
  | Ret (v, None) => Ret (wrapResult (fst (applyOption (TopLevel top) EmptyString)) v, None)
  | x => x
  end.
Proof.
  intros Hv. rewrite Parse_options.
  rewrite (applyOptions_valid [TopLevel top] EmptyString)
    by (intros t [Ht|[]]; injection Ht as <-; exact Hv).
  reflexivity.
Qed.

(** Options: on a successful parse, [TopLevel("list")] wraps a non-list
    result into a one-element list, [TopLevel("dict")] wraps a non-dict
    result under the key ["nestedtext"], [TopLevel("dict.k")] wraps any
    result under the key [k] unless [k] is empty, ["list"] or ["dict"], and
    [TopLevel("dict.")] leaves the result unchanged. *)
Theorem Parse_toplevel_wrap : forall fuel r v,
  Parse fuel [] r = Ret (v, None) ->
  Parse fuel [TopLevel "list"] r = Ret (if isSlice v then v else VList [v], None) /\
  Parse fuel [TopLevel "dict"] r
    = Ret (if isMap v then v else VDict [("nestedtext"%string, v)], None) /\
  (forall k, k <> EmptyString -> k <> "list"%string -> k <> "dict"%string ->
     Parse fuel [TopLevel ("dict." ++ k)] r = Ret (VDict [(k, v)], None)) /\
  Parse fuel [TopLevel "dict."] r = Ret (v, None).
Proof.
  intros fuel r v H.
  split; [rewrite Parse_single_top, H by reflexivity; reflexivity|].
  split; [rewrite Parse_single_top, H by reflexivity; reflexivity|].
  split.
  - intros k H1 H2 H3. rewrite Parse_single_top, H.
    + rewrite applyOption_dict_key. unfold wrapResult.
      apply String.eqb_neq in H1, H2, H3. rewrite H1, H2, H3. reflexivity.
    + unfold validTopLevel. destruct k; [congruence|]. reflexivity.
  - rewrite Parse_single_top, H by reflexivity. reflexivity.
Qed.

Lemma Parse_toplevel_wrap_witness :
  Parse 10 [] (Some empty_doc) = Ret (VNil, None) /\
  Parse 10 [TopLevel "dict.name"] (Some empty_doc)
    = Ret (VDict [("name"%string, VNil)], None).
Proof.
  assert (H : Parse 10 [] (Some empty_doc) = Ret (VNil, None)) by (vm_compute; reflexivity).
  split; [exact H|].
  destruct (Parse_toplevel_wrap 10 (Some empty_doc) VNil H) as [_ [_ [Hk _]]].
  apply (Hk "name"%string); discriminate.
Defined.

(** Options: [TopLevel("dict.list")] acts as [TopLevel("list")] and
    [TopLevel("dict.dict")] as [TopLevel("dict")], on every input. *)
Theorem Parse_dict_prefix_keywords : forall fuel r,
  Parse fuel [TopLevel "dict.list"] r = Parse fuel [TopLevel "list"] r /\
  Parse fuel [TopLevel "dict.dict"] r = Parse fuel [TopLevel "dict"] r.
Proof.
  intros fuel r. rewrite !Parse_single_top by reflexivity. split; reflexivity.
Qed.

(** Options: a parse that ends in an error returns the partial result
    unwrapped, whatever accepted options are given. *)
Theorem Parse_error_unwrapped : forall fuel opts r v e,
  (forall top, In (TopLevel top) opts -> validTopLevel top = true) ->
  Parse fuel [] r = Ret (v, Some e) ->
  Parse fuel opts r = Ret (v, Some e).
Proof.
  intros fuel opts r v e Hv H. rewrite Parse_options, (applyOptions_valid opts EmptyString Hv).
  rewrite H. reflexivity.
Qed.

Lemma Parse_error_unwrapped_witness :
  Parse 10 [KeepLegacyBidi false; TopLevel "dict.x"] (Some err_doc)
  = Parse 10 [] (Some err_doc).
Proof.
  assert (H : Parse 10 [] (Some err_doc) = Ret (VNil, Some (NTErr (mkNTError 206 1 1 "top-level item must not be indented"%string)))) by (vm_compute; reflexivity).
  rewrite H. apply (Parse_error_unwrapped 10 _ _ VNil _).
  - intros t [Ht|[Ht|[]]]; [discriminate | injection Ht as <-; reflexivity].
  - exact H.
Defined.

(* ------------------------------------------------------------------------ *)
(** ** Dictionaries built by [ReduceToItem] *)

Lemma dict_set_lookup k k' v d :
  dict_lookup k (dict_set k' v d) = if String.eqb k k' then Some v else dict_lookup k d.
Proof.
  unfold dict_lookup. induction d as [|[k1 v1] d IH]; cbn.
  - destruct (String.eqb k k'); reflexivity.
  - destruct (String.eqb k' k1) eqn:E1; cbn.
    + apply String.eqb_eq in E1. subst k1. destruct (String.eqb k k'); reflexivity.
    + destruct (String.eqb k k1) eqn:E2; cbn.
      * apply String.eqb_eq in E2. subst k1.
        destruct (String.eqb k k') eqn:E3; [|reflexivity].
        apply String.eqb_eq in E3. subst k'. rewrite String.eqb_refl in E1. discriminate.
      * exact IH.
Qed.

Lemma dict_set_keys k v d :
  forall x, In x (map fst (dict_set k v d)) <-> x = k \/ In x (map fst d).
Proof.
  induction d as [|[k1 v1] d IH]; intros x; cbn; [intuition congruence|].
  destruct (String.eqb k k1) eqn:E; cbn.
  - apply String.eqb_eq in E. subst k1. intuition congruence.
  - rewrite IH. intuition congruence.
Qed.

Lemma dict_set_nodup k v d :
  NoDup (map fst d) -> NoDup (map fst (dict_set k v d)).
Proof.
  induction d as [|[k1 v1] d IH]; intros H; cbn.
  - constructor; [intros []|constructor].
  - inversion H as [|? ? Hn Hd]; subst.
    destruct (String.eqb k k1) eqn:E; cbn.
    + apply String.eqb_eq in E. subst k1. constructor; assumption.
    + constructor; [|apply IH; exact Hd].
      rewrite dict_set_keys. intros [Hx|Hx]; [|contradiction].
      subst k1. rewrite String.eqb_refl in E. discriminate.
Qed.

Lemma buildDict_lookup k : forall ks vs d,
  dict_lookup k (buildDict ks vs d)
  = match lastValueFor k ks vs with Some x => Some x | None => dict_lookup k d end.
Proof.
  induction ks as [|k' ks IH]; intros vs d; [reflexivity|].
  destruct vs as [|v vs]; [reflexivity|]. cbn [buildDict lastValueFor].
  rewrite IH, dict_set_lookup.
  destruct (lastValueFor k ks vs); [reflexivity|].
  destruct (String.eqb k k'); reflexivity.
Qed.

Lemma buildDict_nodup : forall ks vs d,
  NoDup (map fst d) -> NoDup (map fst (buildDict ks vs d)).
Proof.
  induction ks as [|k' ks IH]; intros vs d H; [exact H|].
  destruct vs as [|v vs]; [exact H|]. cbn [buildDict].
  apply IH, dict_set_nodup, H.
Qed.

(** Reducing a dict entry: with as many keys as values the entry reduces
    to a map with distinct keys in which each key holds the value paired
    with its last occurrence, and a key that was never pushed is absent;
    an entry with no keys reduces to the empty map, dropping its values. *)
Theorem ReduceToItem_dict : forall entry ks,
  Keys entry = Some ks ->
  (length ks = length (Values entry) ->
   exists d, ReduceToItem entry = Ret (VDict d) /\ NoDup (map fst d) /\
     forall k, dict_lookup k d = lastValueFor k ks (Values entry)) /\
  (ks = [] -> ReduceToItem entry = Ret (VDict [])).
Proof.
  intros entry ks HK. unfold ReduceToItem. rewrite HK. split.
  - intros Hl. rewrite Hl, Nat.eqb_refl, andb_false_r.
    eexists; split; [reflexivity|]. split.
    + apply buildDict_nodup. constructor.
    + intros k. rewrite buildDict_lookup.
      destruct (lastValueFor k ks (Values entry)); reflexivity.
  - intros ->. reflexivity.
Qed.

Lemma ReduceToItem_dict_witness :
  exists d, ReduceToItem reduce_entry = Ret (VDict d) /\ NoDup (map fst d) /\
    dict_lookup "a" d = Some (VStr "3").
Proof.
  destruct (ReduceToItem_dict reduce_entry ["a"; "b"; "a"]%string eq_refl) as [H _].
  destruct (H eq_refl) as [d [H1 [H2 H3]]].
  exists d. split; [exact H1|]. split; [exact H2|]. rewrite H3. reflexivity.
Defined.

(* ------------------------------------------------------------------------ *)
(** ** Line splitting of terminated lines *)

Lemma splitLines_aux_text : forall l s cur,
  noBreak l = true ->
  splitLines_aux (l ++ s) cur = splitLines_aux s (cur ++ l).
Proof.
  induction l as [|c l IH]; intros s cur H; cbn.
  - now rewrite string_app_nil_r.
  - unfold noBreak in H. cbn in H. apply andb_prop in H as [Hc Hl].
    apply negb_true_iff, orb_false_elim in Hc as [H1 H2].
    rewrite H1, H2. rewrite IH by exact Hl.
    now rewrite string_app_assoc.
Qed.

Lemma first_not_LF : forall ls last,
  forallb (fun p => noBreak (fst p)) ls = true -> noBreak last = true ->
  match ls with (l', EndLF) :: _ => l' <> EmptyString | _ => True end ->
  forall c2 rest2, (joinLines ls ++ last)%string = String c2 rest2 ->
  Ascii.eqb c2 eolMarker = false.
Proof.
  intros ls last Hls Hlast Hfirst c2 rest2 E.
  destruct ls as [|[l' t'] r].
  - cbn in E. subst last. unfold noBreak in Hlast. cbn in Hlast.
    apply andb_prop in Hlast as [Hc _].
    apply negb_true_iff, orb_false_elim in Hc as [H1 _]. exact H1.
  - cbn in Hls. apply andb_prop in Hls as [Hl' _]. cbn in E.
    destruct l' as [|c l''].
    + destruct t'; cbn in E; [contradiction | |]; injection E as <- _; reflexivity.
    + cbn in E. injection E as <- _. unfold noBreak in Hl'. cbn in Hl'.
      apply andb_prop in Hl' as [Hc _].
      apply negb_true_iff, orb_false_elim in Hc as [H1 _]. exact H1.
Qed.

Lemma joinLines_split : forall ls last,
  forallb (fun p => noBreak (fst p)) ls = true -> noBreak last = true ->
  crSafe ls = true ->
  splitLines (joinLines ls ++ last) = expectedLines ls last.
Proof.
  unfold splitLines, expectedLines.
  induction ls as [|[l t] r IH]; intros last Hls Hlast Hcr.
  - cbn. rewrite <- (string_app_nil_r last) at 1.
    rewrite splitLines_aux_text by exact Hlast. cbn.
    destruct last; reflexivity.
  - cbn in Hls. apply andb_prop in Hls as [Hl Hr].
    assert (Hcr' : crSafe r = true).
    { destruct t; cbn in Hcr; try exact Hcr.
      destruct r as [|[l' [| |]] r']; try exact Hcr; reflexivity ||
      (apply andb_prop in Hcr as [_ Hcr]; exact Hcr). }
    cbn [joinLines]. rewrite !string_app_assoc.
    rewrite splitLines_aux_text by exact Hl. cbn [String.append].
    destruct t; cbn [endStr str1 String.append splitLines_aux].
    + rewrite Ascii.eqb_refl. cbn [map app]. now rewrite IH.
    + replace (Ascii.eqb CR eolMarker) with false by reflexivity.
      rewrite Ascii.eqb_refl, Ascii.eqb_refl. cbn [map app]. now rewrite IH.
    + replace (Ascii.eqb CR eolMarker) with false by reflexivity.
      rewrite Ascii.eqb_refl.
      destruct (joinLines r ++ last)%string as [|c2 rest2] eqn:E.
      * destruct r as [|[l0 t0] r0]; [|cbn in E; destruct l0; destruct t0; discriminate].
        cbn in E. subst last. reflexivity.
      * rewrite (first_not_LF r last Hr Hlast) with (c2 := c2) (rest2 := rest2) by
          (exact E || (destruct r as [|[l' [| |]] r']; trivial; cbn in Hcr;
             apply andb_prop in Hcr as [Hn _]; apply negb_true_iff, String.eqb_neq in Hn;
             exact Hn)).
        cbn [map app]. rewrite <- E. now rewrite IH.
Qed.

(** Line splitting: a document shorter than 64 KiB, written as lines
    without CR or LF, each ended by LF, CR LF or CR, followed by an
    optional unterminated last line, is read by the [bufio.Scanner] of
    [newLineBuffer] to its end without error, and its tokens are exactly
    those lines, provided no CR-ended line is followed by an empty
    LF-ended line; an empty unterminated last line yields no line. *)
Theorem splitLines_joinLines : forall ls last,
  forallb (fun p => noBreak (fst p)) ls = true -> noBreak last = true ->
  crSafe ls = true ->
  String.length (joinLines ls ++ last) < maxScanTokenSize ->
  scanInput (joinLines ls ++ last) = (expectedLines ls last, None).
Proof.
  intros ls last Hls Hlast Hcr Hsmall.
  rewrite (scanInput_small _ Hsmall), (joinLines_split ls last Hls Hlast Hcr). reflexivity.
Qed.

Lemma splitLines_joinLines_witness :
  scanInput (joinLines [("a", EndCRLF); ("", EndCR); ("b", EndLF)]%string ++ "c")
  = (["a"; ""; "b"; "c"]%string, None).
Proof.
  apply (splitLines_joinLines [("a", EndCRLF); ("", EndCR); ("b", EndLF)]%string "c");
    try reflexivity.
  apply Nat.ltb_lt. vm_compute. reflexivity.
Defined.

(* ------------------------------------------------------------------------ *)
(** ** Documents of ignored lines only *)

Lemma newLineBuffer_ignored doc :
  forallb IsIgnoredLine (fst (scanInput doc)) = true -> snd (scanInput doc) = None ->
  exists n txt, newLineBuffer doc = mkBuf Ascii.zero 0 0 n [] None txt EmptyString false 1 None.
Proof.
  intros H Hn. unfold newLineBuffer. destruct (scanInput doc) as [inp ierr].
  cbn [fst snd] in H, Hn. subst ierr.
  unfold AdvanceLine, set_Cursors.
  cbn [isEof Input InputErr Nat.eqb Lookahead Cursor ByteCursor CurrentLine Text Line LineNil LastError].
  rewrite <- (app_nil_r inp).
  destruct (advanceLoop_skip inp
              (mkBuf Ascii.zero 0 0 0 (inp ++ []) None EmptyString EmptyString true 0 None) [] H)
    as [b' [E [H1 [H2 [H3 [H4 [H5 [H6 [H7 [H8 H9]]]]]]]]]].
  rewrite E. cbn [advanceLoop]. rewrite H7. cbn. rewrite H1, H2, H3, H6.
  eexists; eexists; reflexivity.
Qed.

(** Empty documents: with accepted options, [Parse] returns a nil error
    exactly when the [bufio.Scanner] reads the whole document without
    error and every line it delivers is blank or a comment (the empty
    document included); the value is then nil, wrapped as the options
    ask. *)
Theorem Parse_empty_document : forall fuel opts doc v,
  (forall top, In (TopLevel top) opts -> validTopLevel top = true) ->
  Parse fuel opts (Some doc) = Ret (v, None) <->
  forallb IsIgnoredLine (fst (scanInput doc)) = true /\ snd (scanInput doc) = None /\
  v = wrapResult (fst (applyOptions opts EmptyString)) VNil.
Proof.
  intros fuel opts doc v Hv. split; [apply Parse_nil_error|].
  intros [H [Hn ->]]. rewrite Parse_options, (applyOptions_valid opts EmptyString Hv).
  destruct (newLineBuffer_ignored doc H Hn) as [n [txt E]].
  unfold Parse, ParseRun, parserParse, newScanner. cbn [applyOptions].
  rewrite E. reflexivity.
Qed.

Lemma Parse_empty_document_witness :
  Parse 0 [TopLevel "list"] (Some empty_doc) = Ret (VList [VNil], None).
Proof.
  apply (Parse_empty_document 0 [TopLevel "list"] empty_doc (VList [VNil])).
  - intros t [Ht|[]]. injection Ht as <-. reflexivity.
  - vm_compute. split; [reflexivity|]. split; reflexivity.
Defined.

(* ------------------------------------------------------------------------ *)
(** ** Scanner tokens of item lines *)

Lemma length_string_app (a b : string) :
  String.length (a ++ b) = String.length a + String.length b.
Proof. induction a; cbn; [reflexivity | now rewrite IHa]. Qed.

Lemma substring_app_skip : forall p s m,
  substring (String.length p) m (p ++ s) = substring 0 m s.
Proof. induction p; intros s m; cbn; [reflexivity | apply IHp]. Qed.

Lemma get_app_skip : forall p s j,
  String.get (String.length p + j) (p ++ s) = String.get j s.
Proof. induction p; intros s j; cbn; [reflexivity | apply IHp]. Qed.

Lemma AdvanceCursor_end b l R i :
  at_pos b l R i -> S i = String.length l ->
  AdvanceCursor b = (set_Lookahead eolMarker b, None).
Proof.
  intros [[HL [_ [_ [HE _]]]] [HB _]] Hi.
  unfold AdvanceCursor. rewrite HE, HL, HB, Hi, Nat.leb_refl. reflexivity.
Qed.

Lemma recognizeItemTag_space tag single multi b p x R k :
  at_pos b (p ++ String tag (String space x)) R (String.length p) ->
  Lookahead b = tag -> tag <> eolMarker ->
  exists b3, recognizeItemTag tag single multi b k
    = (set_Content [if String.eqb x EmptyString then nl else x] (set_TokenType single k), b3)
    /\ advancedFrom b3 R.
Proof.
  set (l := (p ++ String tag (String space x))%string). intros Hp Hla Hne.
  assert (Hlen : String.length l = String.length p + 2 + String.length x)
    by (unfold l; rewrite length_string_app; cbn; lia).
  unfold recognizeItemTag.
  rewrite (bufMatch_at (singleRune tag) b l R _ Hp)
    by (try rewrite Hla; first [apply Ascii.eqb_refl | exact Hne]).
  cbn [snd].
  pose proof (AdvanceCursor_at b l R _ Hp) as [_ [_ [[_ Hp1] | [Habs _]]]]; [|lia].
  set (b1 := fst (AdvanceCursor b)) in *.
  assert (Hl1 : Lookahead b1 = space).
  { destruct Hp1 as [_ [_ HG]]. unfold l in HG.
    rewrite <- Nat.add_1_r, get_app_skip in HG. cbn in HG. congruence. }
  rewrite Hl1, Ascii.eqb_refl.
  rewrite (bufMatch_at (singleRune space) b1 l R _ Hp1)
    by (rewrite Hl1; first [reflexivity | intro Hx; cbv in Hx; discriminate Hx]).
  cbn [snd].
  pose proof Hp1 as [Hs1 _].
  pose proof (AdvanceCursor_at b1 l R _ Hp1) as [_ [Hs2 _]].
  pose proof (ReadLineRemainder_adv _ l R Hs2) as Hadv.
  destruct x as [|c x'].
  - rewrite (AdvanceCursor_end b1 l R _ Hp1) by (rewrite Hlen; cbn; lia).
    cbn [fst].
    assert (Hs3 : lineState (set_Lookahead eolMarker b1) l R)
      by (destruct Hs1 as [HL [HT [HI [HE HX]]]]; unfold lineState; cbn; repeat split; assumption).
    pose proof (ReadLineRemainder_adv _ l R Hs3) as Hadv'.
    destruct (ReadLineRemainder (set_Lookahead eolMarker b1)) as [s b3] eqn:ER.
    exists b3. split; [|exact Hadv'].
    unfold ReadLineRemainder in ER.
    destruct Hp1 as [[HL [HT [HI [HE HX]]]] [HB _]].
    unfold IsEof in ER. cbn in ER. rewrite HE, HL, HB, Hlen in ER. cbn [String.length] in ER.
    replace (String.length p + 2 + 0) with (S (S (String.length p))) in ER by lia.
    rewrite Nat.eqb_refl in ER. cbn in ER.
    destruct (AdvanceLine _) as [b4 err]. injection ER as <- <-. reflexivity.
  - pose proof (AdvanceCursor_at b1 l R _ Hp1) as [_ [_ [[_ Hp2] | [Habs _]]]];
      [|rewrite Hlen in Habs; cbn in Habs; lia].
    set (b2 := fst (AdvanceCursor b1)) in *.
    destruct (ReadLineRemainder b2) as [s b3] eqn:ER.
    exists b3. split; [|exact Hadv].
    unfold ReadLineRemainder in ER.
    rewrite (at_pos_IsEof b2 l R _ Hp2) in ER.
    destruct Hp2 as [[HL [HT [HI [HE HX]]]] [HB HG]].
    rewrite HL, HT, HB, Hlen in ER.
    assert (Hc : Lookahead b2 = c).
    { unfold l in HG. replace (S (S (String.length p))) with (String.length p + 2) in HG by lia.
      rewrite get_app_skip in HG.
      cbn in HG. congruence. }
    rewrite Hc in ER. cbn [String.eqb].
    destruct (AdvanceLine b2) as [b4 err]. injection ER as <- <-.
    cbn [String.length].
    replace (String.length p + 2 + S (String.length x'))
      with (S (S (S (String.length p + String.length x')))) by lia.
    cbv iota.
    destruct (String.length p =? String.length p + String.length x') eqn:Q.
    + apply Nat.eqb_eq in Q. destruct x'; cbn in Q; [reflexivity | lia].
    + destruct (S (S (S (String.length p + String.length x'))) <? S (S (S (String.length p)))) eqn:Q2;
        [apply Nat.ltb_lt in Q2; lia|].
      replace (S (S (S (String.length p + String.length x'))) - S (S (S (String.length p))))
        with (String.length x') by lia.
      unfold l.
      replace (p ++ String tag (String space (String c x')))%string
        with ((p ++ String tag (String space (String c EmptyString))) ++ x')%string
        by (rewrite string_app_assoc; reflexivity).
      replace (S (S (S (String.length p))))
        with (String.length (p ++ String tag (String space (String c EmptyString))))
        by (rewrite length_string_app; cbn; lia).
      rewrite substring_app_skip, substring_0_length.
      destruct x'; reflexivity.
Qed.

Lemma recognizeItemTag_eol tag single multi b p R k :
  at_pos b (p ++ str1 tag) R (String.length p) ->
  Lookahead b = tag -> tag <> eolMarker ->
  exists b3, recognizeItemTag tag single multi b k = (set_TokenType multi k, b3)
    /\ advancedFrom b3 R.
Proof.
  set (l := (p ++ str1 tag)%string). intros Hp Hla Hne.
  assert (Hlen : String.length l = S (String.length p))
    by (unfold l; rewrite length_string_app; cbn; lia).
  unfold recognizeItemTag.
  rewrite (bufMatch_at (singleRune tag) b l R _ Hp)
    by (try rewrite Hla; first [apply Ascii.eqb_refl | exact Hne]).
  cbn [snd].
  rewrite (AdvanceCursor_end b l R _ Hp) by (rewrite Hlen; reflexivity). cbn [fst].
  assert (Hs1 : lineState (set_Lookahead eolMarker b) l R)
    by (destruct Hp as [[HL [HT [HI [HE HX]]]] _]; unfold lineState; cbn; repeat split; assumption).
  cbn [Lookahead set_Lookahead].
  replace (Ascii.eqb eolMarker space) with false by reflexivity.
  rewrite Ascii.eqb_refl. cbn [negb].
  eexists. split; [reflexivity|].
  apply (bufMatch_eol _ l R Hs1 eq_refl). lia.
Qed.

Lemma itemTagTypes_cases c single multi : itemTagTypes c = Some (single, multi) ->
  (c = "-"%char /\ single = listItem /\ multi = listItemMultiline) \/
  (c = ">"%char /\ single = stringMultiline /\ multi = stringMultiline) \/
  (c = ":"%char /\ single = dictKeyMultiline /\ multi = dictKeyMultiline).
Proof.
  unfold itemTagTypes.
  destruct (Ascii.eqb c "-"%char) eqn:E1; [apply Ascii.eqb_eq in E1; intros H; injection H as <- <-; left; auto|].
  destruct (Ascii.eqb c ">"%char) eqn:E2; [apply Ascii.eqb_eq in E2; intros H; injection H as <- <-; right; left; auto|].
  destruct (Ascii.eqb c ":"%char) eqn:E3; [apply Ascii.eqb_eq in E3; intros H; injection H as <- <-; right; right; auto|].
  discriminate.
Qed.

(** [ScanItemBody] on an item tag hands the line to [recognizeItemTag]
    with the tag's token types. *)
Lemma ItemBody_tag f b l R i k tag single multi :
  at_pos b l R i -> Lookahead b = tag -> itemTagTypes tag = Some (single, multi) ->
  stepLoop (S f) ScanItemBody b k
  = (let (k1, b1) := recognizeItemTag tag single multi b k in Ret (k1, b1, None)).
Proof.
  intros Hp Hla Ht. cbn [stepLoop runStep]. rewrite Hla.
  destruct (itemTagTypes_cases tag single multi Ht) as [[-> [-> ->]]|[[-> [-> ->]]|[-> [-> ->]]]];
    cbn [Ascii.eqb Bool.eqb andb];
    match goal with |- context [recognizeItemTag ?a ?s ?m b k] =>
      destruct (recognizeItemTag a s m b k) as [k1 b1] end;
    cbn; destruct (Error k1); reflexivity.
Qed.

Lemma NextToken_at_item sc l R n tag rest single multi :
  at_pos (Buf sc) l R 0 -> (Step sc = None \/ Step sc = Some ScanItem) ->
  l = (spaces n ++ String tag rest)%string -> itemTagTypes tag = Some (single, multi) ->
  exists b', at_pos b' l R n /\ Lookahead b' = tag /\
  NextToken sc =
    (let* '(k1, b1, next) :=
       (let (k1, b1) := recognizeItemTag tag single multi b'
           (set_Indent n (newToken (CurrentLine (Buf sc)) (Cursor (Buf sc)))) in
        Ret (k1, b1, None)) in
     Ret (k1, mkScanner b1 next
            (match Error k1 with Some e => Some e | None => ScLastError sc end))).
Proof.
  intros Hp Hst Hl Ht.
  assert (Hts : tag <> space)
    by (destruct (itemTagTypes_cases tag single multi Ht) as [[-> _]|[[-> _]|[-> _]]];
        intro Hx; discriminate Hx).
  unfold NextToken.
  assert (Hs : match Step sc with Some s => s | None => ScanItem end = ScanItem)
    by (destruct Hst as [-> | ->]; reflexivity).
  rewrite Hs.
  pose proof Hp as [[HL _] _].
  destruct (scanItem_prefix (String.length (Line (Buf sc)) + 5) (Buf sc) l R n tag
              rest (newToken (CurrentLine (Buf sc)) (Cursor (Buf sc))) Hp Hl Hts
              eq_refl) as [f' [b' [Hf' [Hp' [Hla E]]]]].
  { rewrite HL, Hl, length_spaces_app. cbn. lia. }
  exists b'. split; [exact Hp'|]. split; [exact Hla|].
  rewrite E. destruct f' as [|f'']; [lia|].
  rewrite (ItemBody_tag f'' b' l R n _ tag single multi Hp' Hla Ht).
  cbn [Indent newToken]. rewrite Nat.add_0_r. reflexivity.
Qed.

Lemma length_spaces n : String.length (spaces n) = n.
Proof. induction n; cbn; [reflexivity | now rewrite IHn]. Qed.

(** Scanner, item lines: at the start of a line made of [n] spaces, an
    item tag ('-', '>' or ':'), a space and the rest [x] of the line,
    [NextToken] returns a token without error of the tag's single-line
    type, with indentation [n] and content [x]; when [x] is empty the
    content is the end-of-line marker instead.  The scanner is left at
    the next line.  The first character of [x] is ASCII: the content
    starts with the rune [ReadRune] decodes there, which [readRune] only
    models below 128. *)
Theorem NextToken_item_line : forall sc l R n tag x single multi,
  at_pos (Buf sc) l R 0 -> (Step sc = None \/ Step sc = Some ScanItem) ->
  itemTagTypes tag = Some (single, multi) ->
  l = (spaces n ++ String tag (String space x))%string ->
  (forall c x', x = String c x' -> nat_of_ascii c < 128) ->
  exists sc', NextToken sc
    = Ret (mkToken (CurrentLine (Buf sc)) (Cursor (Buf sc)) single n
             [if String.eqb x EmptyString then nl else x] None, sc') /\
    Step sc' = None /\ advancedFrom (Buf sc') R.
Proof.
  intros sc l R n tag x single multi Hp Hst Ht Hl _.
  destruct (NextToken_at_item sc l R n tag (String space x) single multi Hp Hst Hl Ht)
    as [b' [Hp' [Hla E]]].
  assert (Hne : tag <> eolMarker)
    by (destruct (itemTagTypes_cases tag single multi Ht) as [[-> _]|[[-> _]|[-> _]]];
        intro Hx; discriminate Hx).
  rewrite Hl in Hp'. rewrite <- (length_spaces n) in Hp' at 2.
  destruct (recognizeItemTag_space tag single multi b' (spaces n) x R
              (set_Indent n (newToken (CurrentLine (Buf sc)) (Cursor (Buf sc)))) Hp' Hla Hne)
    as [b3 [Er Hadv]].
  rewrite Er in E. cbn in E. rewrite E.
  eexists. split; [reflexivity|]. split; [reflexivity | exact Hadv].
Qed.

(** Scanner, item lines: at the start of a line made of [n] spaces and an
    item tag ending the line, [NextToken] returns a token without error of
    the tag's multi-line type, with indentation [n] and no content.  The
    scanner is left at the next line. *)
Theorem NextToken_item_tag_eol : forall sc l R n tag single multi,
  at_pos (Buf sc) l R 0 -> (Step sc = None \/ Step sc = Some ScanItem) ->
  itemTagTypes tag = Some (single, multi) ->
  l = (spaces n ++ str1 tag)%string ->
  exists sc', NextToken sc
    = Ret (mkToken (CurrentLine (Buf sc)) (Cursor (Buf sc)) multi n [] None, sc') /\
    Step sc' = None /\ advancedFrom (Buf sc') R.
Proof.
  intros sc l R n tag single multi Hp Hst Ht Hl.
  destruct (NextToken_at_item sc l R n tag EmptyString single multi Hp Hst Hl Ht)
    as [b' [Hp' [Hla E]]].
  assert (Hne : tag <> eolMarker)
    by (destruct (itemTagTypes_cases tag single multi Ht) as [[-> _]|[[-> _]|[-> _]]];
        intro Hx; discriminate Hx).
  rewrite Hl in Hp'. rewrite <- (length_spaces n) in Hp' at 2.
  destruct (recognizeItemTag_eol tag single multi b' (spaces n) R
              (set_Indent n (newToken (CurrentLine (Buf sc)) (Cursor (Buf sc)))) Hp' Hla Hne)
    as [b3 [Er Hadv]].
  rewrite Er in E. cbn in E. rewrite E.
  eexists. split; [reflexivity|]. split; [reflexivity | exact Hadv].
Qed.

Lemma NextToken_item_line_witness :
  exists sc', NextToken item_sc
    = Ret (mkToken 1 1 listItem 2 [nl] None, sc') /\
    Step sc' = None /\ advancedFrom (Buf sc') ["> b"%string].
Proof.
  apply (NextToken_item_line item_sc ("  - ")%string ["> b"%string] 2 "-"%char EmptyString
           listItem listItemMultiline).
  - vm_compute. repeat split; reflexivity.
  - left. reflexivity.
  - reflexivity.
  - reflexivity.
  - intros c x' Hx. discriminate Hx.
Defined.

Lemma NextToken_item_tag_eol_witness :
  exists sc', NextToken tag_sc
    = Ret (mkToken 1 1 dictKeyMultiline 1 [] None, sc') /\
    Step sc' = None /\ advancedFrom (Buf sc') ["  > b"%string].
Proof.
  apply (NextToken_item_tag_eol tag_sc (" :")%string ["  > b"%string] 1 ":"%char
           dictKeyMultiline dictKeyMultiline).
  - vm_compute. repeat split; reflexivity.
  - left. reflexivity.
  - reflexivity.
  - reflexivity.
Defined.

(* ------------------------------------------------------------------------ *)
(** ** Scanner tokens of inline lines *)

Lemma ReadLineRemainder_from b p c rest R :
  at_pos b (p ++ String c rest) R (String.length p) ->
  exists b1, ReadLineRemainder b = (String c rest, b1) /\ advancedFrom b1 R.
Proof.
  set (l := (p ++ String c rest)%string). intros Hp.
  pose proof Hp as [Hs _].
  pose proof (ReadLineRemainder_adv b l R Hs) as Hadv.
  destruct (ReadLineRemainder b) as [s b1] eqn:ER.
  exists b1. split; [|exact Hadv]. f_equal.
  unfold ReadLineRemainder in ER. rewrite (at_pos_IsEof b l R _ Hp) in ER.
  destruct Hp as [[HL [HT [HI [HE HX]]]] [HB HG]].
  assert (Hlen : String.length l = S (String.length p + String.length rest))
    by (unfold l; rewrite length_string_app; cbn; lia).
  assert (Hc : Lookahead b = c).
  { unfold l in HG. rewrite <- (Nat.add_0_r (String.length p)) in HG.
    rewrite get_app_skip in HG. cbn in HG. congruence. }
  rewrite HL, HT, HB, Hlen, Hc in ER.
  destruct (AdvanceLine b) as [b4 err]. injection ER as <- _.
  match goal with |- context [if ?a =? ?b then _ else _] => destruct (a =? b) eqn:Q end.
  - apply Nat.eqb_eq in Q. destruct rest; cbn in Q; [reflexivity | lia].
  - match goal with |- context [if ?a <? ?b then _ else _] =>
      destruct (a <? b) eqn:Q2; [apply Nat.ltb_lt in Q2; lia|] end.
    apply Nat.eqb_neq in Q.
    match goal with |- context [substring _ ?m _] =>
      replace m with (String.length rest) by lia end.
    unfold l.
    replace (p ++ String c rest)%string with ((p ++ str1 c) ++ rest)%string
      by (rewrite string_app_assoc; reflexivity).
    replace (S (String.length p)) with (String.length (p ++ str1 c))
      by (rewrite length_string_app; cbn; lia).
    rewrite substring_app_skip, substring_0_length. reflexivity.
Qed.

(** Scanner, inline lines: at the start of a line made of [n] spaces, an
    opening bracket '[' or '{' and the rest of the line, [NextToken]
    returns an inline-list or inline-dict token with indentation [n] whose
    content is the line from the bracket on.  The token carries the
    error [ErrCodeFormatIllegalTag] "inline-item does not match opening
    tag" unless the last character of the line equals the opening
    bracket; so a line such as "[a, b]" is always rejected. *)
Theorem NextToken_inline_line : forall sc l R n c rest toktype d,
  at_pos (Buf sc) l R 0 -> (Step sc = None \/ Step sc = Some ScanItem) ->
  inlineTagType c = Some toktype ->
  l = (spaces n ++ String c rest)%string ->
  String.get (String.length l - 1) l = Some d ->
  let line := CurrentLine (Buf sc) in let col := Cursor (Buf sc) in
  exists sc', NextToken sc
    = Ret (mkToken line col toktype n [String c rest]
             (if Ascii.eqb d c then None
              else Some (NTErr (mkNTError ErrCodeFormatIllegalTag line col inlineMismatchMsg))),
           sc') /\
    Step sc' = None /\ advancedFrom (Buf sc') R.
Proof.
  intros sc l R n c rest toktype d Hp Hst Ht Hl Hd line col.
  assert (Hcs : c <> space /\ (c = "["%char /\ toktype = inlineList \/ c = "{"%char /\ toktype = inlineDict)).
  { unfold inlineTagType in Ht.
    destruct (Ascii.eqb c "["%char) eqn:E1;
      [apply Ascii.eqb_eq in E1; subst c; injection Ht as <-; split; [discriminate | left; auto]|].
    destruct (Ascii.eqb c "{"%char) eqn:E2;
      [apply Ascii.eqb_eq in E2; subst c; injection Ht as <-; split; [discriminate | right; auto]|].
    discriminate. }
  destruct Hcs as [Hts Hcase].
  unfold NextToken.
  assert (Hs : match Step sc with Some s => s | None => ScanItem end = ScanItem)
    by (destruct Hst as [-> | ->]; reflexivity).
  rewrite Hs.
  pose proof Hp as [[HL _] _].
  destruct (scanItem_prefix (String.length (Line (Buf sc)) + 5) (Buf sc) l R n c
              rest (newToken (CurrentLine (Buf sc)) (Cursor (Buf sc))) Hp Hl Hts
              eq_refl) as [f' [b' [Hf' [Hp' [Hla E]]]]].
  { rewrite HL, Hl, length_spaces_app. cbn. lia. }
  rewrite E. destruct f' as [|f'']; [lia|].
  pose proof Hp' as [[_ [HT _]] _].
  rewrite Hl in Hp'. rewrite <- (length_spaces n) in Hp' at 2.
  destruct (ReadLineRemainder_from b' (spaces n) c rest R Hp') as [b1 [ER Hadv]].
  assert (Hrec : recognizeInlineItem toktype b'
                   (set_Indent (n + 0) (newToken (CurrentLine (Buf sc)) (Cursor (Buf sc))))
    = Ret (set_Content [String c rest] (set_TokenType toktype
             (if Ascii.eqb d c then set_Indent n (newToken line col)
              else set_Error (Some (makeParsingError (set_Indent n (newToken line col))
                     ErrCodeFormatIllegalTag inlineMismatchMsg))
                     (set_Indent n (newToken line col)))), b1)).
  { unfold recognizeInlineItem. rewrite HT, Hd, Hla, ER, Nat.add_0_r. reflexivity. }
  cbn [stepLoop runStep]. rewrite Hla.
  destruct Hcase as [[-> ->]|[-> ->]]; cbn [Ascii.eqb Bool.eqb andb Indent newToken];
    rewrite Hrec; cbn [res_bind];
    (destruct (Ascii.eqb d _); cbn; eexists; (split; [reflexivity | split; [reflexivity | exact Hadv]])).
Qed.

(** Inline lines: if the [bufio.Scanner] delivers the lines of a
    document up to its first line that is neither blank nor a comment,
    and that line starts with '[' or '{' and its last character is not
    that same bracket (e.g. "[a, b]"), [Parse] returns a nil result and
    the error [ErrCodeFormatIllegalTag] "inline-item does not match
    opening tag" at that line and column 1, for any accepted options and
    any fuel.  The scanner delivers every line of a document shorter than
    64 KiB ([scanInput_small]). *)
Theorem Parse_inline_mismatch : forall fuel opts doc ign c rest R d toktype,
  (forall top, In (TopLevel top) opts -> validTopLevel top = true) ->
  forallb IsIgnoredLine ign = true ->
  fst (scanInput doc) = ign ++ String c rest :: R ->
  inlineTagType c = Some toktype ->
  String.get (String.length (String c rest) - 1) (String c rest) = Some d ->
  Ascii.eqb d c = false ->
  Parse fuel opts (Some doc)
  = Ret (VNil, Some (NTErr (mkNTError ErrCodeFormatIllegalTag (S (length ign)) 1
                             inlineMismatchMsg))).
Proof.
  intros fuel opts doc ign c rest R d toktype Hv Hi Hs Ht Hd Hdc.
  apply (Parse_error_unwrapped fuel opts (Some doc) VNil _ Hv).
  assert (Hc : c = "["%char \/ c = "{"%char).
  { unfold inlineTagType in Ht.
    destruct (Ascii.eqb c "["%char) eqn:E1; [left; apply Ascii.eqb_eq; exact E1|].
    destruct (Ascii.eqb c "{"%char) eqn:E2; [right; apply Ascii.eqb_eq; exact E2|].
    discriminate. }
  assert (Hl : IsIgnoredLine (String c rest) = false)
    by (destruct Hc as [-> | ->]; reflexivity).
  destruct (newLineBuffer_first_line doc ign (String c rest) R Hi Hl Hs) as [c0 [Hc0 EB]].
  cbn in Hc0. injection Hc0 as <-.
  set (b := mkBuf c 1 1 (S (length ign)) R (snd (scanInput doc)) (String c rest) (String c rest)
              false 0 None) in EB.
  assert (Hp : at_pos b (String c rest) R 0) by (repeat split).
  destruct (NextToken_inline_line (mkScanner b None None) (String c rest) R 0 c rest toktype d
              Hp (or_introl eq_refl) Ht eq_refl Hd) as [sc' [EN _]].
  rewrite Hdc in EN. cbn [Buf CurrentLine Cursor b] in EN.
  unfold Parse, ParseRun, parserParse, newScanner. cbn [applyOptions].
  rewrite EB. unfold parseDocument, initState, pbind, nextToken at 1.
  assert (E1 : NextToken (mkScanner b (Some ScanFileStart) None)
               = Ret (mkToken (S (length ign)) 1 docRoot 0 [] None, mkScanner b None None)).
  { unfold NextToken. cbn [Buf Step String.length Nat.add].
    destruct Hc as [-> | ->]; reflexivity. }
  cbn [sc]. rewrite E1. cbn [Error TokenType tt_eqb tokenTypeCode Nat.eqb orb].
  unfold nextToken. cbn [sc]. rewrite EN. reflexivity.
Qed.

Lemma Parse_inline_mismatch_witness :
  Parse 10 [TopLevel "list"] (Some inline_doc)
  = Ret (VNil, Some (NTErr (mkNTError ErrCodeFormatIllegalTag 2 1 inlineMismatchMsg))).
Proof.
  apply (Parse_inline_mismatch 10 [TopLevel "list"] inline_doc ["# list"%string] "["%char
           "a, b]"%string [] "]"%char inlineList).
  - intros t [Ht|[]]. injection Ht as <-. reflexivity.
  - reflexivity.
  - vm_compute. reflexivity.
  - reflexivity.
  - reflexivity.
  - reflexivity.
Defined.

Lemma NextToken_inline_line_witness :
  exists sc', NextToken inline_sc
    = Ret (mkToken 1 1 inlineList 1 ["[a, b"%string]
             (Some (NTErr (mkNTError ErrCodeFormatIllegalTag 1 1 inlineMismatchMsg))), sc') /\
    Step sc' = None /\ advancedFrom (Buf sc') ["- c"%string].
Proof.
  apply (NextToken_inline_line inline_sc " [a, b"%string ["- c"%string] 1 "["%char "a, b"%string
           inlineList "b"%char).
  - vm_compute. repeat split; reflexivity.
  - left. reflexivity.
  - reflexivity.
  - reflexivity.
  - reflexivity.
Defined.

(* ------------------------------------------------------------------------ *)
(** ** The inline parser on flat lists *)

Lemma plainInlineChar_class c : plainInlineChar c = true ->
  inlineTokenFor c = 0%Z \/ inlineTokenFor c = 1%Z \/ inlineTokenFor c = 4%Z.
Proof.
  unfold plainInlineChar, inlineTokenFor. cbn [existsb]. intros H.
  apply andb_prop in H as [_ H]. revert H.
  destruct (Ascii.eqb c " "%char); [auto|].
  destruct (Ascii.eqb c eolMarker); [rewrite !orb_true_r; discriminate|].
  destruct (Ascii.eqb c ","%char); [discriminate|].
  destruct (Ascii.eqb c ":"%char); [auto|].
  destruct (Ascii.eqb c "["%char); [discriminate|].
  destruct (Ascii.eqb c "]"%char); [discriminate|].
  destruct (Ascii.eqb c "{"%char); [discriminate|].
  destruct (Ascii.eqb c "}"%char); [discriminate|].
  destruct (isSpace c); auto.
Qed.

Ltac eval_table :=
  repeat match goal with |- context [tableAt ?a ?b] =>
    let v := eval vm_compute in (tableAt a b) in change (tableAt a b) with v end.

Lemma inline_plain_step c rest text tp m inp ln vals log st :
  plainInlineChar c = true -> (st = 7 \/ st = 8 \/ st = 9)%Z ->
  exists st', (st' = 7 \/ st' = 8 \/ st' = 9)%Z /\
  inlineLoop (String c rest) (mkInline text tp m inp ln [listEntry vals] log) st VNil
  = inlineLoop rest (mkInline text (tp + 1) m rest ln [listEntry vals] log) st' VNil.
Proof.
  intros Hc Hst. cbn [inlineLoop istack].
  destruct (plainInlineChar_class c Hc) as [H|[H|H]]; rewrite H;
    destruct Hst as [-> | [-> | ->]]; eval_table; cbn;
    eexists; (split; [| reflexivity]); auto.
Qed.

Lemma inline_plain_text : forall x rest text tp m inp ln vals log st,
  plainInlineText x = true -> (st = 7 \/ st = 8 \/ st = 9)%Z ->
  exists st' inp', (st' = 7 \/ st' = 8 \/ st' = 9)%Z /\
  inlineLoop (x ++ rest) (mkInline text tp m inp ln [listEntry vals] log) st VNil
  = inlineLoop rest (mkInline text (tp + String.length x) m inp' ln [listEntry vals] log) st' VNil.
Proof.
  induction x as [|c x IH]; intros rest text tp m inp ln vals log st Hx Hst.
  - exists st, inp. split; [exact Hst|]. cbn. rewrite Nat.add_0_r. reflexivity.
  - unfold plainInlineText in Hx. cbn in Hx. apply andb_prop in Hx as [Hc Hx].
    cbn [String.append].
    destruct (inline_plain_step c (x ++ rest) text tp m inp ln vals log st Hc Hst) as [s1 [Hs1 E]].
    rewrite E.
    destruct (IH rest text (tp + 1) m (x ++ rest)%string ln vals log s1 Hx Hs1) as [s2 [i2 [Hs2 E2]]].
    exists s2, i2. split; [exact Hs2|]. rewrite E2. cbn [String.length].
    replace (tp + 1 + String.length x) with (tp + S (String.length x)) by lia. reflexivity.
Qed.

Lemma inline_comma rest text tp m inp ln vals log st :
  (st = 7 \/ st = 8 \/ st = 9)%Z -> 0 < m -> m <= tp -> tp <= String.length text ->
  inlineLoop (String ","%char rest) (mkInline text tp m inp ln [listEntry vals] log) st VNil
  = inlineLoop rest
      (mkInline text (tp + 1) (tp + 1) rest ln
         [listEntry (vals ++ [VStr (TrimSpace (substring m (tp - m) text))])] log) 7%Z VNil.
Proof.
  intros Hst Hm Hmt Htl.
  assert (Hg : goSlice text m tp = Ret (substring m (tp - m) text)).
  { unfold goSlice. apply Nat.leb_le in Hmt, Htl. rewrite Hmt, Htl. reflexivity. }
  destruct m as [|m0]; [lia|].
  cbn [inlineLoop istack].
  destruct Hst as [-> | [-> | ->]]; cbn [inlineTokenFor Ascii.eqb Bool.eqb andb]; eval_table;
    cbn -[goSlice appendStringValue];
    unfold appendStringValue; cbn [IText Marker TextPosition set_IInput]; rewrite Hg; reflexivity.
Qed.

Lemma inlineLoop_nil inp p st r : istack p = [] -> inlineLoop inp p st r = inlineFinish st r p.
Proof. intros H. destruct inp; cbn; rewrite H; reflexivity. Qed.

Lemma inline_close rest text tp m inp ln vals log st :
  (st = 7 \/ st = 8 \/ st = 9)%Z -> 0 < m -> m <= tp -> tp <= String.length text ->
  let value := substring m (tp - m) text in
  exists p', inlineLoop (String "]"%char rest) (mkInline text tp m inp ln [listEntry vals] log) st VNil
  = Ret (VList (if (0 <? String.length value) || (0 <? length vals)
                then vals ++ [VStr (TrimSpace value)] else vals), None, p').
Proof.
  intros Hst Hm Hmt Htl value.
  assert (Hg : goSlice text m tp = Ret value).
  { unfold goSlice. apply Nat.leb_le in Hmt, Htl. rewrite Hmt, Htl. reflexivity. }
  destruct m as [|m0]; [lia|].
  cbn [inlineLoop istack].
  destruct Hst as [-> | [-> | ->]]; cbn [inlineTokenFor Ascii.eqb Bool.eqb andb]; eval_table;
    cbn -[goSlice appendStringValue];
    unfold appendStringValue; cbn [IText Marker TextPosition set_IInput]; rewrite Hg;
    cbn -[inlineLoop];
    destruct (String.length value); destruct (length vals); cbn -[inlineLoop];
    rewrite inlineLoop_nil by reflexivity; cbn;
    eexists; reflexivity.
Qed.

Lemma substring_0_prefix : forall x s, substring 0 (String.length x) (x ++ s) = x.
Proof. induction x; intros s; cbn; [destruct s; reflexivity | now rewrite IHx]. Qed.

Lemma inline_items : forall xs x pre tail text inp ln vals log,
  plainInlineText x = true -> Forall (fun y => plainInlineText y = true) xs ->
  0 < String.length pre -> (vals <> [] \/ x :: xs <> [""%string]) ->
  text = (pre ++ String.concat "," (x :: xs) ++ String "]" tail)%string ->
  exists p', inlineLoop (String.concat "," (x :: xs) ++ String "]" tail)
               (mkInline text (String.length pre) (String.length pre) inp ln [listEntry vals] log)
               7%Z VNil
  = Ret (VList (vals ++ map (fun y => VStr (TrimSpace y)) (x :: xs)), None, p').
Proof.
  induction xs as [|y ys IH]; intros x pre tail text inp ln vals log Hx Hxs Hpre Hne Ht.
  - cbn [String.concat] in *.
    destruct (inline_plain_text x (String "]" tail) text (String.length pre) (String.length pre)
                inp ln vals log 7%Z Hx (or_introl eq_refl)) as [st [inp' [Hst E]]].
    rewrite E.
    assert (Hlen : String.length pre + String.length x <= String.length text)
      by (rewrite Ht, !length_string_app; cbn; lia).
    destruct (inline_close tail text (String.length pre + String.length x) (String.length pre)
                inp' ln vals log st Hst Hpre ltac:(lia) Hlen) as [p' E2].
    exists p'. rewrite E2. cbn zeta.
    replace (String.length pre + String.length x - String.length pre) with (String.length x) by lia.
    rewrite Ht, substring_app_skip, substring_0_prefix.
    destruct x as [|c x']; [|reflexivity].
    destruct vals as [|v vs]; [destruct Hne as [H|H]; contradiction|reflexivity].
  - apply Forall_cons_iff in Hxs as [Hy Hys].
    change (String.concat "," (x :: y :: ys)) with (x ++ "," ++ String.concat "," (y :: ys))%string in *.
    set (C := String.concat "," (y :: ys)) in *.
    replace ((x ++ "," ++ C) ++ String "]" tail)%string
      with (x ++ String ","%char (C ++ String "]" tail))%string
      by (rewrite string_app_assoc; reflexivity).
    destruct (inline_plain_text x (String ","%char (C ++ String "]" tail)) text
                (String.length pre) (String.length pre) inp ln vals log 7%Z Hx (or_introl eq_refl))
      as [st [inp' [Hst E]]].
    rewrite E.
    assert (Hlen : String.length pre + String.length x <= String.length text)
      by (rewrite Ht, !length_string_app; cbn; lia).
    rewrite (inline_comma (C ++ String "]" tail) text (String.length pre + String.length x)
      (String.length pre) inp' ln vals log st Hst Hpre ltac:(lia) Hlen).
    replace (String.length pre + String.length x - String.length pre) with (String.length x) by lia.
    assert (Hsub : substring (String.length pre) (String.length x) text = x).
    { rewrite Ht, substring_app_skip, string_app_assoc. apply substring_0_prefix. }
    rewrite Hsub.
    set (pre' := (pre ++ x ++ ",")%string).
    assert (Hpre' : String.length pre' = String.length pre + String.length x + 1)
      by (unfold pre'; rewrite !length_string_app; cbn; lia).
    rewrite <- Hpre'.
    destruct (IH y pre' tail text (C ++ String "]" tail)%string ln (vals ++ [VStr (TrimSpace x)]) log Hy Hys
                ltac:(lia) ltac:(left; destruct vals; discriminate)) as [p' E3].
    { rewrite Ht. unfold pre'. rewrite !string_app_assoc. reflexivity. }
    exists p'. fold C in E3. rewrite E3. rewrite <- app_assoc. reflexivity.
Qed.

Lemma inline_open rest text inp ln :
  inlineLoop (String "["%char rest) (mkInline text 0 0 inp ln [listEntry []] []) _S2 VNil
  = inlineLoop rest (mkInline text 1 1 rest ln [listEntry []] []) 7%Z VNil.
Proof. cbn [inlineLoop istack inlineTokenFor Ascii.eqb Bool.eqb andb]. eval_table. reflexivity. Qed.

(** Inline lists: an inline list "[x1,x2,...,xk]" of ASCII items that
    contain none of the characters ',' '[' ']' '{' '}' or a line break
    ([plainInlineText]) is decoded
    to the list of the items with their surrounding white space removed,
    without error; whatever follows the closing ']' is not read.  The
    one list of items excluded is the single empty item: "[]" is the
    empty list. *)
Theorem inline_parse_list : forall xs tail ln,
  Forall (fun x => plainInlineText x = true) xs -> xs <> [""%string] ->
  exists log, inline_parse _S2 ("[" ++ String.concat "," xs ++ "]" ++ tail) ln
  = Ret (VList (map (fun x => VStr (TrimSpace x)) xs), None, log).
Proof.
  intros xs tail ln Hxs Hne.
  unfold inline_parse, ipushNonterm. cbn [istack push set_istack].
  destruct xs as [|x xs].
  - cbn [String.concat String.append].
    do 2 (cbn [inlineLoop istack]; eval_table; cbn -[inlineLoop tableAt]).
    rewrite inlineLoop_nil by reflexivity. cbn. eexists. reflexivity.
  - apply Forall_cons_iff in Hxs as [Hx Hxs'].
    set (text := ("[" ++ String.concat "," (x :: xs) ++ "]" ++ tail)%string).
    change (inlineLoop text _ _ _) with
      (inlineLoop (String "["%char (String.concat "," (x :: xs) ++ String "]" tail))
         (mkInline text 0 0 text ln [listEntry []] []) _S2 VNil).
    rewrite inline_open.
    destruct (inline_items xs x "["%string tail text (String.concat "," (x :: xs) ++ String "]" tail)%string ln [] [] Hx Hxs' ltac:(cbn; lia)
                (or_intror Hne) eq_refl) as [p' E].
    cbn [String.length] in E. rewrite E. cbn. eexists. reflexivity.
Qed.

Lemma inline_parse_list_witness :
  exists log, inline_parse _S2 "[ a, b c ,, d ][" 3
  = Ret (VList [VStr "a"; VStr "b c"; VStr ""; VStr "d"], None, log).
Proof.
  apply (inline_parse_list [" a"; " b c "; ""; " d "]%string "[" 3).
  - repeat constructor.
  - discriminate.
Defined.

(* ------------------------------------------------------------------------ *)
(** ** The inline parser on flat dicts *)

Lemma plainDictChar_class c : plainDictChar c = true ->
  inlineTokenFor c = 0%Z \/ inlineTokenFor c = 1%Z.
Proof.
  unfold plainDictChar, inlineTokenFor. cbn [existsb]. intros H.
  apply andb_prop in H as [_ H]. revert H.
  destruct (Ascii.eqb c " "%char); [auto|].
  destruct (Ascii.eqb c eolMarker); [rewrite !orb_true_r; discriminate|].
  destruct (Ascii.eqb c ","%char); [discriminate|].
  destruct (Ascii.eqb c ":"%char); [discriminate|].
  destruct (Ascii.eqb c "["%char); [discriminate|].
  destruct (Ascii.eqb c "]"%char); [discriminate|].
  destruct (Ascii.eqb c "{"%char); [discriminate|].
  destruct (Ascii.eqb c "}"%char); [discriminate|].
  destruct (isSpace c); auto.
Qed.

Lemma dict_key_step c rest text tp m inp ln stk log st :
  plainDictChar c = true -> (st = 1 \/ st = 2 \/ st = 6)%Z -> stk <> [] ->
  exists st', (st' = 1 \/ st' = 2 \/ st' = 6)%Z /\
  inlineLoop (String c rest) (mkInline text tp m inp ln stk log) st VNil
  = inlineLoop rest (mkInline text (tp + 1) m rest ln stk log) st' VNil.
Proof.
  intros Hc Hst Hs. destruct stk as [|t stk]; [congruence|]. cbn [inlineLoop istack].
  destruct (plainDictChar_class c Hc) as [H|H]; rewrite H;
    destruct Hst as [-> | [-> | ->]]; eval_table; cbn;
    eexists; (split; [| reflexivity]); auto.
Qed.

Lemma dict_value_step c rest text tp m inp ln stk log st :
  plainDictChar c = true -> (st = 3 \/ st = 4)%Z -> stk <> [] ->
  exists st', (st' = 3 \/ st' = 4)%Z /\
  inlineLoop (String c rest) (mkInline text tp m inp ln stk log) st VNil
  = inlineLoop rest (mkInline text (tp + 1) m rest ln stk log) st' VNil.
Proof.
  intros Hc Hst Hs. destruct stk as [|t stk]; [congruence|]. cbn [inlineLoop istack].
  destruct (plainDictChar_class c Hc) as [H|H]; rewrite H;
    destruct Hst as [-> | ->]; eval_table; cbn;
    eexists; (split; [| reflexivity]); auto.
Qed.

Lemma dict_text : forall (P : Z -> Prop) x rest text tp m inp ln stk log st,
  (forall c rest tp inp st, plainDictChar c = true -> P st ->
     exists st', P st' /\
     inlineLoop (String c rest) (mkInline text tp m inp ln stk log) st VNil
     = inlineLoop rest (mkInline text (tp + 1) m rest ln stk log) st' VNil) ->
  plainDictText x = true -> P st ->
  exists st' inp', P st' /\
  inlineLoop (x ++ rest) (mkInline text tp m inp ln stk log) st VNil
  = inlineLoop rest (mkInline text (tp + String.length x) m inp' ln stk log) st' VNil.
Proof.
  intros P. induction x as [|c x IH]; intros rest text tp m inp ln stk log st Hstep Hx Hst.
  - exists st, inp. split; [exact Hst|]. cbn. rewrite Nat.add_0_r. reflexivity.
  - unfold plainDictText in Hx. cbn in Hx. apply andb_prop in Hx as [Hc Hx].
    cbn [String.append].
    destruct (Hstep c (x ++ rest)%string tp inp st Hc Hst) as [s1 [Hs1 E]].
    rewrite E.
    destruct (IH rest text (tp + 1) m (x ++ rest)%string ln stk log s1 Hstep Hx Hs1)
      as [s2 [i2 [Hs2 E2]]].
    exists s2, i2. split; [exact Hs2|]. rewrite E2. cbn [String.length].
    replace (tp + 1 + String.length x) with (tp + S (String.length x)) by lia. reflexivity.
Qed.

Lemma goSlice_ok_range text m tp : m <= tp -> tp <= String.length text ->
  goSlice text m tp = Ret (substring m (tp - m) text).
Proof.
  intros H1 H2. unfold goSlice. apply Nat.leb_le in H1, H2. rewrite H1, H2. reflexivity.
Qed.

Lemma dict_colon rest text tp m inp ln vals ks log st :
  (st = 1 \/ st = 2 \/ st = 6)%Z -> m <= tp -> tp <= String.length text ->
  inlineLoop (String ":"%char rest) (mkInline text tp m inp ln [dictEntry vals ks None] log) st VNil
  = inlineLoop rest
      (mkInline text (tp + 1) (tp + 1) rest ln
         [dictEntry vals ks (Some (TrimSpace (substring m (tp - m) text)))] log) 3%Z VNil.
Proof.
  intros Hst Hmt Htl. pose proof (goSlice_ok_range text m tp Hmt Htl) as Hg.
  cbn [inlineLoop istack].
  destruct Hst as [-> | [-> | ->]]; cbn [inlineTokenFor Ascii.eqb Bool.eqb andb]; eval_table;
    cbn -[goSlice]; rewrite Hg; reflexivity.
Qed.

Lemma dict_comma rest text tp m inp ln vals ks k log st :
  (st = 3 \/ st = 4)%Z -> 0 < m -> m <= tp -> tp <= String.length text ->
  inlineLoop (String ","%char rest) (mkInline text tp m inp ln [dictEntry vals ks (Some k)] log) st VNil
  = inlineLoop rest
      (mkInline text (tp + 1) (tp + 1) rest ln
         [dictEntry (vals ++ [VStr (TrimSpace (substring m (tp - m) text))]) (ks ++ [k]) None]
         log) 6%Z VNil.
Proof.
  intros Hst Hm Hmt Htl. pose proof (goSlice_ok_range text m tp Hmt Htl) as Hg.
  destruct m as [|m0]; [lia|].
  cbn [inlineLoop istack].
  destruct Hst as [-> | ->]; cbn [inlineTokenFor Ascii.eqb Bool.eqb andb]; eval_table;
    cbn -[goSlice appendStringValue];
    unfold appendStringValue; cbn [IText Marker TextPosition set_IInput]; rewrite Hg;
    reflexivity.
Qed.

Lemma dict_close rest text tp m inp ln vals ks k log st :
  (st = 3 \/ st = 4)%Z -> 0 < m -> m <= tp -> tp <= String.length text ->
  length ks = length vals ->
  exists p', inlineLoop (String "}"%char rest)
               (mkInline text tp m inp ln [dictEntry vals ks (Some k)] log) st VNil
  = Ret (VDict (buildDict (ks ++ [k]) (vals ++ [VStr (TrimSpace (substring m (tp - m) text))]) []),
         None, p').
Proof.
  intros Hst Hm Hmt Htl Hl. pose proof (goSlice_ok_range text m tp Hmt Htl) as Hg.
  destruct m as [|m0]; [lia|].
  assert (Hr : ReduceToItem (set_Keys (Some (ks ++ [k])) (set_Values
                 (vals ++ [VStr (TrimSpace (substring (S m0) (tp - S m0) text))])
                 (dictEntry vals ks (Some k))))
               = Ret (VDict (buildDict (ks ++ [k])
                        (vals ++ [VStr (TrimSpace (substring (S m0) (tp - S m0) text))]) []))).
  { unfold ReduceToItem. cbn [Keys Values dictEntry set_Keys set_Values].
    rewrite !length_app, Hl, Nat.eqb_refl, andb_false_r. reflexivity. }
  cbn [inlineLoop istack].
  destruct Hst as [-> | ->]; cbn [inlineTokenFor Ascii.eqb Bool.eqb andb]; eval_table;
    cbn -[goSlice appendStringValue inlineLoop ReduceToItem];
    unfold appendStringValue; cbn [IText Marker TextPosition set_IInput]; rewrite Hg;
    cbn -[inlineLoop ReduceToItem]; rewrite Hr; cbn -[inlineLoop];
    rewrite inlineLoop_nil by reflexivity; cbn; eexists; reflexivity.
Qed.

Lemma dict_pair k v rest pre text inp ln vals ks log st :
  plainDictText k = true -> plainDictText v = true -> (st = 1 \/ st = 2 \/ st = 6)%Z ->
  text = (pre ++ k ++ ":" ++ v ++ rest)%string ->
  exists st' inp', (st' = 3 \/ st' = 4)%Z /\
  inlineLoop (k ++ String ":"%char (v ++ rest))
    (mkInline text (String.length pre) (String.length pre) inp ln [dictEntry vals ks None] log) st VNil
  = inlineLoop rest
      (mkInline text (String.length pre + String.length k + 1 + String.length v)
         (String.length pre + String.length k + 1) inp' ln
         [dictEntry vals ks (Some (TrimSpace k))] log) st' VNil.
Proof.
  intros Hk Hv Hst Ht.
  assert (Hlen : String.length text
                 = String.length pre + String.length k + 1 + String.length v + String.length rest)
    by (rewrite Ht, !length_string_app; cbn [String.length]; lia).
  destruct (dict_text (fun s => s = 1 \/ s = 2 \/ s = 6)%Z k (String ":"%char (v ++ rest)) text
              (String.length pre) (String.length pre) inp ln [dictEntry vals ks None] log st)
    as [s1 [i1 [Hs1 E1]]]; [| exact Hk | exact Hst |].
  { intros c r tp i s Hc Hs. apply dict_key_step; [exact Hc | exact Hs | discriminate]. }
  rewrite E1.
  rewrite (dict_colon (v ++ rest) text (String.length pre + String.length k) (String.length pre) i1 ln vals ks log s1 Hs1 ltac:(lia) ltac:(lia)).
  replace (String.length pre + String.length k - String.length pre) with (String.length k) by lia.
  assert (Hsub : substring (String.length pre) (String.length k) text = k)
    by (rewrite Ht, substring_app_skip; apply substring_0_prefix).
  rewrite Hsub.
  destruct (dict_text (fun s => s = 3 \/ s = 4)%Z v rest text
              (String.length pre + String.length k + 1) (String.length pre + String.length k + 1)
              (v ++ rest)%string ln [dictEntry vals ks (Some (TrimSpace k))] log 3%Z)
    as [s2 [i2 [Hs2 E2]]]; [| exact Hv | left; reflexivity |].
  { intros c r tp i s Hc Hs. apply dict_value_step; [exact Hc | exact Hs | discriminate]. }
  rewrite E2. exists s2, i2. split; [exact Hs2 | reflexivity].
Qed.

Lemma dict_pairs : forall kvs k v pre tail text inp ln vals ks log st,
  Forall (fun kv => plainDictText (fst kv) && plainDictText (snd kv) = true) ((k, v) :: kvs) ->
  0 < String.length pre -> (st = 1 \/ st = 6)%Z -> length ks = length vals ->
  text = (pre ++ String.concat "," (map pairText ((k, v) :: kvs)) ++ String "}" tail)%string ->
  exists p', inlineLoop (String.concat "," (map pairText ((k, v) :: kvs)) ++ String "}" tail)
               (mkInline text (String.length pre) (String.length pre) inp ln
                  [dictEntry vals ks None] log) st VNil
  = Ret (VDict (buildDict (ks ++ map (fun kv => TrimSpace (fst kv)) ((k, v) :: kvs))
                          (vals ++ map (fun kv => VStr (TrimSpace (snd kv))) ((k, v) :: kvs)) []),
         None, p').
Proof.
  induction kvs as [|[k' v'] kvs IH]; intros k v pre tail text inp ln vals ks log st Hall Hpre Hst Hl Ht;
    apply Forall_cons_iff in Hall as [Hkv Hall]; cbn [fst snd] in Hkv;
    apply andb_prop in Hkv as [Hk Hv].
  - cbn [map String.concat] in *. unfold pairText in *. cbn [fst snd] in *.
    rewrite !string_app_assoc. cbn [String.append].
    destruct (dict_pair k v (String "}" tail) pre text inp ln vals ks log st Hk Hv
                ltac:(destruct Hst; auto) ltac:(rewrite Ht, !string_app_assoc; reflexivity))
      as [s2 [i2 [Hs2 E]]].
    rewrite E.
    assert (Hlen : String.length pre + String.length k + 1 + String.length v <= String.length text)
      by (rewrite Ht, !length_string_app; cbn [String.length]; lia).
    destruct (dict_close tail text (String.length pre + String.length k + 1 + String.length v) (String.length pre + String.length k + 1) i2 ln vals ks
                (TrimSpace k) log s2 Hs2 ltac:(lia) ltac:(lia) Hlen Hl) as [p' E2].
    exists p'. rewrite E2.
    replace (String.length pre + String.length k + 1 + String.length v
             - (String.length pre + String.length k + 1)) with (String.length v) by lia.
    replace (substring (String.length pre + String.length k + 1) (String.length v) text) with v.
    + reflexivity.
    + rewrite Ht. replace (pre ++ (k ++ ":" ++ v) ++ String "}" tail)%string
        with ((pre ++ k ++ ":") ++ v ++ String "}" tail)%string
        by (rewrite !string_app_assoc; reflexivity).
      replace (String.length pre + String.length k + 1) with (String.length (pre ++ k ++ ":"))
        by (rewrite !length_string_app; cbn; lia).
      rewrite substring_app_skip, substring_0_prefix. reflexivity.
  - change (String.concat "," (map pairText ((k, v) :: (k', v') :: kvs)))
      with (pairText (k, v) ++ "," ++ String.concat "," (map pairText ((k', v') :: kvs)))%string
      in Ht |- *.
    set (C := String.concat "," (map pairText ((k', v') :: kvs))) in *.
    change (pairText (k, v)) with (k ++ ":" ++ v)%string in Ht |- *.
    replace (((k ++ ":" ++ v) ++ "," ++ C) ++ String "}" tail)%string
      with (k ++ String ":"%char (v ++ String ","%char (C ++ String "}" tail)))%string
      by (rewrite !string_app_assoc; reflexivity).
    destruct (dict_pair k v (String ","%char (C ++ String "}" tail)) pre text inp ln vals ks log st
                Hk Hv ltac:(destruct Hst; auto) ltac:(rewrite Ht, !string_app_assoc; reflexivity))
      as [s2 [i2 [Hs2 E]]].
    rewrite E.
    assert (Hlen : String.length pre + String.length k + 1 + String.length v <= String.length text)
      by (rewrite Ht, !length_string_app; cbn [String.length]; rewrite ?length_string_app; lia).
    rewrite (dict_comma (C ++ String "}" tail) text (String.length pre + String.length k + 1 + String.length v) (String.length pre + String.length k + 1)
               i2 ln vals ks (TrimSpace k) log s2 Hs2 ltac:(lia) ltac:(lia) Hlen).
    replace (String.length pre + String.length k + 1 + String.length v
             - (String.length pre + String.length k + 1)) with (String.length v) by lia.
    assert (Hsub : substring (String.length pre + String.length k + 1) (String.length v) text = v).
    { rewrite Ht. replace (pre ++ ((k ++ ":" ++ v) ++ "," ++ C) ++ String "}" tail)%string
        with ((pre ++ k ++ ":") ++ v ++ ("," ++ C ++ String "}" tail))%string
        by (rewrite !string_app_assoc; reflexivity).
      replace (String.length pre + String.length k + 1) with (String.length (pre ++ k ++ ":"))
        by (rewrite !length_string_app; cbn; lia).
      rewrite substring_app_skip, substring_0_prefix. reflexivity. }
    rewrite Hsub.
    set (pre' := (pre ++ k ++ ":" ++ v ++ ",")%string).
    assert (Hpre' : String.length pre' = String.length pre + String.length k + 1 + String.length v + 1)
      by (unfold pre'; rewrite !length_string_app; cbn [String.length]; lia).
    rewrite <- Hpre'.
    destruct (IH k' v' pre' tail text (C ++ String "}" tail)%string ln
                (vals ++ [VStr (TrimSpace v)]) (ks ++ [TrimSpace k]) log 6%Z Hall
                ltac:(lia) ltac:(right; reflexivity)
                ltac:(rewrite !length_app, Hl; reflexivity)) as [p' E3].
    { rewrite Ht. unfold pre'. fold C. rewrite !string_app_assoc. reflexivity. }
    exists p'. fold C in E3. rewrite E3. rewrite <- !app_assoc. reflexivity.
Qed.

Lemma dict_open rest text inp ln :
  inlineLoop (String "{"%char rest) (mkInline text 0 0 inp ln [dictEntry [] [] None] []) _S1 VNil
  = inlineLoop rest (mkInline text 1 1 rest ln [dictEntry [] [] None] []) 1%Z VNil.
Proof. cbn [inlineLoop istack inlineTokenFor Ascii.eqb Bool.eqb andb]. eval_table. reflexivity. Qed.

(** Inline dictionaries: an inline dictionary "{k1:v1,...,kn:vn}" whose
    keys and values are ASCII text that contains none of the characters
    ',' ':' '[' ']' '{' '}' or a line break ([plainDictText]) is decoded without error to the map that
    [ReduceToItem] builds from the keys and the values with their
    surrounding white space removed (a key given twice keeps its last
    value); whatever follows the closing '}' is not read.  "{}" is the
    empty dictionary. *)
Theorem inline_parse_dict : forall kvs tail ln,
  Forall (fun kv => plainDictText (fst kv) && plainDictText (snd kv) = true) kvs ->
  exists log, inline_parse _S1 ("{" ++ String.concat "," (map pairText kvs) ++ "}" ++ tail) ln
  = Ret (VDict (buildDict (map (fun kv => TrimSpace (fst kv)) kvs)
                          (map (fun kv => VStr (TrimSpace (snd kv))) kvs) []), None, log).
Proof.
  intros kvs tail ln Hkvs.
  unfold inline_parse, ipushNonterm. cbn [istack push set_istack].
  destruct kvs as [|[k v] kvs].
  - cbn [map String.concat String.append].
    do 2 (cbn [inlineLoop istack]; eval_table; cbn -[inlineLoop tableAt]).
    rewrite inlineLoop_nil by reflexivity. cbn. eexists. reflexivity.
  - set (C := String.concat "," (map pairText ((k, v) :: kvs))).
    set (text := ("{" ++ C ++ "}" ++ tail)%string).
    change (inlineLoop text _ _ _) with
      (inlineLoop (String "{"%char (C ++ String "}" tail))
         (mkInline text 0 0 text ln [dictEntry [] [] None] []) _S1 VNil).
    rewrite dict_open.
    destruct (dict_pairs kvs k v "{"%string tail text (C ++ String "}" tail)%string ln [] [] [] 1%Z
                Hkvs ltac:(cbn; lia) ltac:(left; reflexivity) eq_refl eq_refl) as [p' E].
    cbn [String.length] in E. fold C in E. rewrite E. cbn [app]. eexists. reflexivity.
Qed.

Lemma inline_parse_dict_witness :
  exists log, inline_parse _S1 "{a: 1, b: x y , a:3}}" 2
  = Ret (VDict [("a", VStr "3"); ("b", VStr "x y")]%string, None, log).
Proof.
  apply (inline_parse_dict [("a", " 1"); (" b", " x y "); (" a", "3")]%string "}" 2).
  repeat constructor.
Defined.
